(** * DIFF_EV: differential evolution with hill climbing

    A shallow embedding of [src/DEV_MA/DIFF_EV.CPP] and the properties its
    specification states about it.

    Numbers.  The C [double]s are modelled by exact rationals [Q]: every
    comparison, copy and branch of the source is kept as written, and
    arithmetic is exact.  The C [int]s are modelled by [Z]; the conversion
    [(int) x] is truncation toward zero, which is what C defines for values
    in the range of [int], and only there.  The one [int] product whose
    operand the caller chooses, [local_mintrades * 9], is wrapped to 32
    bits; the counters are not.  Sizes and subscripts ([nvars], [nints],
    [popsize], [overinit], [ind], ...) are natural numbers.

    Where a property depends on a conversion, on the rounding of
    [ensure_legal] or on a counter, its theorem assumes what makes the code
    agree with these definitions: the converted values have magnitude at
    most [INT_MAX] ([int_sized], [ints_sized], [int_bounds]), the sum with
    0.5 is the exact one ([half_exact]), the counter is below [INT_MAX];
    and it concludes that the values converted are in the range of [int].
    Properties of the doubles are stated as comparisons and copies, which
    binary64 keeps, and the penalty of [ensure_legal] as the operations of
    the code in their order.

    Memory.  A candidate is a [row]: the [nvars] parameters followed by the
    criterion, as in the source ([dim = nvars + 1]).  A population buffer is
    a list of rows; [pop + ind * dim] is the row at subscript [ind]. *)

From Stdlib Require Import ZArith QArith Qround Qabs Lia Lqa List Bool.
From stdpp Require Import base option list.

Local Open Scope Z_scope.
Local Open Scope Q_scope.

(* ================================================================== *)
(** ** Numbers *)
(* ================================================================== *)

Abbreviation row := (list Q).

#[global] Instance Q_inhabited : Inhabited Q := populate 0.

(** [x < y] on doubles, as a boolean test. *)
Definition Qltb (x y : Q) : bool := negb (Qle_bool y x).

(** [(int) x]: conversion of a double to int, truncating toward zero. *)
Definition to_int (x : Q) : Z := Z.quot (Qnum x) (Zpos (Qden x)).

(** Conversion of an int to double. *)
Definition of_int (z : Z) : Q := inject_Z z.

(** A double that holds a whole number: converting it to int and back
    gives the same double. *)
Definition whole (x : Q) : Prop := of_int (to_int x) = x.

(** 32-bit two's complement wrap-around of an int result. *)
Definition wrap32 (z : Z) : Z := ((z + 2147483648) mod 4294967296 - 2147483648)%Z.

Definition INT_MAX : Z := 2147483647%Z.
Definition INT_MIN : Z := (-2147483648)%Z.

(** The constant [1.e10] of [ensure_legal]. *)
Definition big_penalty : Q := inject_Z 10000000000.

(* ================================================================== *)
(** ** ensure_legal (source lines 521-546) *)
(* ================================================================== *)

Section Legality.

Variables nvars nints : nat.
Variables low_bounds high_bounds : list Q.

(** One pass of the body of the [for] loop, at subscript [i]; the state
    is the running [penalty] and the array [params]. *)
Definition legal_at (i : nat) (st : Q * row) : Q * row :=
  let '(penalty, params) := st in
  let params :=
    if (i <? nints)%nat then
      if Qle_bool 0 (params !!! i)
      then <[i := of_int (to_int (params !!! i + (1#2)))]> params
      else if Qltb (params !!! i) 0
           then <[i := of_int (- to_int ((1#2) - params !!! i))]> params
           else params
    else params in
  let '(penalty, params) :=
    if Qltb (high_bounds !!! i) (params !!! i)
    then (penalty + big_penalty * (params !!! i - high_bounds !!! i),
          <[i := high_bounds !!! i]> params)
    else (penalty, params) in
  if Qltb (params !!! i) (low_bounds !!! i)
  then (penalty + big_penalty * (low_bounds !!! i - params !!! i),
        <[i := low_bounds !!! i]> params)
  else (penalty, params).

(** [ensure_legal] returns the penalty and the array as it leaves it. *)
Definition ensure_legal (params : row) : Q * row :=
  fold_left (fun st i => legal_at i st) (seq 0 nvars) (0, params).

End Legality.

(* ================================================================== *)
(** ** diff_ev (source lines 36-507) *)
(* ================================================================== *)

(** The univariate maximizers [glob_max] and [brentmax] are not part of the
    source file.  All they can do to the optimizer's data is call the
    function they are handed ([c_func]) at points of their choice and, at
    the end, report the abscissa [x2] of the best point.  A [probe] is such
    a strategy: either the final [x2], or a point to evaluate and the
    continuation once its value is known. *)
Inductive probe : Type :=
  | Done (x2 : Q)
  | Ask (param : Q) (next : Q -> probe).

(** How an iteration of the initialization loop ends: the loop goes on, or
    control jumps to [FINISHED]. *)
Inductive flow (S : Type) : Type :=
  | Next (s : S)
  | Finished (s : S).
Arguments Next {S} s.
Arguments Finished {S} s.

Definition flow_state {S : Type} (f : flow S) : S :=
  match f with Next s => s | Finished s => s end.

(** Variables of [diff_ev] that are live during initialization. *)
Record init_state : Type := mkInit {
  ind : nat;
  pop1 : list row;
  pop2 : list row;
  best : row;
  grand_best : Q;
  worstf : Q;
  avgf : Q;
  local_mintrades : Z;
  failures : Z;
  n_evals : Z;
  draws : nat            (* how many times unifrand() has been called *)
}.

(** Variables of [diff_ev] that are live in the main loop, apart from the
    read-only parent generation [old_gen]. *)
Record gen_state : Type := mkGen {
  new_gen : list row;
  g_best : row;
  g_grand_best : Q;
  g_worstf : Q;
  g_avgf : Q;
  g_draws : nat;
  ibest : nat;
  n_tweaked : nat;
  improved : bool
}.

(** State of one integer hill-climbing walk. *)
Record climb : Type := mkClimb {
  c_dest : row;
  c_value : Q;
  c_ibase : Z;
  c_success : bool
}.

(** Everything [diff_ev] is given: its arguments, and the routines it
    calls that are not part of the source file. *)
Record setup : Type := mkSetup {
  (** The caller's criterion function. *)
  criter : list Q -> Z -> Q;
  (** [unif n] is the value returned by the [n]-th call of [unifrand]. *)
  unif : nat -> Q;
  (** [glob_max] followed by [brentmax] on the interval [lower, upper]. *)
  search : Q -> Q -> probe;
  (** [paramcor]: true when it reports a failure. *)
  paramcor : nat -> nat -> list row -> bool;
  (** Content of a freshly allocated, uninitialized double. *)
  junk : Q;
  nvars : nat;
  nints : nat;
  popsize : nat;
  overinit : nat;
  mintrd : Z;
  max_evals : Z;
  max_bad_gen : Z;
  mutate_dev : Q;
  pcross : Q;
  pclimb : Q;
  low_bounds : list Q;
  high_bounds : list Q
}.

(** What one pass of the loop of lines 237-455 knows between its parts:
    the destination slot, [value], and the best-so-far bookkeeping. *)
Record child : Type := mkChild {
  dest : row;
  value : Q;
  h_best : row;
  h_grand_best : Q;
  h_ibest : nat;
  h_n_tweaked : nat;
  h_improved : bool;
  h_draws : nat
}.

Section DiffEv.

Variable E : setup.

Local Abbreviation criter := (criter E).
Local Abbreviation unif := (unif E).
Local Abbreviation search := (search E).
Local Abbreviation paramcor := (paramcor E).
Local Abbreviation junk := (junk E).
Local Abbreviation nvars := (nvars E).
Local Abbreviation nints := (nints E).
Local Abbreviation popsize := (popsize E).
Local Abbreviation overinit := (overinit E).
Local Abbreviation mintrd := (mintrd E).
Local Abbreviation max_evals := (max_evals E).
Local Abbreviation max_bad_gen := (max_bad_gen E).
Local Abbreviation mutate_dev := (mutate_dev E).
Local Abbreviation pcross := (pcross E).
Local Abbreviation pclimb := (pclimb E).
Local Abbreviation low_bounds := (low_bounds E).
Local Abbreviation high_bounds := (high_bounds E).
Local Abbreviation legalize := (ensure_legal nvars nints low_bounds high_bounds).

(** [criter ( p , mintrades )] reads the [nvars] parameters at [p]. *)
Definition evaluate (p : row) (mintrades : Z) : Q :=
  criter (take nvars p) mintrades.

(* ---------------------------------------------------------------- *)
(** *** Initial population (lines 96-195) *)

(** Lines 108-118 at subscript [i]: draw one parameter of the trial. *)
Definition draw_param (i : nat) (st : row * nat) : row * nat :=
  let '(popptr, d) := st in
  let lo := low_bounds !!! i in
  let hi := high_bounds !!! i in
  if (i <? nints)%nat then
    let x := lo + of_int (to_int (unif d * (hi - lo + 1))) in
    (<[i := if Qltb hi x then hi else x]> popptr, S d)
  else
    (<[i := lo + unif d * (hi - lo)]> popptr, S d).

Definition draw_params (popptr : row) (d : nat) : row * nat :=
  fold_left (fun st i => draw_param i st) (seq 0 nvars) (popptr, d).

(** Lines 179-188 at subscript [i]: the search of pop1 for the worst;
    the state is [avgf], the subscript [minptr] points at, and [worstf]. *)
Definition scan_worst (pop : list row) (i : nat) (st : Q * nat * Q) : Q * nat * Q :=
  let '(avgf, minptr, worstf) := st in
  let dtemp := (pop !!! i) !!! nvars in
  let avgf := avgf + dtemp in
  if (i =? 0)%nat || Qltb dtemp worstf then (avgf, i, dtemp)
  else (avgf, minptr, worstf).

(** Lines 135-137. *)
Definition reduce_mintrades (m : Z) : Z :=
  let m := Z.quot (wrap32 (m * 9)) 10 in
  if (m <? 1)%Z then 1%Z else m.

(** Lines 103-118: the slot [popptr] points at, filled with a fresh trial. *)
Definition draw_trial (s : init_state) : row * nat :=
  draw_params (if (ind s <? popsize)%nat then pop1 s !!! ind s else pop2 s !!! 0%nat)
              (draws s).

(** Line 120: the criterion of the trial. *)
Definition trial_value (s : init_state) : Q :=
  evaluate (fst (draw_trial s)) (local_mintrades s).

(** One iteration of the loop of lines 101-195.  [--ind ; continue]
    followed by the loop's [ind++] leaves [ind] as it was. *)
Definition init_trial (s : init_state) : flow init_state :=
  let in_pop1 := (ind s <? popsize)%nat in
  let popptr := fst (draw_trial s) in
  let d := snd (draw_trial s) in
  let value := trial_value s in
  let popptr := <[nvars := value]> popptr in
  let p1 := if in_pop1 then <[ind s := popptr]> (pop1 s) else pop1 s in
  let p2 := if in_pop1 then pop2 s else <[0%nat := popptr]> (pop2 s) in
  let n := (n_evals s + 1)%Z in
  (* if (ind == 0) *)
  let first := (ind s =? 0)%nat in
  let gb := if first then value else grand_best s in
  let wf := if first then value else worstf s in
  let af := if first then value else avgf s in
  let bst := if first then p1 !!! 0%nat else best s in
  if Qle_bool value 0 then
    if (max_evals <? n)%Z then
      Finished (mkInit (ind s) p1 p2 bst gb wf af (local_mintrades s) (failures s) n d)
    else if (500 <=? failures s + 1)%Z then
      Next (mkInit (ind s) p1 p2 bst gb wf af
                   (reduce_mintrades (local_mintrades s)) 0 n d)
    else
      Next (mkInit (ind s) p1 p2 bst gb wf af (local_mintrades s) (failures s + 1) n d)
  else
    let '(bst, gb) := if Qltb gb value then (popptr, value) else (bst, gb) in
    let wf := if Qltb value wf then value else wf in
    let af := af + value in
    if (popsize <=? ind s)%nat then
      let '(af, minptr, wf) :=
        fold_left (fun st i => scan_worst p1 i st) (seq 0 popsize) (0, 0%nat, wf) in
      if Qltb wf value
      then Next (mkInit (S (ind s)) (<[minptr := popptr]> p1) p2 bst gb wf
                        (af + (value - wf)) (local_mintrades s) 0 n d)
      else Next (mkInit (S (ind s)) p1 p2 bst gb wf af (local_mintrades s) 0 n d)
    else
      Next (mkInit (S (ind s)) p1 p2 bst gb wf af (local_mintrades s) 0 n d).

(** The loop of lines 101-195.  Worthless trials are retried, so the
    number of iterations is not bounded by [popsize + overinit]; [fuel]
    bounds it here. *)
Fixpoint init_loop (fuel : nat) (s : init_state) : option (flow init_state) :=
  if (ind s <? popsize + overinit)%nat then
    match fuel with
    | O => None
    | S fuel' =>
        match init_trial s with
        | Next s' => init_loop fuel' s'
        | Finished s' => Some (Finished s')
        end
    end
  else Some (Next s).

(** Lines 63-98: the state before the first trial.  The three buffers are
    allocated but not initialized, and neither are the locals. *)
Definition init_start : init_state :=
  mkInit 0 (replicate popsize (replicate (nvars + 1) junk))
           (replicate popsize (replicate (nvars + 1) junk))
           (replicate (nvars + 1) junk)
           junk junk junk mintrd 0 0 0.

(** Lines 206-214: subscript of the best member of pop1. *)
Definition find_ibest (pop : list row) : nat :=
  snd (fold_left
         (fun (st : Q * nat) i =>
            let '(value, ib) := st in
            if Qltb value ((pop !!! i) !!! nvars)
            then ((pop !!! i) !!! nvars, i) else (value, ib))
         (seq 1 (popsize - 1))
         ((pop !!! 0%nat) !!! nvars, 0%nat)).


(* ---------------------------------------------------------------- *)
(** *** One child (lines 237-455) *)

(** The [do ... while] loops of lines 246-253: draw a subscript until it
    is below [popsize] and differs from those already taken.  The loop
    has no bound in the source; [fuel] bounds it here. *)
Fixpoint pick (fuel : nat) (taken : list Z) (d : nat) : option (Z * nat) :=
  match fuel with
  | O => None
  | S fuel' =>
      let i := to_int (unif d * of_int (Z.of_nat popsize)) in
      if (Z.of_nat popsize <=? i)%Z || existsb (Z.eqb i) taken
      then pick fuel' taken (S d)
      else Some (i, S d)
  end.

(** Lines 269-270: the starting parameter of the rotation. *)
Fixpoint pick_start (fuel : nat) (d : nat) : option (nat * nat) :=
  match fuel with
  | O => None
  | S fuel' =>
      let j := to_int (unif d * of_int (Z.of_nat nvars)) in
      if (Z.of_nat nvars <=? j)%Z then pick_start fuel' (S d)
      else Some (Z.to_nat j, S d)
  end.

(** Line 276: the mutated value of parameter [j]. *)
Definition mutated (parent2 diff1 diff2 : row) (j : nat) : Q :=
  parent2 !!! j + mutate_dev * (diff1 !!! j - diff2 !!! j).

(** Lines 274-282: the crossover loop.  The first argument is [i + 1]
    for the loop variable [i], which runs from [nvars - 1] down to [0];
    [unifrand] is not called when [i == 0 && ! used_mutated_parameter]. *)
Fixpoint cross_loop (i1 : nat) (parent1 parent2 diff1 diff2 : row)
         (j : nat) (used_mutated_parameter : bool) (dest_ptr : row) (d : nat)
  : row * bool * nat :=
  match i1 with
  | O => (dest_ptr, used_mutated_parameter, d)
  | S i =>
      let '(mutate, d) :=
        if (i =? 0)%nat && negb used_mutated_parameter then (true, d)
        else (Qltb (unif d) pcross, S d) in
      let dest_ptr :=
        if mutate then <[j := mutated parent2 diff1 diff2 j]> dest_ptr
        else <[j := parent1 !!! j]> dest_ptr in
      cross_loop i parent1 parent2 diff1 diff2 ((j + 1) mod nvars)
                 (used_mutated_parameter || mutate) dest_ptr d
  end.

Definition crossover (parent1 parent2 diff1 diff2 : row) (j : nat)
           (dest_ptr : row) (d : nat) : row * bool * nat :=
  cross_loop nvars parent1 parent2 diff1 diff2 j false dest_ptr d.

(** Lines 302-316: selection of the child (in [dest_ptr], scored
    [value]) against [parent1].  Returns the destination slot and the
    [value] carried on. *)
Definition select_child (parent1 dest_ptr : row) (value : Q) : row * Q :=
  if Qltb (parent1 !!! nvars) value
  then (<[nvars := value]> dest_ptr, value)
  else (parent1, parent1 !!! nvars).

(** Lines 357-371 ([up = true]) and 375-389 ([up = false]): walk an
    integer parameter one step at a time while the criterion improves.
    [n] bounds the number of steps to the distance to the limit. *)
Fixpoint walk (up : bool) (n : nat) (ivar limit : Z) (k : nat) (mintrades : Z)
         (c : climb) : climb :=
  match n with
  | O => c
  | S n' =>
      let ivar := if up then (ivar + 1)%Z else (ivar - 1)%Z in
      if (if up then (ivar <=? limit)%Z else (limit <=? ivar)%Z) then
        let dest_ptr := <[k := of_int ivar]> (c_dest c) in
        let test_val := evaluate dest_ptr mintrades in
        if Qltb (c_value c) test_val
        then walk up n' ivar limit k mintrades (mkClimb dest_ptr test_val ivar true)
        else mkClimb (<[k := of_int (c_ibase c)]> dest_ptr)
                     (c_value c) (c_ibase c) (c_success c)
      else c
  end.

(** Lines 350-397: hill climbing on the integer parameter [k]. *)
Definition hill_int (k : nat) (mintrades : Z) (dest_ptr : row) (value : Q) : climb :=
  let ibase := to_int (dest_ptr !!! k) in
  let ilow := to_int (low_bounds !!! k) in
  let ihigh := to_int (high_bounds !!! k) in
  let c := walk true (Z.to_nat (ihigh - ibase)) ibase ihigh k mintrades
                (mkClimb dest_ptr value ibase false) in
  if c_success c then c
  else walk false (Z.to_nat (c_ibase c - ilow)) (c_ibase c) ilow k mintrades c.

(** Lines 556-563: [c_func], which works on the array [local_x] that
    aliases the destination slot. *)
Definition c_func (local_ivar : nat) (mintrades : Z) (local_x : row) (param : Q)
  : Q * row :=
  let '(penalty, x) := legalize (<[local_ivar := param]> local_x) in
  (evaluate x mintrades - penalty, x).

(** Lines 423-425: run the univariate maximizers on [c_func]. *)
Fixpoint run_search (p : probe) (local_ivar : nat) (mintrades : Z) (local_x : row)
  : Q * row :=
  match p with
  | Done x2 => (x2, local_x)
  | Ask param next =>
      let '(y, x) := c_func local_ivar mintrades local_x param in
      run_search (next y) local_ivar mintrades x
  end.

(** Lines 413-422: the interval handed to [glob_max]. *)
Definition search_interval (k : nat) (local_base : Q) : Q * Q :=
  let range := high_bounds !!! k - low_bounds !!! k in
  let lower := local_base - (1#10) * range in
  let upper := local_base + (1#10) * range in
  let '(lower, upper) :=
    if Qltb lower (low_bounds !!! k)
    then (low_bounds !!! k, low_bounds !!! k + (1#5) * range)
    else (lower, upper) in
  if Qltb (high_bounds !!! k) upper
  then (high_bounds !!! k - (1#5) * range, high_bounds !!! k)
  else (lower, upper).

(** Lines 401-439: hill climbing on the real parameter [k], up to the
    acceptance test.  Returns the destination slot and [value]. *)
Definition hill_real (k : nat) (mintrades : Z) (dest_ptr : row) (value : Q) : row * Q :=
  let local_base := dest_ptr !!! k in
  let old_value := value in
  let '(lower, upper) := search_interval k local_base in
  let '(x2, dest_ptr) := run_search (search lower upper) k mintrades dest_ptr in
  let dest_ptr := <[k := x2]> dest_ptr in
  let '(_, dest_ptr) := legalize dest_ptr in
  let value := evaluate dest_ptr mintrades in
  if Qltb old_value value
  then (<[nvars := value]> dest_ptr, value)
  else (<[k := local_base]> dest_ptr, old_value).

(** Lines 304-310 and 440-446: a new best so far. *)
Definition update_best (ind : nat) (c : child) : child :=
  if Qltb (h_grand_best c) (value c)
  then mkChild (dest c) (value c) (dest c) (value c) ind 0 true (h_draws c)
  else c.

(** Lines 300-316: evaluate the child and select. *)
Definition selection (ind : nat) (mintrades : Z) (parent1 dest_ptr : row)
           (s : gen_state) (d : nat) : child :=
  let v := evaluate dest_ptr mintrades in
  let '(dest_ptr, v') := select_child parent1 dest_ptr v in
  let c := mkChild dest_ptr v' (g_best s) (g_grand_best s) (ibest s) (n_tweaked s)
                   (improved s) d in
  if Qltb (parent1 !!! nvars) v then update_best ind c else c.

(** Lines 336-448: the hill-climbing step. *)
Definition hill_climb (generation ind : nat) (mintrades : Z) (c : child) : child :=
  if Qltb 0 pclimb then
    let '(go, d) :=
      if (ind =? h_ibest c)%nat && (h_n_tweaked c <? nvars)%nat then (true, h_draws c)
      else (Qltb (unif (h_draws c)) pclimb, S (h_draws c)) in
    if go then
      let '(k, tweaked, d) :=
        if (ind =? h_ibest c)%nat
        then ((generation mod nvars)%nat, S (h_n_tweaked c), d)
        else
          let k := to_int (unif d * of_int (Z.of_nat nvars)) in
          (Z.to_nat (if (Z.of_nat nvars <=? k)%Z then (Z.of_nat nvars - 1)%Z else k),
           h_n_tweaked c, S d) in
      if (k <? nints)%nat then
        let w := hill_int k mintrades (dest c) (value c) in
        mkChild (c_dest w) (c_value w) (h_best c) (h_grand_best c) (h_ibest c)
                tweaked (h_improved c) d
      else
        let '(dest_ptr, v) := hill_real k mintrades (dest c) (value c) in
        update_best ind
          (mkChild dest_ptr v (h_best c) (h_grand_best c) (h_ibest c)
                   tweaked (h_improved c) d)
    else mkChild (dest c) (value c) (h_best c) (h_grand_best c) (h_ibest c)
                 (h_n_tweaked c) (h_improved c) d
  else c.

(** One pass of the loop of lines 237-455, for the subscript [ind]. *)
Definition child_step (fuel generation ind : nat) (mintrades : Z)
           (old_gen : list row) (s : gen_state) : option gen_state :=
  let parent1 := old_gen !!! ind in
  '(i, d) ← pick fuel [Z.of_nat ind] (g_draws s);
  '(j, d) ← pick fuel [Z.of_nat ind; i] d;
  '(k, d) ← pick fuel [Z.of_nat ind; i; j] d;
  let parent2 := old_gen !!! Z.to_nat i in
  let diff1 := old_gen !!! Z.to_nat j in
  let diff2 := old_gen !!! Z.to_nat k in
  '(j, d) ← pick_start fuel d;
  let '(dest_ptr, _, d) := crossover parent1 parent2 diff1 diff2 j (new_gen s !!! ind) d in
  let '(_, dest_ptr) := legalize dest_ptr in
  let c := selection ind mintrades parent1 dest_ptr s d in
  let c := hill_climb generation ind mintrades c in
  let wf := if Qltb (value c) (g_worstf s) then value c else g_worstf s in
  Some (mkGen (<[ind := dest c]> (new_gen s)) (h_best c) (h_grand_best c) wf
              (g_avgf s + value c) (h_draws c) (h_ibest c) (h_n_tweaked c)
              (h_improved c)).

(* ---------------------------------------------------------------- *)
(** *** The main loop (lines 227-485) and the exit (lines 487-506) *)

(** The loop of lines 237-455: children [ind], [ind + 1], ... *)
Fixpoint children (n : nat) (pfuel generation ind : nat) (mintrades : Z)
         (old_gen : list row) (s : gen_state) : option gen_state :=
  match n with
  | O => Some s
  | S n' =>
      s' ← child_step pfuel generation ind mintrades old_gen s;
      children n' pfuel generation (S ind) mintrades old_gen s'
  end.

(** Lines 233-235. *)
Definition start_generation (s : gen_state) : gen_state :=
  mkGen (new_gen s) (g_best s) (g_grand_best s) (inject_Z (10 ^ 60)) 0
        (g_draws s) (ibest s) (n_tweaked s) false.

(** Lines 476-483: the two buffers exchange their roles. *)
Definition swap_buffers (old_gen : list row) (s : gen_state) : list row * gen_state :=
  (new_gen s,
   mkGen old_gen (g_best s) (g_grand_best s) (g_worstf s) (g_avgf s)
         (g_draws s) (ibest s) (n_tweaked s) (improved s)).

(** The loop of lines 231-485.  It has no bound in the source; [fuel]
    bounds the number of generations here, and [pfuel] each of the
    [do ... while] loops. *)
Fixpoint evolve (fuel pfuel generation : nat) (bad_generations : Z) (mintrades : Z)
         (old_gen : list row) (s : gen_state) : option gen_state :=
  match fuel with
  | O => None
  | S fuel' =>
      s ← children popsize pfuel generation 0 mintrades old_gen (start_generation s);
      let bad := if improved s then 0%Z else (bad_generations + 1)%Z in
      if negb (improved s) && (max_bad_gen <? bad)%Z then Some s
      else
        let '(old_gen, s) := swap_buffers old_gen s in
        evolve fuel' pfuel (S generation) bad mintrades old_gen s
  end.

(** Lines 206-229: entering the main loop after initialization. *)
Definition enter_main (s : init_state) : gen_state :=
  mkGen (pop2 s) (best s) (grand_best s) (worstf s) (avgf s) (draws s)
        (find_ibest (pop1 s)) 0 false.

(** [diff_ev]: the return code and the array [params] on return.
    Allocation is taken to succeed. *)
Definition diff_ev (fuel pfuel : nat) : option (Z * row) :=
  match init_loop fuel init_start with
  | None => None
  | Some (Finished s) => Some (0%Z, best s)
  | Some (Next s) =>
      g ← evolve fuel pfuel 1 0 (local_mintrades s) (pop1 s) (enter_main s);
      Some (if paramcor popsize nvars (new_gen g) then (-1)%Z else 0%Z, g_best g)
  end.

End DiffEv.


(* ================================================================== *)
(** ** The legality contract, in the words of the specification *)
(* ================================================================== *)

(** Nearest integer, ties away from zero. *)
Definition round_half_away (x : Q) : Z :=
  if Qle_bool 0 x then Qfloor (x + (1#2)) else (- Qfloor ((1#2) - x))%Z.

(** [n] is a nearest integer of [x], and the one farther from zero when
    there are two. *)
Definition nearest_away (x : Q) (n : Z) : Prop :=
  Qabs (of_int n - x) <= 1#2 /\
  (Qabs (of_int n - x) == 1#2 -> Qabs x < Qabs (of_int n)).

(** Clamp into [lo, hi]. *)
Definition clamp (lo hi y : Q) : Q :=
  if Qltb hi y then hi else if Qltb y lo then lo else y.

(** By how much [y] exceeds [hi] or falls below [lo]. *)
Definition overshoot (lo hi y : Q) : Q :=
  if Qltb hi y then y - hi else if Qltb y lo then lo - y else 0.

Definition Qsum (l : list Q) : Q := fold_right Qplus 0 l.

Section LegalityContract.

Variables nvars nints : nat.
Variables low_bounds high_bounds : list Q.

(** The value of dimension [i] after the rounding step. *)
Definition rounded (i : nat) (x : Q) : Q :=
if (i <? nints)%nat then of_int (round_half_away x) else x.

(** Every dimension lies within its bounds. *)
Definition in_bounds (params : row) : Prop :=
forall i, (i < nvars)%nat ->
low_bounds !!! i <= params !!! i /\ params !!! i <= high_bounds !!! i.

(** The first [nints] dimensions hold whole numbers. *)
Definition ints_whole (params : row) : Prop :=
forall i, (i < nvars)%nat -> (i < nints)%nat -> whole (params !!! i).

(** A penalty accumulated as the loop of [ensure_legal] does it: from zero,
dimension after dimension, each adding 1e10 times its overshoot. *)
Definition penalty_in_order (over : nat -> Q) : Q :=
fold_left (fun acc i => acc + big_penalty * over i) (seq 0 nvars) 0.

(** The penalty as the claim words it: overshoot of the value the
dimension had on entry, before rounding. *)
Definition penalty_before_rounding (params : row) : Q :=
penalty_in_order
  (fun i => overshoot (low_bounds !!! i) (high_bounds !!! i) (params !!! i)).

(** The penalty measured on the rounded value, before clamping. *)
Definition penalty_after_rounding (params : row) : Q :=
penalty_in_order
  (fun i => overshoot (low_bounds !!! i) (high_bounds !!! i)
                      (rounded i (params !!! i))).

End LegalityContract.

(* ================================================================== *)
(** ** Runs of the initialization loop *)
(* ================================================================== *)

(** The states the initialization loop passes through at the top of an
    iteration. *)
Inductive init_reach (E : setup) : init_state -> Prop :=
  | reach_start : init_reach E (init_start E)
  | reach_next (s s' : init_state) :
      init_reach E s ->
      (ind s < popsize E + overinit E)%nat ->
      init_trial E s = Next s' ->
      init_reach E s'.

(** The first [n] iterations of the initialization loop from [s]. *)
Fixpoint init_steps (E : setup) (n : nat) (s : init_state) : flow init_state :=
  match n with
  | O => Next s
  | S n' =>
      match init_trial E s with
      | Next s' => init_steps E n' s'
      | Finished s' => Finished s'
      end
  end.


(** The setup [diff_ev] needs for the properties of its populations: the
    bounds of every dimension are in order, those of the integer dimensions
    are whole numbers, the integer dimensions come first, and [unifrand]
    returns numbers in [0, 1). *)
Record well_formed (E : setup) : Prop := mkWellFormed {
  wf_nints : (nints E <= nvars E)%nat;
  wf_bounds : forall i, (i < nvars E)%nat -> low_bounds E !!! i <= high_bounds E !!! i;
  wf_low_whole : forall i, (i < nints E)%nat -> whole (low_bounds E !!! i);
  wf_high_whole : forall i, (i < nints E)%nat -> whole (high_bounds E !!! i);
  wf_unif : forall n, 0 <= unif E n /\ unif E n < 1
}.

(** A legal candidate: [nvars + 1] entries, every parameter within its
    bounds, whole numbers in the integer dimensions. *)
Definition legal_row (E : setup) (r : row) : Prop :=
  length r = (nvars E + 1)%nat /\
  in_bounds (nvars E) (low_bounds E) (high_bounds E) r /\
  ints_whole (nvars E) (nints E) r.

(** A row of a population buffer has [dim = nvars + 1] entries. *)
Definition row_ok (E : setup) (r : row) : Prop := length r = (nvars E + 1)%nat.

(** The buffers during initialization: both hold [popsize] rows, and the
    members of pop1 written so far are legal candidates. *)
Definition init_inv (E : setup) (s : init_state) : Prop :=
  length (pop1 s) = popsize E /\ length (pop2 s) = popsize E /\
  Forall (row_ok E) (pop1 s) /\ Forall (row_ok E) (pop2 s) /\
  forall i, (i < ind s)%nat -> (i < popsize E)%nat -> legal_row E (pop1 s !!! i).

(** The buffers in the main loop: the parent generation holds [popsize]
    legal candidates, and the new generation has room for as many. *)
Definition gen_inv (E : setup) (old_gen : list row) (s : gen_state) : Prop :=
  length old_gen = popsize E /\ Forall (legal_row E) old_gen /\
  length (new_gen s) = popsize E /\ Forall (row_ok E) (new_gen s).

(** The dimensions of a candidate other than [k] are legal. *)
Definition others_legal (E : setup) (k : nat) (v : row) : Prop :=
  forall i, (i < nvars E)%nat -> i <> k ->
    low_bounds E !!! i <= v !!! i /\ v !!! i <= high_bounds E !!! i /\
    ((i < nints E)%nat -> whole (v !!! i)).

(* ================================================================== *)
(** ** Where the conversions and the rounding are exact *)
(* ================================================================== *)

(** A double of magnitude at most [INT_MAX].  For such an [x] the
    conversions [(int) (x + 0.5)] and [(int) (0.5 - x)] of [ensure_legal]
    have a result in the range of [int], which is where C defines them and
    where [to_int] agrees with them. *)
Definition int_sized (x : Q) : Prop :=
  - of_int INT_MAX <= x /\ x <= of_int INT_MAX.

(** The sum [|x| + 0.5] as binary64 computes it truncates like the exact
    sum.  Among the doubles of magnitude at most [INT_MAX] this fails only
    for the one next below 0.5 in magnitude, [0.5 - 2^-54], whose sum with
    0.5 is rounded to 1; it lies strictly between the two values
    compared with here. *)
Definition half_exact (x : Q) : Prop :=
  Qabs x <= (1#2) - (1 # 9007199254740992) \/ (1#2) <= Qabs x.

(** The integer dimensions of [params] can be rounded as [ensure_legal]
    does it: their conversions are defined and their sums with 0.5 are
    exact. *)
Definition roundable (nvars nints : nat) (params : row) : Prop :=
  forall i, (i < nvars)%nat -> (i < nints)%nat ->
    int_sized (params !!! i) /\ half_exact (params !!! i).

(** The integer dimensions of [params] have magnitude at most
    [INT_MAX]. *)
Definition ints_sized (nvars nints : nat) (params : row) : Prop :=
  forall i, (i < nvars)%nat -> (i < nints)%nat -> int_sized (params !!! i).


(* ================================================================== *)
(** ** Concrete setups *)
(* ================================================================== *)

Module Demo.

(** Maximize [100 - x^2 - y^2] on [-5,5] x [-5,5]. *)
Definition sphere (p : list Q) (_ : Z) : Q :=
100 - (p !!! 0%nat) * (p !!! 0%nat) - (p !!! 1%nat) * (p !!! 1%nat).

(** A fixed sequence of draws in [0,1). *)
Definition cycle (n : nat) : Q :=
inject_Z (Z.of_nat ((n * 7 + n / 3) mod 16)) / 16.

Definition no_search (_ _ : Q) : probe := Done 0.

(** A search that tries two points and settles on the second. *)
Definition two_probes (lower upper : Q) : probe :=
Ask lower (fun _ => Ask upper (fun _ => Done upper)).

Definition no_report (_ _ : nat) (_ : list row) : bool := false.

Definition E : setup :=
mkSetup sphere cycle no_search no_report 0
2 0 4 0 1 1000 0 (4#5) (9#10) 0 [-5; -5] [5; 5].

(** Five real parameters, no crossover by chance. *)
Definition E5 : setup :=
mkSetup (fun p _ => p !!! 0%nat) cycle no_search no_report 0
5 0 4 0 1 1000 0 (4#5) 0 0 [0; 0; 0; 0; 0] [8; 8; 8; 8; 8].

(** One integer parameter in [0, 5]; the criterion is the parameter plus
one, so every step up improves it. *)
Definition Eint : setup :=
mkSetup (fun p _ => p !!! 0%nat + 1) cycle no_search no_report 0
1 1 4 0 1 1000 0 (4#5) (9#10) 1 [0] [5].

(** One integer and one real parameter, with hill climbing. *)
Definition Emix : setup :=
mkSetup (fun p _ => 100 - (p !!! 0%nat) * (p !!! 0%nat) - (p !!! 1%nat) * (p !!! 1%nat))
cycle two_probes no_report 0
2 1 4 1 1 1000 0 (4#5) (9#10) (1#2) [-5; -5] [5; 5].

(** A criterion that is never positive, and differs from trial to trial. *)
Definition Eneg : setup :=
mkSetup (fun p _ => - (p !!! 0%nat) - 1) cycle no_search no_report 0
1 0 4 0 1 1000 0 (4#5) (9#10) 0 [0] [8].

(** A criterion that is always worthless; four trades at least. *)
Definition Ezero : setup :=
mkSetup (fun _ _ => 0) cycle no_search no_report 0
1 0 4 0 4 100000 0 (4#5) (9#10) 0 [0] [8].

(** An evaluation cap of zero and a criterion that is always valid. *)
Definition Ecap : setup :=
mkSetup (fun _ _ => 1) cycle no_search no_report 0
1 0 4 0 1 0 0 (4#5) (9#10) 0 [0] [8].

(** An evaluation cap of two and a worthless criterion. *)
Definition Ecap2 : setup :=
mkSetup (fun _ _ => 0) cycle no_search no_report 0
1 0 4 0 1 2 0 (4#5) (9#10) 0 [0] [8].

(** The state the initialization loop leaves on [Emix], and the state the
main loop leaves after it. *)
Definition Emix_init : init_state :=
Eval vm_compute in
match init_loop Emix 8 (init_start Emix) with
| Some f => flow_state f
| None => init_start Emix
end.

Definition Emix_last : gen_state :=
Eval vm_compute in
match evolve Emix 10 50 1 0 (local_mintrades Emix_init) (pop1 Emix_init)
   (enter_main Emix Emix_init) with
| Some g => g
| None => enter_main Emix Emix_init
end.

(** The state on [Emix] once the first individual has been accepted. *)
Definition Emix_first : init_state :=
Eval vm_compute in flow_state (init_trial Emix (init_start Emix)).

End Demo.


(* ================================================================== *)
(** ** What the rest of the code keeps *)
(* ================================================================== *)

(** The criterion stored in a row of a population. *)
Definition score_of (E : setup) (r : row) : Q := r !!! nvars E.

(** The counters of the initialization loop: fewer than 500 failures in a
    row, a threshold between 1 and the one the caller gave, at least one
    evaluation for every individual accepted, and [nvars] random numbers
    drawn for every evaluation. *)
Definition counters_ok (E : setup) (s : init_state) : Prop :=
  (0 <= failures s < 500)%Z /\
  (1 <= local_mintrades s <= mintrd E)%Z /\
  (Z.of_nat (ind s) <= n_evals s)%Z /\
  (failures s <= n_evals s)%Z /\
  Z.of_nat (draws s) = (Z.of_nat (nvars E) * n_evals s)%Z.

(** [b] is a proper best so far for the score [gb]: a legal candidate
    whose stored criterion is [gb]. *)
Definition best_ok (E : setup) (b : row) (gb : Q) : Prop :=
  score_of E b = gb /\ legal_row E b.

(** The criteria stored during initialization: every member of pop1
    written so far has a positive criterion, which is the criterion of its
    parameters for some threshold and is at most the best so far; once the
    first individual is in, [best] is a legal candidate whose stored
    criterion is [grand_best]. *)
Definition init_scores (E : setup) (s : init_state) : Prop :=
  (forall i, (i < ind s)%nat -> (i < popsize E)%nat ->
     0 < score_of E (pop1 s !!! i) /\
     score_of E (pop1 s !!! i) <= grand_best s /\
     exists mintrades, score_of E (pop1 s !!! i) = evaluate E (pop1 s !!! i) mintrades) /\
  ((1 <= ind s)%nat -> best_ok E (best s) (grand_best s)).


(** The criteria stored in the main loop: every parent has a positive
    criterion, at most the best so far, and [best] is a legal candidate
    whose stored criterion is [grand_best]. *)
Definition gen_scores (E : setup) (old_gen : list row) (s : gen_state) : Prop :=
  (forall i, (i < popsize E)%nat ->
     0 < score_of E (old_gen !!! i) /\ score_of E (old_gen !!! i) <= g_grand_best s) /\
  best_ok E (g_best s) (g_grand_best s).

(** The destination slot between the parts of one pass: a legal candidate
    whose stored criterion is [value], at most the best so far. *)
Definition slot_ok (E : setup) (c : child) : Prop :=
  legal_row E (dest c) /\ score_of E (dest c) = value c /\
  value c <= h_grand_best c /\ best_ok E (h_best c) (h_grand_best c).

Module Small.

(** A population of three: too small for three distinct partners. *)
Definition E3 : setup :=
mkSetup Demo.sphere Demo.cycle Demo.no_search Demo.no_report 0
2 0 3 0 1 1000 0 (4#5) (9#10) 0 [-5; -5] [5; 5].

(** A parent generation of three rows for [E3]. *)
Definition gen3 : list row := [[1; 1; 98]; [2; 2; 92]; [0; 1; 99]].

(** Full crossover: [pcross = 1]. *)
Definition Efull : setup :=
mkSetup Demo.sphere Demo.cycle Demo.no_search Demo.no_report 0
2 0 4 0 1 1000 0 (4#5) 1 0 [-5; -5] [5; 5].

(** The state on [Demo.Emix] when pop1 is full and over-initialization
begins. *)
Definition Emix_full : init_state :=
Eval vm_compute in flow_state (init_steps Demo.Emix 4 (init_start Demo.Emix)).

(** The main loop's state on [Demo.Emix] after the first child of the
first generation. *)
Definition Emix_child : gen_state :=
Eval vm_compute in
match child_step Demo.Emix 50 1 0 (local_mintrades Demo.Emix_init)
             (pop1 Demo.Emix_init)
             (start_generation (enter_main Demo.Emix Demo.Emix_init)) with
| Some g => g
| None => enter_main Demo.Emix Demo.Emix_init
end.

(** One integer parameter whose bounds are not whole numbers; the
criterion falls as the parameter rises. *)
Definition Ehalf : setup :=
mkSetup (fun p _ => 10 - p !!! 0%nat) Demo.cycle Demo.no_search Demo.no_report 0
1 1 4 0 1 1000 0 (4#5) (9#10) 1 [1#2] [11#2].

(** The run on [Ehalf] when its initialization ends, and after the first
child of the first generation. *)
Definition Ehalf_init : init_state :=
Eval vm_compute in
match init_loop Ehalf 8 (init_start Ehalf) with
| Some (Next s) => s
| _ => init_start Ehalf
end.




(** The destination slot of the first child on [Ehalf] after its
selection step: the child was rejected and the slot holds the copy of its
parent, the first member of the initial population. *)
Definition Ehalf_slot : child :=
mkChild [1#2; 19#2] (19#2) [1#2; 19#2] (19#2) 0 0 false 4.

End Small.

(* ================================================================== *)
(** ** Comparisons and conversions *)
(* ================================================================== *)

Lemma Qltb_lt (x y : Q) : Qltb x y = true <-> x < y.
Proof.
  unfold Qltb. rewrite negb_true_iff, <- not_true_iff_false, Qle_bool_iff.
  split; intros H; [apply Qnot_le_lt | apply Qlt_not_le]; exact H.
Qed.

Lemma Qltb_ge (x y : Q) : Qltb x y = false <-> y <= x.
Proof.
  unfold Qltb. rewrite negb_false_iff. apply Qle_bool_iff.
Qed.

Lemma Qle_bool_gt (x y : Q) : Qle_bool x y = false <-> y < x.
Proof.
  rewrite <- not_true_iff_false, Qle_bool_iff.
  split; intros H; [apply Qnot_le_lt | apply Qlt_not_le]; exact H.
Qed.

(** Case analysis on a comparison, leaving the order fact in the context. *)
Ltac cmp x y :=
  let H := fresh "Hcmp" in
  destruct (Qltb x y) eqn:H;
  [apply Qltb_lt in H | apply Qltb_ge in H].

Ltac cmple x y :=
  let H := fresh "Hcmp" in
  destruct (Qle_bool x y) eqn:H;
  [apply Qle_bool_iff in H | apply Qle_bool_gt in H].

Lemma to_int_of_int (z : Z) : to_int (of_int z) = z.
Proof. unfold to_int, of_int; simpl. apply Z.quot_1_r. Qed.

Lemma whole_of_int (z : Z) : whole (of_int z).
Proof. unfold whole. now rewrite to_int_of_int. Qed.

Lemma whole_inv (x : Q) : whole x -> exists z, x = of_int z.
Proof. intros H. exists (to_int x). now symmetry. Qed.

(** Truncation brackets its argument. *)
Lemma to_int_nonneg (x : Q) :
  0 <= x -> of_int (to_int x) <= x /\ x < of_int (to_int x + 1).
Proof.
  destruct x as [n d]. unfold Qle, Qlt, to_int, of_int; simpl. intros Hn.
  assert (0 <= n)%Z by lia.
  pose proof (Z.quot_rem' n (Zpos d)) as Hq.
  pose proof (Z.rem_bound_pos n (Zpos d) ltac:(lia) ltac:(lia)).
  nia.
Qed.

Lemma to_int_nonpos (x : Q) :
  x <= 0 -> of_int (to_int x - 1) < x /\ x <= of_int (to_int x).
Proof.
  destruct x as [n d]. unfold Qle, Qlt, to_int, of_int; simpl. intros Hn.
  assert (n <= 0)%Z by lia.
  pose proof (Z.quot_rem' n (Zpos d)) as Hq.
  pose proof (Z.rem_bound_pos (- n) (Zpos d) ltac:(lia) ltac:(lia)) as Hr.
  rewrite Z.rem_opp_l in Hr by lia.
  nia.
Qed.

Lemma of_int_le (a b : Z) : (a <= b)%Z <-> of_int a <= of_int b.
Proof. unfold of_int. rewrite Zle_Qle. reflexivity. Qed.

Lemma of_int_lt (a b : Z) : (a < b)%Z <-> of_int a < of_int b.
Proof. unfold of_int. rewrite Zlt_Qlt. reflexivity. Qed.

Lemma of_int_plus (a b : Z) : of_int (a + b) = of_int a + of_int b.
Proof. unfold of_int. apply inject_Z_plus. Qed.

Lemma of_int_opp (a : Z) : of_int (- a) = - of_int a.
Proof. unfold of_int. apply inject_Z_opp. Qed.

(** Truncation never moves a number across a whole bound. *)
Lemma to_int_ge (x : Q) (z : Z) : of_int z <= x -> (z <= to_int x)%Z.
Proof.
  intros H. destruct (Qlt_le_dec x 0) as [Hx|Hx].
  - destruct (to_int_nonpos x) as [_ H2]; [lra|].
    apply of_int_le. lra.
  - destruct (to_int_nonneg x Hx) as [_ H2].
    assert (of_int z < of_int (to_int x + 1)) as H3 by lra.
    apply of_int_lt in H3. lia.
Qed.

Lemma to_int_le (x : Q) (z : Z) : x <= of_int z -> (to_int x <= z)%Z.
Proof.
  intros H. destruct (Qlt_le_dec x 0) as [Hx|Hx].
  - destruct (to_int_nonpos x) as [H1 _]; [lra|].
    assert (of_int (to_int x - 1) < of_int z) as H3 by lra.
    apply of_int_lt in H3. lia.
  - destruct (to_int_nonneg x Hx) as [H1 _].
    apply of_int_le. lra.
Qed.

(** Rounding of a whole number, as [ensure_legal] does it, is the identity. *)
Lemma round_whole_nonneg (x : Q) :
  whole x -> 0 <= x -> of_int (to_int (x + (1#2))) = x.
Proof.
  intros Hw Hx. apply whole_inv in Hw as [z ->]. f_equal.
  assert (0 <= z)%Z by (apply of_int_le; exact Hx).
  unfold to_int, of_int; simpl.
  rewrite Z.mul_1_r.
  replace (z * 2 + 1)%Z with (1 + z * 2)%Z by lia.
  rewrite Z.quot_add by lia. reflexivity.
Qed.

Lemma round_whole_neg (x : Q) :
  whole x -> x < 0 -> of_int (- to_int ((1#2) - x)) = x.
Proof.
  intros Hw Hx. apply whole_inv in Hw as [z ->]. f_equal.
  assert (z < 0)%Z by (apply of_int_lt; exact Hx).
  unfold to_int, of_int; simpl.
  replace (1 * 1 + - z * 2)%Z with (1 + (- z) * 2)%Z by lia.
  replace (Z.pos (2 * 1)) with 2%Z by reflexivity.
  rewrite Z.quot_add by lia.
  change (Z.quot 1 2) with 0%Z. lia.
Qed.

Lemma cycle_range (n : nat) : 0 <= Demo.cycle n /\ Demo.cycle n < 1.
Proof.
  unfold Demo.cycle.
  pose proof (Nat.mod_upper_bound (n * 7 + n / 3) 16 ltac:(lia)) as H.
  set (m := ((n * 7 + n / 3) mod 16)%nat) in *.
  unfold Qdiv, Qle, Qlt; simpl. lia.
Qed.


(** Converting a double of magnitude at most [INT_MAX] gives an [int]. *)
Lemma to_int_range (x : Q) : int_sized x -> (INT_MIN <= to_int x <= INT_MAX)%Z.
Proof.
  intros [Hlo Hhi]. rewrite <- of_int_opp in Hlo.
  apply to_int_ge in Hlo. apply to_int_le in Hhi. unfold INT_MIN, INT_MAX in *. lia.
Qed.

(* ================================================================== *)
(** ** ensure_legal, one dimension at a time *)
(* ================================================================== *)

Lemma to_int_floor (y : Q) : 0 <= y -> to_int y = Qfloor y.
Proof.
  destruct y as [n d]. unfold Qle, to_int, Qfloor; simpl. intros H.
  apply Z.quot_div_nonneg; lia.
Qed.

Lemma round_half_away_code (x : Q) :
  (if Qle_bool 0 x then of_int (to_int (x + (1#2)))
   else if Qltb x 0 then of_int (- to_int ((1#2) - x)) else x)
  = of_int (round_half_away x).
Proof.
  unfold round_half_away. cmple 0 x.
  - rewrite to_int_floor by lra. reflexivity.
  - cmp x 0; [|lra]. rewrite to_int_floor by lra. reflexivity.
Qed.

Lemma round_half_away_nearest (x : Q) : nearest_away x (round_half_away x).
Proof.
  unfold nearest_away, round_half_away, of_int. cmple 0 x.
  - pose proof (Qfloor_le (x + (1#2))) as H1.
    pose proof (Qlt_floor (x + (1#2))) as H2.
    rewrite inject_Z_plus in H2. change (inject_Z 1) with 1 in H2.
    assert (0 <= inject_Z (Qfloor (x + (1#2)))) as H0.
    { change 0 with (inject_Z 0). rewrite <- Zle_Qle.
      change 0%Z with (Qfloor 0). apply Qfloor_resp_le. lra. }
    set (f := inject_Z (Qfloor (x + (1#2)))) in *.
    split.
    + apply Qabs_Qle_condition. lra.
    + intros Ht. rewrite (Qabs_pos x), (Qabs_pos f) by lra.
      destruct (Qlt_le_dec x f) as [|Hge]; [assumption|].
      rewrite Qabs_neg in Ht by lra. lra.
  - pose proof (Qfloor_le ((1#2) - x)) as H1.
    pose proof (Qlt_floor ((1#2) - x)) as H2.
    rewrite inject_Z_plus in H2. change (inject_Z 1) with 1 in H2.
    rewrite inject_Z_opp.
    assert (0 <= inject_Z (Qfloor ((1#2) - x))) as H0.
    { change 0 with (inject_Z 0). rewrite <- Zle_Qle.
      change 0%Z with (Qfloor 0). apply Qfloor_resp_le. lra. }
    set (f := inject_Z (Qfloor ((1#2) - x))) in *.
    split.
    + apply Qabs_Qle_condition. lra.
    + intros Ht. rewrite (Qabs_neg x), (Qabs_neg (- f)) by lra.
      destruct (Qlt_le_dec (- x) (- - f)) as [|Hge]; [assumption|].
      rewrite Qabs_pos in Ht by lra. lra.
Qed.

Lemma Qsum_cons (x : Q) (l : list Q) : Qsum (x :: l) = x + Qsum l.
Proof. reflexivity. Qed.

(** Accumulating from the left gives the sum. *)
Lemma fold_left_Qsum (f : nat -> Q) (l : list nat) (a : Q) :
  fold_left (fun acc i => acc + f i) l a == a + Qsum (map f l).
Proof.
  revert a. induction l as [|i l IH]; intros a; cbn [fold_left map].
  - unfold Qsum; simpl. ring.
  - rewrite IH, Qsum_cons. ring.
Qed.

Lemma list_eq_total (l1 l2 : row) :
  length l1 = length l2 ->
  (forall i, (i < length l1)%nat -> l1 !!! i = l2 !!! i) ->
  l1 = l2.
Proof.
  intros Hlen Hi. apply (list_eq_same_length _ _ (length l1)); [congruence|reflexivity|].
  intros i x y Hlt Hx Hy.
  apply list_lookup_total_correct in Hx, Hy. rewrite <- Hx, <- Hy. apply Hi, Hlt.
Qed.

Arguments legal_at : simpl never.

Section LegalityFacts.

Variables nvars nints : nat.
Variables low_bounds high_bounds : list Q.

(** The rounding of lines 529-534 writes [rounded i] of the value. *)
Lemma legal_at_round (i : nat) (v : row) :
  (i < length v)%nat ->
  (if (i <? nints)%nat then
     if Qle_bool 0 (v !!! i)
     then <[i := of_int (to_int (v !!! i + (1#2)))]> v
     else if Qltb (v !!! i) 0
          then <[i := of_int (- to_int ((1#2) - v !!! i))]> v
          else v
   else v) = (<[i := rounded nints i (v !!! i)]> v).
Proof.
  intros Hi. unfold rounded. destruct (i <? nints)%nat.
  - rewrite <- round_half_away_code.
    cmple 0 (v !!! i); [reflexivity|].
    cmp (v !!! i) 0; [reflexivity|lra].
  - symmetry. apply list_insert_id, list_lookup_lookup_total_lt, Hi.
Qed.

(** One pass of the loop body, when the bounds of the dimension are in
    order. *)
Lemma legal_at_spec (i : nat) (p : Q) (v : row) :
  (i < length v)%nat ->
  low_bounds !!! i <= high_bounds !!! i ->
  let y := rounded nints i (v !!! i) in
  snd (legal_at nints low_bounds high_bounds i (p, v))
  = (<[i := clamp (low_bounds !!! i) (high_bounds !!! i) y]> v) /\
  fst (legal_at nints low_bounds high_bounds i (p, v))
  == p + big_penalty * overshoot (low_bounds !!! i) (high_bounds !!! i) y.
Proof.
  intros Hi Hb y. unfold legal_at. cbv zeta. rewrite (legal_at_round i v Hi). fold y.
  rewrite list_lookup_total_insert_eq by exact Hi.
  unfold clamp, overshoot.
  cmp (high_bounds !!! i) y.
  - rewrite list_lookup_total_insert_eq by (rewrite length_insert; exact Hi).
    cmp (high_bounds !!! i) (low_bounds !!! i); [lra|]. simpl.
    rewrite list_insert_insert_eq. split; reflexivity.
  - rewrite list_lookup_total_insert_eq by exact Hi.
    cmp y (low_bounds !!! i); simpl.
    + rewrite list_insert_insert_eq. split; reflexivity.
    + split; [reflexivity|]. ring.
Qed.

(** One pass of the loop body on a dimension that is already legal. *)
Lemma legal_at_noop (i : nat) (p : Q) (v : row) :
  low_bounds !!! i <= v !!! i -> v !!! i <= high_bounds !!! i ->
  ((i < nints)%nat -> whole (v !!! i)) ->
  legal_at nints low_bounds high_bounds i (p, v) = (p, v).
Proof.
  intros Hlo Hhi Hw.
  destruct (Nat.lt_ge_cases i (length v)) as [Hi|Hi].
  - assert ((<[i := v !!! i]> v) = v) as Hid
      by apply list_insert_id, list_lookup_lookup_total_lt, Hi.
    unfold legal_at. destruct (i <? nints)%nat eqn:Hn.
    + apply Nat.ltb_lt in Hn. specialize (Hw Hn).
      cmple 0 (v !!! i).
      * rewrite round_whole_nonneg, Hid by assumption.
        cmp (high_bounds !!! i) (v !!! i); [lra|].
        cmp (v !!! i) (low_bounds !!! i); [lra|]. reflexivity.
      * cmp (v !!! i) 0; [|lra].
        rewrite round_whole_neg, Hid by assumption.
        cmp (high_bounds !!! i) (v !!! i); [lra|].
        cmp (v !!! i) (low_bounds !!! i); [lra|]. reflexivity.
    + cmp (high_bounds !!! i) (v !!! i); [lra|].
      cmp (v !!! i) (low_bounds !!! i); [lra|]. reflexivity.
  - unfold legal_at. rewrite !list_insert_ge by exact Hi.
    destruct (i <? nints)%nat, (Qle_bool 0 (v !!! i)), (Qltb (v !!! i) 0);
      (cmp (high_bounds !!! i) (v !!! i); [lra|]);
      (cmp (v !!! i) (low_bounds !!! i); [lra|]); reflexivity.
Qed.

(** The loop from subscript [a], [n] passes. *)
Lemma legalize_from (n a : nat) (p : Q) (v : row) :
  (a + n <= length v)%nat ->
  (forall i, (a <= i < a + n)%nat -> low_bounds !!! i <= high_bounds !!! i) ->
  let r := fold_left (fun st i => legal_at nints low_bounds high_bounds i st)
                     (seq a n) (p, v) in
  length (snd r) = length v /\
  (forall i, (a <= i < a + n)%nat ->
     snd r !!! i = clamp (low_bounds !!! i) (high_bounds !!! i)
                         (rounded nints i (v !!! i))) /\
  (forall i, ~ (a <= i < a + n)%nat -> snd r !!! i = v !!! i) /\
  fst r == p + Qsum (map (fun i => big_penalty *
                            overshoot (low_bounds !!! i) (high_bounds !!! i)
                                      (rounded nints i (v !!! i)))
                         (seq a n)).
Proof.
  revert a p v. induction n as [|n IH]; intros a p v Hlen Hb; simpl.
  - repeat split; try reflexivity; try (intros; lia).
    unfold Qsum; simpl. ring.
  - destruct (legal_at_spec a p v ltac:(lia) (Hb a ltac:(lia))) as [Hv Hp].
    destruct (legal_at nints low_bounds high_bounds a (p, v)) as [p1 v1] eqn:Hst.
    simpl in Hv, Hp. subst v1.
    set (c := clamp _ _ _) in *.
    destruct (IH (S a) p1 (<[a := c]> v)) as (Hl & Hin & Hout & Hsum).
    { rewrite length_insert. lia. }
    { intros i Hi. apply Hb. lia. }
    rewrite length_insert in Hl.
    repeat split.
    + exact Hl.
    + intros i Hi. destruct (decide (i = a)) as [->|Hne].
      * rewrite Hout by lia. rewrite list_lookup_total_insert_eq by lia. reflexivity.
      * rewrite Hin by lia. rewrite list_lookup_total_insert_ne by congruence.
        reflexivity.
    + intros i Hi. rewrite Hout by lia.
      rewrite list_lookup_total_insert_ne by lia. reflexivity.
    + rewrite Hsum, Hp.
      rewrite (map_ext_in _ (fun i => big_penalty *
                  overshoot (low_bounds !!! i) (high_bounds !!! i)
                            (rounded nints i (v !!! i))) (seq (S a) n)).
      * ring.
      * intros i Hi. apply in_seq in Hi.
        rewrite list_lookup_total_insert_ne by lia. reflexivity.
Qed.

(** A legal vector passes through the loop untouched. *)
Lemma legalize_noop_from (n a : nat) (p : Q) (v : row) :
  (forall i, (a <= i < a + n)%nat ->
     low_bounds !!! i <= v !!! i /\ v !!! i <= high_bounds !!! i /\
     ((i < nints)%nat -> whole (v !!! i))) ->
  fold_left (fun st i => legal_at nints low_bounds high_bounds i st)
            (seq a n) (p, v) = (p, v).
Proof.
  revert a. induction n as [|n IH]; intros a H; simpl; [reflexivity|].
  destruct (H a ltac:(lia)) as (H1 & H2 & H3).
  rewrite legal_at_noop by assumption.
  apply IH. intros i Hi. apply H. lia.
Qed.

End LegalityFacts.

(** Rounding a double of magnitude at most [INT_MAX] gives an [int]. *)
Lemma round_half_away_range (x : Q) :
  int_sized x -> (INT_MIN <= round_half_away x <= INT_MAX)%Z.
Proof.
  intros [Hlo Hhi]. unfold round_half_away, INT_MIN.
  assert (of_int INT_MAX = 2147483647) as HM by reflexivity.
  rewrite HM in Hlo, Hhi. unfold INT_MAX.
  cmple 0 x.
  - pose proof (Qfloor_le (x + (1#2))) as H1.
    pose proof (Qfloor_resp_le 0 (x + (1#2)) ltac:(lra)) as H2.
    change (Qfloor 0) with 0%Z in H2. split; [lia|].
    assert (inject_Z (Qfloor (x + (1#2))) < inject_Z 2147483648) as H3.
    { eapply Qle_lt_trans; [exact H1|]. change (inject_Z 2147483648) with 2147483648. lra. }
    rewrite <- Zlt_Qlt in H3. lia.
  - pose proof (Qfloor_le ((1#2) - x)) as H1.
    pose proof (Qfloor_resp_le 0 ((1#2) - x) ltac:(lra)) as H2.
    change (Qfloor 0) with 0%Z in H2.
    assert (inject_Z (Qfloor ((1#2) - x)) < inject_Z 2147483648) as H3.
    { eapply Qle_lt_trans; [exact H1|]. change (inject_Z 2147483648) with 2147483648. lra. }
    rewrite <- Zlt_Qlt in H3. lia.
Qed.

(* ================================================================== *)
(** ** The legality enforcer: claims C2 and C10 *)
(* ================================================================== *)

(** C2, as stated, fails: with one integer dimension bounded by [0, 5]
    the value 5.25 is first rounded to 5, which is within bounds, so the
    penalty is zero; measured before rounding the overshoot would be 0.25
    and the penalty 2.5e9.  And with bounds given in the wrong order, low 5
    above high 0, the value 3 is set to high and then to low: it ends at 5,
    above high, with a penalty of 8e10 for an overshoot of 3. *)
Lemma ensure_legal_penalty_counterexample :
  (ensure_legal 1 1 [0] [5] [21#4] = (0, [5]) /\
   penalty_before_rounding 1 [0] [5] [21#4] == 2500000000 /\
   ~ fst (ensure_legal 1 1 [0] [5] [21#4])
     == penalty_before_rounding 1 [0] [5] [21#4]) /\
  (snd (ensure_legal 1 0 [5] [0] [3]) = [5] /\
   fst (ensure_legal 1 0 [5] [0] [3]) == 80000000000 /\
   ~ snd (ensure_legal 1 0 [5] [0] [3]) !!! 0%nat <= [0] !!! 0%nat /\
   ~ fst (ensure_legal 1 0 [5] [0] [3])
     == penalty_before_rounding 1 [5] [0] [3]).
Proof.
  split.
  - split; [reflexivity|]. split; [reflexivity|]. discriminate.
  - split; [reflexivity|]. split; [reflexivity|]. split; [|discriminate].
    intros H. vm_compute in H. apply H. reflexivity.
Qed.

(** C2, amended: when [low <= high] in every dimension and the values
    of the first [nints] dimensions can be rounded as the code does it
    (magnitude at most [INT_MAX], so that the conversions to [int] are
    defined, and not the double next below 0.5, whose sum with 0.5 is
    rounded to 1), [ensure_legal] rounds each of the first [nints]
    dimensions to the nearest integer, ties away from zero, then clamps
    every dimension into its bounds, in place; it always returns, touches
    nothing beyond the first [nvars] entries, every value it converts is in
    the range of [int], and the penalty is the sum over the dimensions of
    1e10 times the overshoot of the value after rounding and before
    clamping, accumulated in the order of the loop. *)
Theorem ensure_legal_contract
        (nvars nints : nat) (low_bounds high_bounds params : list Q) :
  (nvars <= length params)%nat ->
  (forall i, (i < nvars)%nat -> low_bounds !!! i <= high_bounds !!! i) ->
  roundable nvars nints params ->
  let r := ensure_legal nvars nints low_bounds high_bounds params in
  length (snd r) = length params /\
  (forall i, (i < nvars)%nat ->
     snd r !!! i = clamp (low_bounds !!! i) (high_bounds !!! i)
                         (rounded nints i (params !!! i)) /\
     low_bounds !!! i <= snd r !!! i /\ snd r !!! i <= high_bounds !!! i) /\
  (forall i, (i < nints)%nat ->
     rounded nints i (params !!! i) = of_int (round_half_away (params !!! i)) /\
     nearest_away (params !!! i) (round_half_away (params !!! i))) /\
  (forall i, (i < nvars)%nat -> (i < nints)%nat ->
     (INT_MIN <= round_half_away (params !!! i) <= INT_MAX)%Z) /\
  (forall i, (nints <= i)%nat -> rounded nints i (params !!! i) = params !!! i) /\
  (forall i, (nvars <= i)%nat -> snd r !!! i = params !!! i) /\
  fst r == penalty_after_rounding nvars nints low_bounds high_bounds params.
Proof.
  intros Hlen Hb Hr r.
  destruct (legalize_from nints low_bounds high_bounds nvars 0 0 params)
    as (Hl & Hin & Hout & Hsum); [lia | intros; apply Hb; lia |].
  fold (ensure_legal nvars nints low_bounds high_bounds params) in Hl, Hin, Hout, Hsum.
  fold r in Hl, Hin, Hout, Hsum.
  split; [exact Hl|]. split; [|split; [|split; [|split; [|split]]]].
  - intros i Hi. rewrite Hin by lia. split; [reflexivity|].
    specialize (Hb i Hi). unfold clamp.
    cmp (high_bounds !!! i) (rounded nints i (params !!! i)); [lra|].
    cmp (rounded nints i (params !!! i)) (low_bounds !!! i); lra.
  - intros i Hi. unfold rounded. apply Nat.ltb_lt in Hi. rewrite Hi.
    split; [reflexivity | apply round_half_away_nearest].
  - intros i Hi Hn. apply round_half_away_range, (Hr i Hi Hn).
  - intros i Hi. unfold rounded. apply Nat.ltb_ge in Hi. rewrite Hi. reflexivity.
  - intros i Hi. apply Hout. lia.
  - rewrite Hsum. unfold penalty_after_rounding, penalty_in_order.
    rewrite (fold_left_Qsum
               (fun i => big_penalty *
                         overshoot (low_bounds !!! i) (high_bounds !!! i)
                                   (rounded nints i (params !!! i)))).
    reflexivity.
Qed.

Lemma ensure_legal_contract_witness :
  fst (ensure_legal 2 1 [0; 0] [5; 5] [21#4; -(1#4)])
  == penalty_after_rounding 2 1 [0; 0] [5; 5] [21#4; -(1#4)].
Proof.
  apply (ensure_legal_contract 2 1 [0; 0] [5; 5] [21#4; -(1#4)]).
  - simpl. lia.
  - intros i Hi. destruct i as [|[|i]]; [discriminate | discriminate | simpl in Hi; lia].
  - intros i Hi Hn. destruct i as [|i]; [|lia].
    split; [split; discriminate | right; discriminate].
Defined.

(** C10, as stated, fails: 2.5 lies within [0, 5], but in an integer
    dimension it is rounded to 3. *)
Lemma ensure_legal_inbounds_counterexample :
  in_bounds 1 [0] [5] [5#2] /\
  ensure_legal 1 1 [0] [5] [5#2] = (0, [3]) /\
  ensure_legal 1 1 [0] [5] [5#2] <> (0, [5#2]).
Proof.
  split; [|split; [reflexivity | discriminate]].
  intros i Hi. destruct i as [|i]; [|simpl in Hi; lia].
  split; discriminate.
Qed.

(** C10, amended: on a vector whose dimensions all lie within their bounds
    and whose first [nints] dimensions hold whole numbers of magnitude at
    most [INT_MAX], [ensure_legal] returns a penalty of exactly zero and
    leaves the vector as it is; the values it converts are in the range of
    [int]. *)
Theorem ensure_legal_noop
        (nvars nints : nat) (low_bounds high_bounds params : list Q) :
  in_bounds nvars low_bounds high_bounds params ->
  ints_whole nvars nints params ->
  ints_sized nvars nints params ->
  ensure_legal nvars nints low_bounds high_bounds params = (0, params) /\
  forall i, (i < nvars)%nat -> (i < nints)%nat ->
    (INT_MIN <= round_half_away (params !!! i) <= INT_MAX)%Z.
Proof.
  intros Hb Hw Hs. split.
  - unfold ensure_legal. apply legalize_noop_from.
    intros i Hi. destruct (Hb i ltac:(lia)) as [H1 H2].
    repeat split; try assumption. intros Hn. apply Hw; [lia|exact Hn].
  - intros i Hi Hn. apply round_half_away_range, (Hs i Hi Hn).
Qed.

Lemma ensure_legal_noop_witness :
  ensure_legal 2 1 [0; 0] [5; 5] [3; 5#2] = (0, [3; 5#2]).
Proof.
  apply (ensure_legal_noop 2 1 [0; 0] [5; 5] [3; 5#2]).
  - intros i Hi. destruct i as [|[|i]]; [| |simpl in Hi; lia]; split; discriminate.
  - intros i Hi Hn. destruct i as [|i]; [reflexivity | lia].
  - intros i Hi Hn. destruct i as [|i]; [split; discriminate | lia].
Defined.

(* ================================================================== *)
(** ** Selection: claim C3 *)
(* ================================================================== *)

Lemma update_best_dest (E : setup) (ind : nat) (c : child) :
  dest (update_best ind c) = dest c /\ value (update_best ind c) = value c.
Proof. unfold update_best. destruct (Qltb _ _); split; reflexivity. Qed.

Lemma selection_dest (E : setup) (ind : nat) (mintrades : Z)
      (parent1 dest_ptr : row) (s : gen_state) (d : nat) :
  dest (selection E ind mintrades parent1 dest_ptr s d)
  = fst (select_child E parent1 dest_ptr (evaluate E dest_ptr mintrades)) /\
  value (selection E ind mintrades parent1 dest_ptr s d)
  = snd (select_child E parent1 dest_ptr (evaluate E dest_ptr mintrades)).
Proof.
  unfold selection.
  destruct (select_child E parent1 dest_ptr _) as [dp v'].
  destruct (Qltb _ _); [apply (update_best_dest E)|split; reflexivity].
Qed.

(** C3: for the child built in the destination slot [dest_ptr] of the new
    generation and its parent [parent1 = old_gen[ind]], after the selection
    step the slot holds the child with its score stored, exactly when the
    child's score is strictly greater than the parent's stored score, and
    otherwise a full copy of the parent, parameters and score; either way
    the slot's score is at least the parent's. *)
Theorem selection_keeps_child_or_parent
        (E : setup) (ind : nat) (mintrades : Z)
        (parent1 dest_ptr : row) (s : gen_state) (d : nat) :
  (nvars E < length dest_ptr)%nat ->
  let score := evaluate E dest_ptr mintrades in
  let slot := dest (selection E ind mintrades parent1 dest_ptr s d) in
  (parent1 !!! nvars E < score ->
     slot = <[nvars E := score]> dest_ptr /\
     take (nvars E) slot = take (nvars E) dest_ptr /\
     slot !!! nvars E = score) /\
  (~ parent1 !!! nvars E < score -> slot = parent1) /\
  parent1 !!! nvars E <= slot !!! nvars E.
Proof.
  intros Hlen score slot.
  destruct (selection_dest E ind mintrades parent1 dest_ptr s d) as [Hd _].
  fold slot score in Hd. unfold select_child in Hd.
  cmp (parent1 !!! nvars E) score; simpl in Hd; rewrite Hd.
  - split; [|split].
    + intros _. split; [reflexivity|]. split.
      * rewrite take_insert_ge by lia. reflexivity.
      * apply list_lookup_total_insert_eq, Hlen.
    + intros H. exfalso. apply H, Hcmp.
    + rewrite list_lookup_total_insert_eq by exact Hlen. lra.
  - split; [|split].
    + intros H. exfalso. lra.
    + intros _. reflexivity.
    + lra.
Qed.

Lemma selection_keeps_child_or_parent_witness :
  [3; 4; 7] !!! 2%nat
  <= dest (selection Demo.E 0 1 [3; 4; 7] [1; 0; 0]
                     (enter_main Demo.E (init_start Demo.E)) 0) !!! 2%nat.
Proof.
  assert (H : (nvars Demo.E < length [1; 0; 0])%nat) by (simpl; lia).
  exact (proj2 (proj2 (selection_keeps_child_or_parent Demo.E 0 1 [3; 4; 7] [1; 0; 0]
                         (enter_main Demo.E (init_start Demo.E)) 0 H))).
Defined.

(* ================================================================== *)
(** ** Crossover: claim C4 *)
(* ================================================================== *)

Lemma rot_small (n j s : nat) : (j < n)%nat -> (0 < s < n)%nat -> ((j + s) mod n)%nat <> j.
Proof.
  intros Hj Hs. destruct (Nat.lt_ge_cases (j + s) n) as [H|H].
  - rewrite Nat.mod_small by exact H. lia.
  - replace (j + s)%nat with ((j + s - n) + 1 * n)%nat by lia.
    rewrite Nat.Div0.mod_add, Nat.mod_small by lia. lia.
Qed.

Lemma rot_next (n j t : nat) : (((j + 1) mod n + t) mod n = (j + S t) mod n)%nat.
Proof.
  rewrite Nat.Div0.add_mod_idemp_l. f_equal. lia.
Qed.

Section Crossover.

Variable E : setup.
Variables parent1 parent2 diff1 diff2 : row.

Lemma cross_loop_length (i1 j : nat) (used : bool) (dest_ptr : row) (d : nat) :
  length (fst (fst (cross_loop E i1 parent1 parent2 diff1 diff2 j used dest_ptr d)))
  = length dest_ptr.
Proof.
  revert j used dest_ptr d. induction i1 as [|i IH]; intros; simpl; [reflexivity|].
  destruct (_ && _); [|destruct (Qltb _ _)]; rewrite IH; apply length_insert.
Qed.

(** A subscript the rotation no longer visits keeps what it holds. *)
Lemma cross_loop_frame (i1 j : nat) (used : bool) (dest_ptr : row) (d x : nat) :
  (j < nvars E)%nat ->
  (forall t, (t < i1)%nat -> x <> ((j + t) mod nvars E)%nat) ->
  fst (fst (cross_loop E i1 parent1 parent2 diff1 diff2 j used dest_ptr d)) !!! x
  = dest_ptr !!! x.
Proof.
  revert j used dest_ptr d. induction i1 as [|i IH]; intros j used dest_ptr d Hj Hx;
    simpl; [reflexivity|].
  assert (x <> j) as Hne.
  { specialize (Hx 0%nat ltac:(lia)). rewrite Nat.add_0_r, Nat.mod_small in Hx; lia. }
  assert (forall t, (t < i)%nat -> x <> (((j + 1) mod nvars E + t) mod nvars E)%nat) as Hx'.
  { intros t Ht. rewrite rot_next. apply Hx. lia. }
  assert ((j + 1) mod nvars E < nvars E)%nat as Hj' by (apply Nat.mod_upper_bound; lia).
  destruct (_ && _); [|destruct (Qltb _ _)]; rewrite IH by assumption;
    apply list_lookup_total_insert_ne; congruence.
Qed.

(** Once a mutated parameter has been used, the flag stays set. *)
Lemma cross_loop_flag (i1 j : nat) (dest_ptr : row) (d : nat) :
  snd (fst (cross_loop E i1 parent1 parent2 diff1 diff2 j true dest_ptr d)) = true.
Proof.
  revert j dest_ptr d. induction i1 as [|i IH]; intros; simpl; [reflexivity|].
  rewrite andb_false_r. destruct (Qltb _ _); apply IH.
Qed.

(** The loop uses a mutated parameter on one of the subscripts it visits. *)
Lemma cross_loop_mutates (i1 j : nat) (dest_ptr : row) (d : nat) :
  (1 <= i1 <= nvars E)%nat -> (j < nvars E)%nat -> (nvars E <= length dest_ptr)%nat ->
  let r := cross_loop E i1 parent1 parent2 diff1 diff2 j false dest_ptr d in
  snd (fst r) = true /\
  exists t, (t < i1)%nat /\
    fst (fst r) !!! ((j + t) mod nvars E)%nat
    = mutated E parent2 diff1 diff2 ((j + t) mod nvars E)%nat.
Proof.
  revert j dest_ptr d. induction i1 as [|i IH]; intros j dest_ptr d Hi Hj Hlen; [lia|].
  assert ((j + 1) mod nvars E < nvars E)%nat as Hj' by (apply Nat.mod_upper_bound; lia).
  assert (forall v : row, length v = length dest_ptr -> forall u dd,
            fst (fst (cross_loop E i parent1 parent2 diff1 diff2 ((j + 1) mod nvars E) u
                                 (<[j := mutated E parent2 diff1 diff2 j]> v) dd))
            !!! ((j + 0) mod nvars E)%nat
            = mutated E parent2 diff1 diff2 ((j + 0) mod nvars E)%nat) as Hhere.
  { intros v Hv u dd. rewrite Nat.add_0_r, Nat.mod_small by lia.
    rewrite cross_loop_frame.
    - apply list_lookup_total_insert_eq. lia.
    - exact Hj'.
    - intros t Ht. rewrite rot_next. intros Heq. symmetry in Heq.
      revert Heq. apply rot_small; lia. }
  simpl. destruct (_ && _) eqn:Hforce; simpl.
  - split; [apply cross_loop_flag|]. exists 0%nat. split; [lia|]. apply Hhere. reflexivity.
  - destruct (Qltb _ _); simpl.
    + split; [apply cross_loop_flag|]. exists 0%nat. split; [lia|]. apply Hhere. reflexivity.
    + assert (i <> 0)%nat as Hi0.
      { intros ->. simpl in Hforce. discriminate. }
      destruct (IH ((j + 1) mod nvars E)%nat (<[j := parent1 !!! j]> dest_ptr) (S d))
        as (Hflag & t & Ht & Hm); [lia | exact Hj' | rewrite length_insert; lia |].
      split; [exact Hflag|]. exists (S t). split; [lia|].
      rewrite rot_next in Hm. exact Hm.
Qed.

Lemma cross_loop_step (i j : nat) (used : bool) (dest_ptr : row) (d : nat) :
  cross_loop E (S i) parent1 parent2 diff1 diff2 j used dest_ptr d
  = let forced := (i =? 0)%nat && negb used in
    let mutate := if forced then true else Qltb (unif E d) (pcross E) in
    cross_loop E i parent1 parent2 diff1 diff2 ((j + 1) mod nvars E) (used || mutate)
               (if mutate then <[j := mutated E parent2 diff1 diff2 j]> dest_ptr
                else <[j := parent1 !!! j]> dest_ptr)
               (if forced then d else S d).
Proof. simpl. destruct (_ && _); reflexivity. Qed.

(** With [pcross = 0] only the last subscript visited is mutated. *)
Lemma cross_loop_pcross0 (i1 j : nat) (dest_ptr : row) (d : nat) :
  (forall n, 0 <= unif E n) -> pcross E <= 0 ->
  (1 <= i1 <= nvars E)%nat -> (j < nvars E)%nat -> (nvars E <= length dest_ptr)%nat ->
  let r := cross_loop E i1 parent1 parent2 diff1 diff2 j false dest_ptr d in
  fst (fst r) !!! ((j + (i1 - 1)) mod nvars E)%nat
  = mutated E parent2 diff1 diff2 ((j + (i1 - 1)) mod nvars E)%nat /\
  forall t, (t < i1 - 1)%nat ->
    fst (fst r) !!! ((j + t) mod nvars E)%nat = parent1 !!! ((j + t) mod nvars E)%nat.
Proof.
  intros Hu Hp. revert j dest_ptr d.
  induction i1 as [|i IH]; intros j dest_ptr d Hi Hj Hlen; [lia|].
  assert ((j + 1) mod nvars E < nvars E)%nat as Hj' by (apply Nat.mod_upper_bound; lia).
  cbv zeta. rewrite cross_loop_step. cbv zeta.
  replace (S i - 1)%nat with i by lia.
  destruct i as [|i].
  - simpl. rewrite Nat.add_0_r, Nat.mod_small by lia. split; [|intros; lia].
    apply list_lookup_total_insert_eq. lia.
  - change ((S i =? 0)%nat && negb false) with false. cbv iota.
    assert (Qltb (unif E d) (pcross E) = false) as ->.
    { apply Qltb_ge. specialize (Hu d). lra. }
    cbv iota. change (false || false) with false.
    destruct (IH ((j + 1) mod nvars E)%nat (<[j := parent1 !!! j]> dest_ptr) (S d))
      as (Hlast & Hrest); [lia | exact Hj' | rewrite length_insert; lia |].
    replace (S i - 1)%nat with i in Hlast, Hrest by lia.
    rewrite rot_next in Hlast. split; [exact Hlast|].
    intros t Ht. destruct t as [|t].
    + rewrite Nat.add_0_r, Nat.mod_small by lia.
      rewrite cross_loop_frame.
      * apply list_lookup_total_insert_eq. lia.
      * exact Hj'.
      * intros t Ht'. rewrite rot_next. intros Heq. symmetry in Heq.
        revert Heq. apply rot_small; lia.
    + rewrite <- rot_next. apply Hrest. lia.
Qed.

End Crossover.

Lemma pick_start_lt (E : setup) (fuel d j d' : nat) :
  (1 <= nvars E)%nat -> pick_start E fuel d = Some (j, d') -> (j < nvars E)%nat.
Proof.
  intros Hn. revert d. induction fuel as [|fuel IH]; intros d; simpl; [discriminate|].
  destruct (Z.leb_spec (Z.of_nat (nvars E))
                       (to_int (unif E d * of_int (Z.of_nat (nvars E))))) as [H|H].
  - apply IH.
  - intros [= <- <-]. lia.
Qed.

(** C4: every crossover sets at least one dimension of the child from the
    mutated expression [parent2[d] + mutate_dev * (diff1[d] - diff2[d])]:
    the flag [used_mutated_parameter] is set when the loop ends, whatever
    the random draws.  With [pcross = 0] and [nvars = 5] exactly one
    dimension, the last one visited in the rotation from the random start
    [j], takes the mutated value and the other four are copied from
    [parent1]. *)
Theorem crossover_uses_mutated_parameter
        (E : setup) (parent1 parent2 diff1 diff2 dest_ptr : row)
        (fuel d0 j d : nat) :
  (1 <= nvars E)%nat ->
  (nvars E <= length dest_ptr)%nat ->
  pick_start E fuel d0 = Some (j, d) ->
  let r := crossover E parent1 parent2 diff1 diff2 j dest_ptr d in
  let child := fst (fst r) in
  (j < nvars E)%nat /\
  snd (fst r) = true /\
  (exists i, (i < nvars E)%nat /\ child !!! i = parent2 !!! i + mutate_dev E * (diff1 !!! i - diff2 !!! i)) /\
  (nvars E = 5%nat -> pcross E == 0 -> (forall n, 0 <= unif E n) ->
   let last := ((j + 4) mod 5)%nat in
   child !!! last = parent2 !!! last + mutate_dev E * (diff1 !!! last - diff2 !!! last) /\
   forall i, (i < 5)%nat -> i <> last -> child !!! i = parent1 !!! i).
Proof.
  intros Hn Hlen Hpick r child.
  pose proof (pick_start_lt E fuel d0 j d Hn Hpick) as Hj.
  destruct (cross_loop_mutates E parent1 parent2 diff1 diff2 (nvars E) j dest_ptr d)
    as (Hflag & t & Ht & Hm); [lia | exact Hj | exact Hlen |].
  split; [exact Hj|]. split; [exact Hflag|]. split.
  - exists ((j + t) mod nvars E)%nat. split; [apply Nat.mod_upper_bound; lia | exact Hm].
  - intros H5 Hp Hu last.
    destruct (cross_loop_pcross0 E parent1 parent2 diff1 diff2 (nvars E) j dest_ptr d)
      as (Hlast & Hrest); [exact Hu | lra | lia | exact Hj | exact Hlen |].
    fold (crossover E parent1 parent2 diff1 diff2 j dest_ptr d) in Hlast, Hrest.
    fold r in Hlast, Hrest. fold child in Hlast, Hrest.
    rewrite H5 in Hlast, Hrest. simpl (5 - 1)%nat in Hlast, Hrest. fold last in Hlast.
    split; [exact Hlast|].
    intros i Hi Hne.
    assert (exists t, (t < 4)%nat /\ i = ((j + t) mod 5)%nat) as (t' & Ht' & ->).
    { exists ((i + 5 - j) mod 5)%nat. rewrite H5 in Hj. unfold last in Hne.
      destruct j as [|[|[|[|[|j]]]]]; [| | | | |lia];
        destruct i as [|[|[|[|[|i]]]]]; try lia;
          try (exfalso; apply Hne; reflexivity);
          simpl; (split; [lia | reflexivity]). }
    apply Hrest, Ht'.
Qed.

Lemma E5_start : pick_start Demo.E5 10 3 = Some (1%nat, 4%nat).
Proof. vm_compute. reflexivity. Qed.

Lemma E5_draws_nonneg (n : nat) : 0 <= unif Demo.E5 n.
Proof. apply cycle_range. Qed.

Lemma crossover_uses_mutated_parameter_witness :
  let r := crossover Demo.E5 [1; 2; 3; 4; 5; 9] [11; 12; 13; 14; 15; 9]
                     [6; 6; 6; 6; 6; 0] [1; 1; 1; 1; 1; 0] 1 [0; 0; 0; 0; 0; 0] 4 in
  snd (fst r) = true /\
  fst (fst r) !!! 0%nat
  = [11; 12; 13; 14; 15; 9] !!! 0%nat
    + mutate_dev Demo.E5 * ([6; 6; 6; 6; 6; 0] !!! 0%nat - [1; 1; 1; 1; 1; 0] !!! 0%nat) /\
  forall i, (i < 5)%nat -> i <> 0%nat -> fst (fst r) !!! i = [1; 2; 3; 4; 5; 9] !!! i.
Proof.
  intros r.
  destruct (crossover_uses_mutated_parameter Demo.E5
              [1; 2; 3; 4; 5; 9] [11; 12; 13; 14; 15; 9]
              [6; 6; 6; 6; 6; 0] [1; 1; 1; 1; 1; 0] [0; 0; 0; 0; 0; 0] 10 3 1 4)
    as (_ & Hflag & _ & Hlast); [simpl; lia | simpl; lia | exact E5_start |].
  split; [exact Hflag|].
  apply Hlast; [reflexivity | reflexivity | exact E5_draws_nonneg].
Defined.

(* ================================================================== *)
(** ** The initialization loop: claims C7 and C9 *)
(* ================================================================== *)

Lemma wrap32_small (z : Z) : (INT_MIN <= z <= INT_MAX)%Z -> wrap32 z = z.
Proof.
  unfold INT_MIN, INT_MAX, wrap32. intros H.
  rewrite Z.mod_small by lia. lia.
Qed.

Lemma reduce_mintrades_floor (t : Z) :
  (INT_MIN <= t * 9 <= INT_MAX)%Z ->
  reduce_mintrades t = Z.max 1 (t * 9 / 10).
Proof.
  intros H. unfold reduce_mintrades. rewrite wrap32_small by exact H.
  destruct (Z.le_gt_cases 0 (t * 9)) as [Hp|Hn].
  - rewrite Z.quot_div_nonneg by lia.
    destruct (Z.ltb_spec (t * 9 / 10) 1); lia.
  - assert (Z.quot (t * 9) 10 <= 0)%Z.
    { rewrite <- (Z.opp_involutive (t * 9)), Z.quot_opp_l by lia.
      pose proof (Z.quot_pos (- (t * 9)) 10 ltac:(lia) ltac:(lia)). lia. }
    assert (t * 9 / 10 < 0)%Z by (apply Z.div_lt_upper_bound; lia).
    destruct (Z.ltb_spec (Z.quot (t * 9) 10) 1); lia.
Qed.

(** The trial of a worthless candidate once the cap is passed. *)
Lemma init_trial_abort (E : setup) (s : init_state) :
  trial_value E s <= 0 -> (max_evals E < n_evals s + 1)%Z ->
  exists s', init_trial E s = Finished s' /\
             ind s' = ind s /\ (ind s <> 0%nat -> best s' = best s) /\
             n_evals s' = (n_evals s + 1)%Z.
Proof.
  intros Hv Hn. unfold init_trial. cbv zeta.
  apply Qle_bool_iff in Hv. rewrite Hv.
  apply Z.ltb_lt in Hn. rewrite Hn.
  eexists. split; [reflexivity|]. simpl. split; [reflexivity|]. split; [|reflexivity].
  intros H0. apply Nat.eqb_neq in H0. rewrite H0. reflexivity.
Qed.

(** A valid trial never jumps to [FINISHED]. *)
Lemma init_trial_valid (E : setup) (s : init_state) :
  0 < trial_value E s ->
  exists s', init_trial E s = Next s' /\ ind s' = S (ind s) /\
             n_evals s' = (n_evals s + 1)%Z.
Proof.
  intros Hv. unfold init_trial. cbv zeta.
  apply Qle_bool_gt in Hv. rewrite Hv.
  destruct (if Qltb _ _ then _ else _) as [bst gb].
  destruct (popsize E <=? ind s)%nat.
  - destruct (fold_left _ _ _) as [[af minptr] wf].
    destruct (Qltb wf _); eexists; (split; [reflexivity|]); split; reflexivity.
  - eexists; (split; [reflexivity|]); split; reflexivity.
Qed.

Lemma init_loop_finished (E : setup) (fuel : nat) (s s' : init_state) :
  (ind s < popsize E + overinit E)%nat ->
  init_trial E s = Finished s' ->
  init_loop E (S fuel) s = Some (Finished s').
Proof.
  intros Hi Ht. simpl. apply Nat.ltb_lt in Hi. rewrite Hi, Ht. reflexivity.
Qed.

(** The loop from the start passes through every reachable state. *)
Lemma init_loop_reach (E : setup) (s : init_state) :
  init_reach E s ->
  exists k, forall fuel, init_loop E (k + fuel) (init_start E) = init_loop E fuel s.
Proof.
  induction 1 as [|s s' _ [k IH] Hi Ht].
  - exists 0%nat. reflexivity.
  - exists (S k). intros fuel.
    replace (S k + fuel)%nat with (k + S fuel)%nat by lia. rewrite IH.
    simpl. apply Nat.ltb_lt in Hi. rewrite Hi, Ht. reflexivity.
Qed.

(** C7, as stated, fails: with a cap of zero evaluations the first trial
    already exceeds it, but its criterion is valid, so nothing is aborted:
    the loop goes on and completes the initial population of four with
    four evaluations. *)
Lemma init_cap_counterexample :
  max_evals Demo.Ecap = 0%Z /\
  exists s1 s4,
    init_trial Demo.Ecap (init_start Demo.Ecap) = Next s1 /\
    n_evals s1 = 1%Z /\ (max_evals Demo.Ecap < n_evals s1)%Z /\
    init_loop Demo.Ecap 4 (init_start Demo.Ecap) = Some (Next s4) /\
    ind s4 = (popsize Demo.Ecap + overinit Demo.Ecap)%nat /\ n_evals s4 = 4%Z.
Proof.
  split; [reflexivity|]. eexists. eexists.
  split; [vm_compute; reflexivity|].
  split; [reflexivity|]. split; [reflexivity|].
  split; [vm_compute; reflexivity|].
  split; reflexivity.
Qed.

(** C7, amended: whenever, during initialization, a trial is worthless
    (its criterion is not positive) and the number of evaluations made,
    this one included, exceeds [max_evals], control jumps to [FINISHED]:
    the run returns the code 0 and the best-so-far array, which is the one
    held before the trial unless the trial is the very first individual.
    The count [n_evals] is an [int]: it is below [INT_MAX] before the
    trial, so that counting the trial does not overflow it. *)
Theorem init_abort_on_worthless_trial_past_cap (E : setup) (s : init_state) :
  init_reach E s ->
  (ind s < popsize E + overinit E)%nat ->
  trial_value E s <= 0 ->
  (n_evals s < INT_MAX)%Z ->
  (max_evals E < n_evals s + 1)%Z ->
  exists s',
    init_trial E s = Finished s' /\
    (n_evals s' = n_evals s + 1 /\ n_evals s' <= INT_MAX)%Z /\
    (ind s <> 0%nat -> best s' = best s) /\
    exists fuel0, forall fuel pfuel,
        (fuel0 <= fuel)%nat -> diff_ev E fuel pfuel = Some (0%Z, best s').
Proof.
  intros Hr Hi Hv Hmax Hn.
  destruct (init_trial_abort E s Hv Hn) as (s' & Ht & _ & Hb & Hev).
  exists s'. split; [exact Ht|]. split; [lia|]. split; [exact Hb|].
  destruct (init_loop_reach E s Hr) as [k Hk].
  exists (k + 1)%nat. intros fuel pfuel Hf. unfold diff_ev.
  replace fuel with (k + S (fuel - k - 1))%nat by lia.
  rewrite Hk, (init_loop_finished E _ s s' Hi Ht). reflexivity.
Qed.

Lemma init_abort_on_worthless_trial_past_cap_witness :
  exists s',
    init_trial Demo.Ecap2 (flow_state (init_steps Demo.Ecap2 2 (init_start Demo.Ecap2)))
    = Finished s' /\
    exists fuel0, forall fuel pfuel,
        (fuel0 <= fuel)%nat -> diff_ev Demo.Ecap2 fuel pfuel = Some (0%Z, best s').
Proof.
  assert (init_reach Demo.Ecap2
            (flow_state (init_steps Demo.Ecap2 2 (init_start Demo.Ecap2)))) as Hr.
  { eapply reach_next; [eapply reach_next; [apply reach_start| |]| |];
      try reflexivity; vm_compute; lia. }
  destruct (init_abort_on_worthless_trial_past_cap Demo.Ecap2 _ Hr)
    as (s' & Ht & _ & _ & Hrun);
    [vm_compute; lia | vm_compute; discriminate | vm_compute; reflexivity
     | vm_compute; reflexivity |].
  exists s'. split; [exact Ht | exact Hrun].
Defined.

(** Every iteration counts one evaluation. *)
Lemma init_trial_count (E : setup) (s : init_state) :
  n_evals (flow_state (init_trial E s)) = (n_evals s + 1)%Z.
Proof.
  unfold init_trial. cbv zeta.
  destruct (Qle_bool _ 0).
  - destruct (_ <? _)%Z; [|destruct (_ <=? _)%Z]; reflexivity.
  - destruct (if Qltb _ _ then _ else _) as [bst gb].
    destruct (_ <=? _)%nat; [|reflexivity].
    destruct (fold_left _ _ _) as [[af minptr] wf].
    destruct (Qltb wf _); reflexivity.
Qed.







(* ================================================================== *)
(** ** Hill climbing: claims C8 and C1 *)
(* ================================================================== *)

Section LegalityFrame.

Variables nvars nints : nat.
Variables low_bounds high_bounds : list Q.

(** A pass of the loop body of [ensure_legal] only writes its own
    subscript. *)
Lemma legal_at_frame (i j : nat) (st : Q * row) :
  length (snd (legal_at nints low_bounds high_bounds i st)) = length (snd st) /\
  (j <> i -> snd (legal_at nints low_bounds high_bounds i st) !!! j = snd st !!! j).
Proof.
  destruct st as [p v]. unfold legal_at. cbv zeta.
  destruct (i <? nints)%nat; [destruct (Qle_bool _ _); [|destruct (Qltb _ 0)]|];
    (destruct (Qltb (high_bounds !!! i) _); cbv iota beta;
     destruct (Qltb _ (low_bounds !!! i)); simpl;
     (split; [rewrite ?length_insert; reflexivity
             | intros Hne; rewrite ?list_lookup_total_insert_ne by congruence;
               reflexivity])).
Qed.

(** [ensure_legal] leaves the legal dimensions as they are, whatever it
    does to dimension [k]. *)
Lemma legalize_frame_from (n a k : nat) (p : Q) (v : row) :
  (forall i, (a <= i < a + n)%nat -> i <> k ->
     low_bounds !!! i <= v !!! i /\ v !!! i <= high_bounds !!! i /\
     ((i < nints)%nat -> whole (v !!! i))) ->
  let r := fold_left (fun st i => legal_at nints low_bounds high_bounds i st)
                     (seq a n) (p, v) in
  length (snd r) = length v /\ forall i, i <> k -> snd r !!! i = v !!! i.
Proof.
  revert a p v. induction n as [|n IH]; intros a p v H; simpl; [split; reflexivity|].
  destruct (decide (a = k)) as [->|Hak].
  - destruct (legal_at_frame k k (p, v)) as [Hl _].
    destruct (legal_at nints low_bounds high_bounds k (p, v)) as [p1 v1] eqn:Hst.
    simpl in Hl.
    assert (forall i, i <> k -> v1 !!! i = v !!! i) as Hf.
    { intros i Hi. destruct (legal_at_frame k i (p, v)) as [_ Hf].
      rewrite Hst in Hf. apply Hf, Hi. }
    destruct (IH (S k) p1 v1) as [Hl' Hf'].
    { intros i Hi Hne. rewrite Hf by exact Hne. apply H; [lia|exact Hne]. }
    split; [congruence|]. intros i Hi. rewrite Hf' by exact Hi. apply Hf, Hi.
  - destruct (H a ltac:(lia) Hak) as (H1 & H2 & H3).
    rewrite legal_at_noop by assumption.
    apply IH. intros i Hi. apply H. lia.
Qed.

End LegalityFrame.

Section HillClimbing.

Variable E : setup.

Lemma legalize_frame (k : nat) (v : row) :
  (forall i, (i < nvars E)%nat -> i <> k ->
     low_bounds E !!! i <= v !!! i /\ v !!! i <= high_bounds E !!! i /\
     ((i < nints E)%nat -> whole (v !!! i))) ->
  let r := ensure_legal (nvars E) (nints E) (low_bounds E) (high_bounds E) v in
  length (snd r) = length v /\ forall i, i <> k -> snd r !!! i = v !!! i.
Proof.
  intros H. apply legalize_frame_from. intros i Hi. apply H. lia.
Qed.

Lemma others_legal_insert (k : nat) (v : row) (x : Q) :
  others_legal E k v -> others_legal E k (<[k := x]> v).
Proof.
  intros H i Hi Hne. rewrite list_lookup_total_insert_ne by congruence. apply H; assumption.
Qed.

Lemma others_legal_agree (k : nat) (v w : row) :
  (forall i, i <> k -> w !!! i = v !!! i) -> others_legal E k v -> others_legal E k w.
Proof.
  intros Hvw H i Hi Hne. rewrite Hvw by exact Hne. apply H; assumption.
Qed.

Lemma c_func_frame (k : nat) (mintrades : Z) (x : row) (param : Q) :
  others_legal E k x ->
  length (snd (c_func E k mintrades x param)) = length x /\
  forall i, i <> k -> snd (c_func E k mintrades x param) !!! i = x !!! i.
Proof.
  intros H. unfold c_func.
  destruct (legalize_frame k (<[k := param]> x) (others_legal_insert k x param H))
    as [Hl Hf].
  destruct (ensure_legal _ _ _ _ _) as [penalty x']. simpl in *.
  rewrite length_insert in Hl. split; [exact Hl|].
  intros i Hi. rewrite Hf by exact Hi. apply list_lookup_total_insert_ne. congruence.
Qed.

Lemma run_search_frame (p : probe) (k : nat) (mintrades : Z) (x : row) :
  others_legal E k x ->
  length (snd (run_search E p k mintrades x)) = length x /\
  forall i, i <> k -> snd (run_search E p k mintrades x) !!! i = x !!! i.
Proof.
  revert x. induction p as [x2|param next IH]; intros x H; simpl; [split; reflexivity|].
  destruct (c_func_frame k mintrades x param H) as [Hl Hf].
  destruct (c_func E k mintrades x param) as [y x'] eqn:Hc. simpl in Hl, Hf.
  destruct (IH y x' (others_legal_agree k x x' Hf H)) as [Hl' Hf'].
  split; [congruence|]. intros i Hi. rewrite Hf' by exact Hi. apply Hf, Hi.
Qed.

(** What the real branch leaves in the slot before the acceptance test. *)
Lemma hill_real_frame (k : nat) (mintrades : Z) (dest_ptr : row) (value0 : Q) :
  others_legal E k dest_ptr ->
  length (fst (hill_real E k mintrades dest_ptr value0)) = length dest_ptr /\
  (forall i, i <> k -> i <> nvars E ->
     fst (hill_real E k mintrades dest_ptr value0) !!! i = dest_ptr !!! i) /\
  (~ value0 < snd (hill_real E k mintrades dest_ptr value0) ->
   hill_real E k mintrades dest_ptr value0 = (dest_ptr, value0)).
Proof.
  intros H. unfold hill_real.
  destruct (search_interval E k (dest_ptr !!! k)) as [lower upper].
  destruct (run_search_frame (search E lower upper) k mintrades dest_ptr H) as [Hl Hf].
  destruct (run_search E _ k mintrades dest_ptr) as [x2 d1]. simpl in Hl, Hf.
  destruct (legalize_frame k (<[k := x2]> d1)) as [Hl2 Hf2].
  { apply others_legal_insert, (others_legal_agree k dest_ptr d1 Hf H). }
  destruct (ensure_legal _ _ _ _ (<[k := x2]> d1)) as [pen d2]. simpl in Hl2, Hf2.
  rewrite length_insert in Hl2.
  assert (forall i, i <> k -> d2 !!! i = dest_ptr !!! i) as Hagree.
  { intros i Hi. rewrite Hf2, list_lookup_total_insert_ne by congruence. apply Hf, Hi. }
  cmp value0 (evaluate E d2 mintrades); simpl.
  - rewrite length_insert. split; [congruence|]. split.
    + intros i Hi Hn. rewrite list_lookup_total_insert_ne by congruence. apply Hagree, Hi.
    + intros Hno. exfalso. apply Hno, Hcmp.
  - assert (<[k := dest_ptr !!! k]> d2 = dest_ptr) as Hback.
    { apply list_eq_total; [rewrite length_insert; congruence|].
      intros i Hi. rewrite length_insert in Hi.
      destruct (decide (i = k)) as [->|Hne].
      - apply list_lookup_total_insert_eq. exact Hi.
      - rewrite list_lookup_total_insert_ne by congruence. apply Hagree, Hne. }
    rewrite Hback. split; [reflexivity|]. split; [reflexivity|]. reflexivity.
Qed.

(** Facts about one walk of the integer branch. *)
Lemma walk_success (up : bool) (n : nat) (ivar limit : Z) (k : nat) (mintrades : Z)
      (c : climb) :
  c_success c = true -> c_success (walk E up n ivar limit k mintrades c) = true.
Proof.
  revert ivar c. induction n as [|n IH]; intros ivar c Hs; simpl; [exact Hs|].
  destruct (if up then _ else _); [|exact Hs].
  destruct (Qltb _ _); [apply IH; reflexivity | exact Hs].
Qed.

Lemma walk_value (up : bool) (n : nat) (ivar limit : Z) (k : nat) (mintrades : Z)
      (c : climb) :
  c_value c <= c_value (walk E up n ivar limit k mintrades c) /\
  (c_success (walk E up n ivar limit k mintrades c) = true ->
   c_success c = false ->
   c_value c < c_value (walk E up n ivar limit k mintrades c)).
Proof.
  revert ivar c. induction n as [|n IH]; intros ivar c; simpl.
  - split; [lra|]. intros H1 H2. congruence.
  - destruct (if up then _ else _); [|split; [lra | intros H1 H2; congruence]].
    set (ivar' := if up then (ivar + 1)%Z else (ivar - 1)%Z).
    set (dp := <[k := of_int ivar']> (c_dest c)).
    cmp (c_value c) (evaluate E dp mintrades).
    + destruct (IH ivar' (mkClimb dp (evaluate E dp mintrades) ivar' true)) as [Hle _].
      simpl in Hle. split; [lra|]. intros _ _. lra.
    + simpl. split; [lra|]. intros H1 H2. congruence.
Qed.

Lemma walk_undone (up : bool) (n : nat) (ivar limit : Z) (k : nat) (mintrades : Z)
      (c : climb) :
  c_dest c !!! k = of_int (c_ibase c) ->
  c_success (walk E up n ivar limit k mintrades c) = false ->
  walk E up n ivar limit k mintrades c = c.
Proof.
  intros Hk. destruct n as [|n]; simpl; [reflexivity|].
  destruct (if up then _ else _); [|reflexivity].
  set (ivar' := if up then (ivar + 1)%Z else (ivar - 1)%Z).
  destruct (Qltb _ _).
  - rewrite walk_success by reflexivity. discriminate.
  - simpl. intros Hs. destruct c as [dp v ib su]. simpl in *. f_equal.
    rewrite list_insert_insert_eq.
    destruct (Nat.lt_ge_cases k (length dp)) as [Hlt|Hge].
    + apply list_insert_id. rewrite <- Hk. apply list_lookup_lookup_total_lt, Hlt.
    + apply list_insert_ge, Hge.
Qed.

Lemma hill_int_undone (k : nat) (mintrades : Z) (dest_ptr : row) (value0 : Q) :
  whole (dest_ptr !!! k) ->
  let w := hill_int E k mintrades dest_ptr value0 in
  value0 <= c_value w /\
  (~ value0 < c_value w -> c_dest w = dest_ptr /\ c_value w = value0).
Proof.
  intros Hw. unfold hill_int. cbv zeta.
  set (ibase := to_int (dest_ptr !!! k)).
  set (c0 := mkClimb dest_ptr value0 ibase false).
  set (c1 := walk E true _ ibase _ k mintrades c0).
  assert (c_dest c0 !!! k = of_int (c_ibase c0)) as Hk0 by (symmetry; exact Hw).
  destruct (c_success c1) eqn:Hs1.
  - destruct (walk_value true (Z.to_nat (to_int (high_bounds E !!! k) - ibase)) ibase
                         (to_int (high_bounds E !!! k)) k mintrades c0) as [Hle Hlt].
    fold c1 in Hle, Hlt. specialize (Hlt Hs1 eq_refl). simpl in Hle, Hlt.
    split; [exact Hle|]. intros Hno. exfalso. apply Hno, Hlt.
  - assert (c1 = c0) as -> by (apply walk_undone; assumption).
    set (c2 := walk E false _ (c_ibase c0) _ k mintrades c0).
    destruct (walk_value false (Z.to_nat (c_ibase c0 - to_int (low_bounds E !!! k)))
                         (c_ibase c0) (to_int (low_bounds E !!! k)) k mintrades c0)
      as [Hle Hlt].
    fold c2 in Hle, Hlt. simpl in Hle. split; [exact Hle|].
    intros Hno. destruct (c_success c2) eqn:Hs2.
    + exfalso. apply Hno. apply Hlt; reflexivity.
    + assert (c2 = c0) as -> by (apply walk_undone; assumption).
      split; reflexivity.
Qed.

End HillClimbing.

Lemma legal_row_others (E : setup) (k : nat) (v : row) :
  legal_row E v -> others_legal E k v.
Proof.
  intros (_ & Hb & Hw) i Hi _. destruct (Hb i Hi) as [H1 H2].
  split; [exact H1|]. split; [exact H2|]. intros Hn. apply Hw; assumption.
Qed.

Lemma Ehalf_init_run :
  init_loop Small.Ehalf 8 (init_start Small.Ehalf) = Some (Next Small.Ehalf_init).
Proof. vm_compute. reflexivity. Qed.

(** C8, as stated, fails on an integer parameter that does not hold a
    whole number, which the code produces when the bounds are not whole:
    with bounds [0.5, 5.5] the first member of the initial population of
    the run on [Small.Ehalf] has the parameter 0.5 and the score 9.5.  The
    climb on its copy converts 0.5 to [ibase = 0], tries 1, whose criterion
    9 is no improvement, and puts [ibase] back: the step has failed, the
    value carried on is still 9.5, and the parameter is left at 0 where it
    was 0.5. *)
Lemma rejected_integer_climb_counterexample :
  init_loop Small.Ehalf 8 (init_start Small.Ehalf) = Some (Next Small.Ehalf_init) /\
  pop1 Small.Ehalf_init !!! 0%nat = dest Small.Ehalf_slot /\
  in_bounds 1 (low_bounds Small.Ehalf) (high_bounds Small.Ehalf) (dest Small.Ehalf_slot) /\
  value (hill_climb Small.Ehalf 1 0 1 Small.Ehalf_slot) = value Small.Ehalf_slot /\
  dest (hill_climb Small.Ehalf 1 0 1 Small.Ehalf_slot) = [0; 19#2] /\
  dest (hill_climb Small.Ehalf 1 0 1 Small.Ehalf_slot) <> dest Small.Ehalf_slot.
Proof.
  split; [exact Ehalf_init_run|]. split; [reflexivity|]. split.
  - intros i Hi. destruct i as [|i]; [split; discriminate | lia].
  - split; [reflexivity|]. split; [reflexivity | discriminate].
Qed.

(** C8, amended: a hill-climbing step, on an integer or on a real
    dimension, that does not strictly improve the score the candidate had
    before the step leaves the destination slot exactly as it was: the
    tweaked parameter has its prior value again, the other parameters are
    untouched, and so is the stored score; the value carried on is the
    prior score.  The candidate is a legal one: its parameters lie within
    their bounds and the integer ones are whole numbers; and the bounds of
    the integer parameters have magnitude at most [INT_MAX], so that the
    conversions to [int] of lines 351-353 and of [ensure_legal] are
    defined. *)
Theorem rejected_hill_climb_is_undone
        (E : setup) (generation ind : nat) (mintrades : Z) (c : child) :
  (nints E <= nvars E)%nat ->
  (forall i, (i < nints E)%nat ->
     int_sized (low_bounds E !!! i) /\ int_sized (high_bounds E !!! i)) ->
  legal_row E (dest c) ->
  let c' := hill_climb E generation ind mintrades c in
  value c <= value c' /\
  (~ value c < value c' -> dest c' = dest c /\ value c' = value c) /\
  (forall i, (i < nints E)%nat ->
     (INT_MIN <= to_int (dest c !!! i) <= INT_MAX)%Z /\
     (INT_MIN <= to_int (low_bounds E !!! i) <= INT_MAX)%Z /\
     (INT_MIN <= to_int (high_bounds E !!! i) <= INT_MAX)%Z).
Proof.
  intros Hn Hsized Hlegal c'.
  assert (forall i, (i < nints E)%nat ->
            (INT_MIN <= to_int (dest c !!! i) <= INT_MAX)%Z /\
            (INT_MIN <= to_int (low_bounds E !!! i) <= INT_MAX)%Z /\
            (INT_MIN <= to_int (high_bounds E !!! i) <= INT_MAX)%Z)
    as Hconv.
  { intros i Hi. destruct (Hsized i Hi) as [Hlo Hhi].
    split; [|split; apply to_int_range; assumption].
    destruct Hlegal as (_ & Hb & _). destruct (Hb i ltac:(lia)) as [H1 H2].
    destruct Hlo as [H3 _]. destruct Hhi as [_ H4].
    apply to_int_range. split; lra. }
  enough (value c <= value c' /\
          (~ value c < value c' -> dest c' = dest c /\ value c' = value c)) as [H1 H2]
    by (split; [exact H1 | split; [exact H2 | exact Hconv]]).
  clear Hsized Hconv. subst c'. unfold hill_climb. cbv zeta.
  destruct (Qltb 0 (pclimb E)); [|split; [lra | intros; split; reflexivity]].
  destruct (if (ind =? h_ibest c)%nat && (h_n_tweaked c <? nvars E)%nat
            then _ else _) as [go d].
  destruct go; [|simpl; split; [lra | intros; split; reflexivity]].
  destruct (if (ind =? h_ibest c)%nat then _ else _) as [[k tweaked] d'].
  destruct (k <? nints E)%nat eqn:Hk.
  - apply Nat.ltb_lt in Hk. simpl.
    apply hill_int_undone.
    destruct Hlegal as (_ & _ & Hw). apply Hw; lia.
  - destruct (hill_real_frame E k mintrades (dest c) (value c)
                              (legal_row_others E k (dest c) Hlegal)) as (_ & _ & Hback).
    assert (value c <= snd (hill_real E k mintrades (dest c) (value c))) as Hle.
    { unfold hill_real.
      destruct (search_interval E k _) as [lower upper].
      destruct (run_search E _ k mintrades (dest c)) as [x2 d1].
      destruct (ensure_legal _ _ _ _ _) as [pen d2].
      cmp (value c) (evaluate E d2 mintrades); simpl; lra. }
    destruct (hill_real E k mintrades (dest c) (value c)) as [dp v] eqn:Hreal.
    simpl in Hback, Hle.
    destruct (update_best_dest E ind
                (mkChild dp v (h_best c) (h_grand_best c) (h_ibest c) tweaked
                         (h_improved c) d')) as [Hd Hv].
    rewrite Hd, Hv. simpl. split; [exact Hle|].
    intros Hno. specialize (Hback Hno). injection Hback as -> ->.
    split; reflexivity.
Qed.

Lemma rejected_hill_climb_is_undone_witness :
  dest (hill_climb Demo.Emix 2 0 1 (mkChild [0; 0; 100] 100 [0; 0; 100] 100 0 0 false 0))
  = [0; 0; 100] /\
  value (hill_climb Demo.Emix 2 0 1 (mkChild [0; 0; 100] 100 [0; 0; 100] 100 0 0 false 0))
  = 100.
Proof.
  assert (legal_row Demo.Emix [0; 0; 100]) as Hlegal.
  { split; [reflexivity|]. split.
    - intros i Hi. destruct i as [|[|i]]; [| |simpl in Hi; lia]; split; discriminate.
    - intros i Hi Hn. destruct i as [|i]; [reflexivity | simpl in Hn; lia]. }
  assert (forall i, (i < nints Demo.Emix)%nat ->
            int_sized (low_bounds Demo.Emix !!! i) /\
            int_sized (high_bounds Demo.Emix !!! i)) as Hsized.
  { intros i Hi. simpl in Hi. destruct i as [|i]; [|lia]. split; split; discriminate. }
  destruct (rejected_hill_climb_is_undone Demo.Emix 2 0 1
              (mkChild [0; 0; 100] 100 [0; 0; 100] 100 0 0 false 0)
              ltac:(simpl; lia) Hsized Hlegal) as (_ & Hundo & _).
  apply Hundo. vm_compute. discriminate.
Defined.

(** C1 fails on the integer branch of the hill-climbing step, which
    moves the parameter and never stores the new criterion.  In the first
    generation of the run on [Demo.Eint] (one integer parameter in [0, 5],
    criterion [p + 1], [pclimb = 1]) the first child is the copy of its
    parent [0] with score 1; the climb takes the parameter to 5, whose
    criterion is 6, and the slot of the new generation is left holding the
    parameter 5 with the score 1. *)
Theorem stale_score_after_integer_hill_climb :
  exists s g,
    init_loop Demo.Eint 4 (init_start Demo.Eint) = Some (Next s) /\
    child_step Demo.Eint 30 1 0 (local_mintrades s) (pop1 s)
               (start_generation (enter_main Demo.Eint s)) = Some g /\
    new_gen g !!! 0%nat = [5; 1] /\
    evaluate Demo.Eint (new_gen g !!! 0%nat) (local_mintrades s) = 6 /\
    (new_gen g !!! 0%nat) !!! nvars Demo.Eint = 1.
Proof.
  eexists. eexists. split; [vm_compute; reflexivity|].
  split; [vm_compute; reflexivity|].
  split; [reflexivity|]. split; reflexivity.
Qed.

(* ================================================================== *)
(** ** Legal candidates *)
(* ================================================================== *)

Lemma whole_plus (x y : Q) : whole x -> whole y -> whole (x + y).
Proof.
  intros Hx Hy. apply whole_inv in Hx as [a ->]. apply whole_inv in Hy as [b ->].
  rewrite <- of_int_plus. apply whole_of_int.
Qed.

Lemma whole_clamp (lo hi y : Q) : whole lo -> whole hi -> whole y -> whole (clamp lo hi y).
Proof.
  intros Hlo Hhi Hy. unfold clamp. destruct (Qltb hi y); [exact Hhi|].
  destruct (Qltb y lo); assumption.
Qed.

Lemma Forall_lookup_total_row (P : row -> Prop) (l : list row) (i : nat) :
  Forall P l -> (i < length l)%nat -> P (l !!! i).
Proof.
  intros H Hi. rewrite Forall_forall in H. apply H.
  apply list_elem_of_lookup. exists i.
  apply list_lookup_lookup_total_lt, Hi.
Qed.

Lemma Forall_insert_row (P : row -> Prop) (l : list row) (i : nat) (r : row) :
  Forall P l -> ((i < length l)%nat -> P r) -> Forall P (<[i := r]> l).
Proof.
  intros H Hr. destruct (Nat.lt_ge_cases i (length l)) as [Hi|Hi].
  - apply Forall_insert; [exact H | apply Hr, Hi].
  - rewrite list_insert_ge by exact Hi. exact H.
Qed.

Arguments draw_param : simpl never.

Section LegalRows.

Variable E : setup.
Hypothesis Hwf : well_formed E.

(** Storing the criterion after the parameters keeps a candidate legal. *)
Lemma legal_row_score (r : row) (v : Q) :
  legal_row E r -> legal_row E (<[nvars E := v]> r).
Proof.
  intros (Hl & Hb & Hw). split; [rewrite length_insert; exact Hl|]. split.
  - intros i Hi. rewrite list_lookup_total_insert_ne by lia. apply Hb, Hi.
  - intros i Hi Hn. rewrite list_lookup_total_insert_ne by lia. apply Hw; assumption.
Qed.

(** What [ensure_legal] returns is legal. *)
Lemma legalize_legal (x : row) :
  row_ok E x ->
  legal_row E (snd (ensure_legal (nvars E) (nints E) (low_bounds E) (high_bounds E) x)).
Proof.
  intros Hx. unfold row_ok in Hx.
  destruct (legalize_from (nints E) (low_bounds E) (high_bounds E) (nvars E) 0 0 x)
    as (Hl & Hin & _ & _); [lia | intros i Hi; apply (wf_bounds E Hwf); lia |].
  fold (ensure_legal (nvars E) (nints E) (low_bounds E) (high_bounds E) x) in Hl, Hin.
  split; [congruence|]. split.
  - intros i Hi. rewrite Hin by lia.
    pose proof (wf_bounds E Hwf i Hi) as Hb. unfold clamp.
    cmp (high_bounds E !!! i) (rounded (nints E) i (x !!! i)); [lra|].
    cmp (rounded (nints E) i (x !!! i)) (low_bounds E !!! i); lra.
  - intros i Hi Hn. rewrite Hin by lia.
    apply whole_clamp;
      [apply (wf_low_whole E Hwf), Hn | apply (wf_high_whole E Hwf), Hn |].
    unfold rounded. apply Nat.ltb_lt in Hn. rewrite Hn. apply whole_of_int.
Qed.

(** The value drawn for dimension [i] is legal. *)
Lemma draw_param_legal (i : nat) (popptr : row) (d : nat) :
  (i < nvars E)%nat ->
  exists x, draw_param E i (popptr, d) = (<[i := x]> popptr, S d) /\
            low_bounds E !!! i <= x /\ x <= high_bounds E !!! i /\
            ((i < nints E)%nat -> whole x).
Proof.
  intros Hi. unfold draw_param. cbv zeta.
  pose proof (wf_bounds E Hwf i Hi) as Hb.
  destruct (wf_unif E Hwf d) as [Hu0 Hu1].
  set (lo := low_bounds E !!! i) in *. set (hi := high_bounds E !!! i) in *.
  destruct (i <? nints E)%nat eqn:Hn.
  - apply Nat.ltb_lt in Hn.
    pose proof (wf_low_whole E Hwf i Hn) as Hwl. fold lo in Hwl.
    pose proof (wf_high_whole E Hwf i Hn) as Hwh. fold hi in Hwh.
    eexists. split; [reflexivity|].
    assert (0 <= unif E d * (hi - lo + 1)) as Hnn by (apply Qmult_le_0_compat; lra).
    destruct (to_int_nonneg _ Hnn) as [Ht1 Ht2].
    assert (0 <= of_int (to_int (unif E d * (hi - lo + 1)))) as Hge.
    { change 0 with (of_int 0). apply (proj1 (of_int_le _ _)), to_int_ge. exact Hnn. }
    cmp hi (lo + of_int (to_int (unif E d * (hi - lo + 1)))).
    + split; [lra|]. split; [lra|]. intros _. exact Hwh.
    + split; [lra|]. split; [lra|]. intros _. apply whole_plus; [exact Hwl|apply whole_of_int].
  - eexists. split; [reflexivity|].
    assert (0 <= unif E d * (hi - lo)) by (apply Qmult_le_0_compat; lra).
    assert (unif E d * (hi - lo) <= 1 * (hi - lo)) by (apply Qmult_le_compat_r; lra).
    split; [lra|]. split; [lra|]. intros Hn'. apply Nat.ltb_lt in Hn'. congruence.
Qed.

Lemma draw_params_from (n a : nat) (popptr : row) (d : nat) :
  (a + n <= nvars E)%nat ->
  let r := fold_left (fun st i => draw_param E i st) (seq a n) (popptr, d) in
  length (fst r) = length popptr /\
  (forall i, (a <= i < a + n)%nat -> (i < length popptr)%nat ->
     low_bounds E !!! i <= fst r !!! i /\ fst r !!! i <= high_bounds E !!! i /\
     ((i < nints E)%nat -> whole (fst r !!! i))) /\
  (forall i, ~ (a <= i < a + n)%nat -> fst r !!! i = popptr !!! i).
Proof.
  revert a popptr d. induction n as [|n IH]; intros a popptr d Ha; simpl.
  - split; [reflexivity|]. split; [intros; lia | reflexivity].
  - destruct (draw_param_legal a popptr d ltac:(lia)) as (x & -> & Hx).
    destruct (IH (S a) (<[a := x]> popptr) (S d) ltac:(lia)) as (Hl & Hin & Hout).
    rewrite length_insert in Hl, Hin. split; [exact Hl|]. split.
    + intros i Hi Hlen. destruct (decide (i = a)) as [->|Hne].
      * rewrite Hout by lia. rewrite list_lookup_total_insert_eq by exact Hlen. exact Hx.
      * apply Hin; [lia | exact Hlen].
    + intros i Hi. rewrite Hout by lia. apply list_lookup_total_insert_ne. lia.
Qed.

(** A freshly drawn trial, with its criterion stored, is legal. *)
Lemma draw_params_legal (popptr : row) (d : nat) (v : Q) :
  row_ok E popptr ->
  legal_row E (<[nvars E := v]> (fst (draw_params E popptr d))).
Proof.
  intros Hok. unfold row_ok in Hok. apply legal_row_score.
  destruct (draw_params_from (nvars E) 0 popptr d ltac:(lia)) as (Hl & Hin & _).
  fold (draw_params E popptr d) in Hl, Hin.
  split; [congruence|]. split.
  - intros i Hi. destruct (Hin i ltac:(lia) ltac:(lia)) as (H1 & H2 & _). split; assumption.
  - intros i Hi Hn. destruct (Hin i ltac:(lia) ltac:(lia)) as (_ & _ & H3). apply H3, Hn.
Qed.

End LegalRows.

Section InitInvariant.

Variable E : setup.
Hypothesis Hwf : well_formed E.

Lemma legal_row_ok (r : row) : legal_row E r -> row_ok E r.
Proof. intros (Hl & _). exact Hl. Qed.

Lemma init_start_inv : init_inv E (init_start E).
Proof.
  unfold init_inv, init_start; simpl.
  rewrite !length_replicate. split; [reflexivity|]. split; [reflexivity|].
  assert (Forall (row_ok E) (replicate (popsize E) (replicate (nvars E + 1) (junk E)))).
  { apply Forall_replicate. unfold row_ok. apply length_replicate. }
  split; [assumption|]. split; [assumption|]. intros i Hi. lia.
Qed.

Lemma init_inv_mk (i : nat) (p1 p2 : list row) (b : row) (gb wf af : Q)
      (mt f n : Z) (d : nat) :
  length p1 = popsize E -> length p2 = popsize E ->
  Forall (row_ok E) p1 -> Forall (row_ok E) p2 ->
  (forall j, (j < i)%nat -> (j < popsize E)%nat -> legal_row E (p1 !!! j)) ->
  init_inv E (mkInit i p1 p2 b gb wf af mt f n d).
Proof. intros. unfold init_inv; simpl. tauto. Qed.

(** The trial is legal wherever [popptr] points at a row of a buffer. *)
Lemma trial_legal (s : init_state) :
  init_inv E s ->
  ((ind s < popsize E)%nat \/ (1 <= popsize E)%nat) ->
  legal_row E (<[nvars E := trial_value E s]> (fst (draw_trial E s))).
Proof.
  intros (L1 & L2 & F1 & F2 & _) Hcase. unfold draw_trial.
  apply draw_params_legal; [exact Hwf|].
  destruct (ind s <? popsize E)%nat eqn:Hin.
  - apply Nat.ltb_lt in Hin. apply Forall_lookup_total_row; [exact F1 | lia].
  - apply Nat.ltb_ge in Hin. apply Forall_lookup_total_row; [exact F2 | lia].
Qed.

(** Every iteration of the initialization loop keeps the members of pop1
    written so far legal. *)
Lemma init_trial_inv (s : init_state) :
  init_inv E s -> init_inv E (flow_state (init_trial E s)).
Proof.
  intros Hinv. pose proof (trial_legal s Hinv) as Hpp.
  destruct Hinv as (L1 & L2 & F1 & F2 & Hleg).
  unfold init_trial. cbv zeta.
  set (popptr := <[nvars E := trial_value E s]> (fst (draw_trial E s))) in *.
  set (p1 := if (ind s <? popsize E)%nat then <[ind s := popptr]> (pop1 s) else pop1 s).
  set (p2 := if (ind s <? popsize E)%nat then pop2 s else <[0%nat := popptr]> (pop2 s)).
  assert (length p1 = popsize E) as L1'.
  { unfold p1. destruct (_ <? _)%nat; rewrite ?length_insert; exact L1. }
  assert (length p2 = popsize E) as L2'.
  { unfold p2. destruct (_ <? _)%nat; rewrite ?length_insert; exact L2. }
  assert (Forall (row_ok E) p1) as F1'.
  { unfold p1. destruct (_ <? _)%nat eqn:Hin; [|exact F1].
    apply Nat.ltb_lt in Hin. apply Forall_insert_row; [exact F1|].
    intros _. apply legal_row_ok, Hpp. left. exact Hin. }
  assert (Forall (row_ok E) p2) as F2'.
  { unfold p2. destruct (_ <? _)%nat eqn:Hin; [exact F2|].
    apply Forall_insert_row; [exact F2|].
    intros H0. apply legal_row_ok, Hpp. right. lia. }
  assert (forall i, (i < ind s)%nat -> (i < popsize E)%nat -> legal_row E (p1 !!! i)) as Hleg'.
  { intros i Hi Hp. unfold p1. destruct (_ <? _)%nat.
    - rewrite list_lookup_total_insert_ne by lia. apply Hleg; assumption.
    - apply Hleg; assumption. }
  assert (forall i, (i < S (ind s))%nat -> (i < popsize E)%nat -> legal_row E (p1 !!! i))
    as Hleg1.
  { intros i Hi Hp. destruct (decide (i = ind s)) as [->|Hne].
    - unfold p1. apply Nat.ltb_lt in Hp. rewrite Hp. apply Nat.ltb_lt in Hp.
      rewrite list_lookup_total_insert_eq by lia. apply Hpp. left. exact Hp.
    - apply Hleg'; lia. }
  destruct (Qle_bool (trial_value E s) 0).
  - destruct (max_evals E <? n_evals s + 1)%Z; [|destruct (500 <=? failures s + 1)%Z];
      simpl; apply init_inv_mk; assumption.
  - destruct (if Qltb _ _ then _ else _) as [bst gb].
    destruct (popsize E <=? ind s)%nat eqn:Hover;
      [|simpl; apply init_inv_mk; assumption].
    apply Nat.leb_le in Hover.
    destruct (fold_left _ _ _) as [[af minptr] wf].
    destruct (Qltb wf _); simpl; [|apply init_inv_mk; assumption].
    apply init_inv_mk; try assumption.
    + rewrite length_insert; exact L1'.
    + apply Forall_insert_row; [exact F1'|].
      intros Hm. apply legal_row_ok, Hpp. right. lia.
    + intros i Hi Hp. destruct (decide (minptr = i)) as [->|Hne].
      * rewrite list_lookup_total_insert_eq by lia. apply Hpp. right. lia.
      * rewrite list_lookup_total_insert_ne by exact Hne. apply Hleg'; lia.
Qed.

Lemma init_trial_ind (s : init_state) :
  (ind s <= ind (flow_state (init_trial E s)))%nat.
Proof.
  unfold init_trial. cbv zeta.
  destruct (Qle_bool _ 0).
  - destruct (_ <? _)%Z; [|destruct (_ <=? _)%Z]; simpl; lia.
  - destruct (if Qltb _ _ then _ else _) as [bst gb].
    destruct (_ <=? _)%nat; [|simpl; lia].
    destruct (fold_left _ _ _) as [[af minptr] wf].
    destruct (Qltb wf _); simpl; lia.
Qed.

(** When the initialization loop ends normally, pop1 holds [popsize]
    legal candidates. *)
Lemma init_loop_inv (fuel : nat) (s : init_state) (r : flow init_state) :
  init_inv E s -> init_loop E fuel s = Some r ->
  init_inv E (flow_state r) /\
  (forall s', r = Next s' -> Forall (legal_row E) (pop1 s')).
Proof.
  revert s. induction fuel as [|fuel IH]; intros s Hinv; simpl.
  - destruct (_ <? _)%nat eqn:Hlt; [discriminate|].
    intros [= <-]. split; [exact Hinv|]. intros s' [= <-].
    apply Nat.ltb_ge in Hlt. destruct Hinv as (L1 & _ & _ & _ & Hleg).
    apply Forall_forall. intros x Hx. apply list_elem_of_lookup in Hx as [i Hx].
    pose proof (lookup_lt_Some _ _ _ Hx) as Hi.
    apply list_lookup_total_correct in Hx. subst x. apply Hleg; lia.
  - destruct (_ <? _)%nat eqn:Hlt.
    + pose proof (init_trial_inv s Hinv) as Hinv'.
      destruct (init_trial E s) as [s1|s1]; simpl in Hinv'.
      * apply IH, Hinv'.
      * intros [= <-]. split; [exact Hinv'|]. intros s' H. discriminate.
    + intros [= <-]. split; [exact Hinv|]. intros s' [= <-].
      apply Nat.ltb_ge in Hlt. destruct Hinv as (L1 & _ & _ & _ & Hleg).
      apply Forall_forall. intros x Hx. apply list_elem_of_lookup in Hx as [i Hx].
      pose proof (lookup_lt_Some _ _ _ Hx) as Hi.
      apply list_lookup_total_correct in Hx. subst x. apply Hleg; lia.
Qed.

End InitInvariant.

Section GenInvariant.

Variable E : setup.
Hypothesis Hwf : well_formed E.

Lemma legal_row_set_int (r : row) (k : nat) (z : Z) :
  legal_row E r -> (k < nints E)%nat ->
  (to_int (low_bounds E !!! k) <= z <= to_int (high_bounds E !!! k))%Z ->
  legal_row E (<[k := of_int z]> r).
Proof.
  intros (Hl & Hb & Hw) Hk Hz.
  pose proof (wf_nints E Hwf) as Hn.
  pose proof (wf_low_whole E Hwf k Hk) as Hlo. pose proof (wf_high_whole E Hwf k Hk) as Hhi.
  unfold whole in Hlo, Hhi.
  split; [rewrite length_insert; exact Hl|]. split.
  - intros i Hi. destruct (decide (i = k)) as [->|Hne].
    + rewrite list_lookup_total_insert_eq by lia. rewrite <- Hlo, <- Hhi.
      split; apply (proj1 (of_int_le _ _)); lia.
    + rewrite list_lookup_total_insert_ne by congruence. apply Hb, Hi.
  - intros i Hi Hin. destruct (decide (i = k)) as [->|Hne].
    + rewrite list_lookup_total_insert_eq by lia. apply whole_of_int.
    + rewrite list_lookup_total_insert_ne by congruence. apply Hw; assumption.
Qed.

Lemma walk_legal (up : bool) (n : nat) (ivar limit : Z) (k : nat) (mintrades : Z)
      (c : climb) :
  (k < nints E)%nat ->
  legal_row E (c_dest c) ->
  (to_int (low_bounds E !!! k) <= c_ibase c <= to_int (high_bounds E !!! k))%Z ->
  (if up then limit = to_int (high_bounds E !!! k) /\
              (to_int (low_bounds E !!! k) - 1 <= ivar)%Z
   else limit = to_int (low_bounds E !!! k) /\
        (ivar <= to_int (high_bounds E !!! k) + 1)%Z) ->
  legal_row E (c_dest (walk E up n ivar limit k mintrades c)) /\
  (to_int (low_bounds E !!! k) <= c_ibase (walk E up n ivar limit k mintrades c)
   <= to_int (high_bounds E !!! k))%Z.
Proof.
  intros Hk. revert ivar c. induction n as [|n IH]; intros ivar c Hleg Hib Hdir; simpl;
    [split; assumption|].
  set (ivar' := if up then (ivar + 1)%Z else (ivar - 1)%Z).
  destruct (if up then (ivar' <=? limit)%Z else (limit <=? ivar')%Z) eqn:Hcond;
    [|split; assumption].
  assert (to_int (low_bounds E !!! k) <= ivar' <= to_int (high_bounds E !!! k))%Z as Hin.
  { unfold ivar' in *. destruct up; destruct Hdir as [-> Hd].
    - apply Z.leb_le in Hcond. lia.
    - apply Z.leb_le in Hcond. lia. }
  pose proof (legal_row_set_int (c_dest c) k ivar' Hleg Hk Hin) as Hleg'.
  destruct (Qltb _ _).
  - apply IH; simpl; [exact Hleg' | exact Hin |].
    unfold ivar'. destruct up; destruct Hdir as [-> Hd]; (split; [reflexivity|]);
      unfold ivar' in Hin; lia.
  - simpl. split; [|exact Hib]. apply legal_row_set_int; assumption.
Qed.

Lemma hill_int_legal (k : nat) (mintrades : Z) (dest_ptr : row) (value0 : Q) :
  (k < nints E)%nat -> legal_row E dest_ptr ->
  legal_row E (c_dest (hill_int E k mintrades dest_ptr value0)).
Proof.
  intros Hk Hleg. unfold hill_int. cbv zeta.
  pose proof (wf_nints E Hwf) as Hn.
  pose proof (wf_low_whole E Hwf k Hk) as Hlo. pose proof (wf_high_whole E Hwf k Hk) as Hhi.
  unfold whole in Hlo, Hhi.
  pose proof Hleg as Hleg0.
  destruct Hleg as (Hl & Hb & Hw). destruct (Hb k ltac:(lia)) as [Hb1 Hb2].
  assert (to_int (low_bounds E !!! k) <= to_int (dest_ptr !!! k)
          <= to_int (high_bounds E !!! k))%Z as Hib.
  { split; [apply to_int_ge | apply to_int_le]; [rewrite Hlo | rewrite Hhi]; assumption. }
  set (c0 := mkClimb dest_ptr value0 (to_int (dest_ptr !!! k)) false).
  destruct (walk_legal true (Z.to_nat (to_int (high_bounds E !!! k) - to_int (dest_ptr !!! k)))
              (to_int (dest_ptr !!! k)) (to_int (high_bounds E !!! k)) k mintrades c0 Hk)
    as [Hleg1 Hib1]; [exact Hleg0 | exact Hib | split; [reflexivity|lia] |].
  destruct (c_success _); [exact Hleg1|].
  apply walk_legal; [exact Hk | exact Hleg1 | exact Hib1 | split; [reflexivity|lia]].
Qed.

(** The two ways the real branch can end. *)
Lemma hill_real_cases (k : nat) (mintrades : Z) (dest_ptr : row) (value0 : Q) :
  legal_row E dest_ptr ->
  hill_real E k mintrades dest_ptr value0 = (dest_ptr, value0) \/
  exists x, legal_row E x /\ value0 < evaluate E x mintrades /\
            hill_real E k mintrades dest_ptr value0
            = (<[nvars E := evaluate E x mintrades]> x, evaluate E x mintrades).
Proof.
  intros Hleg.
  pose proof (legal_row_others E k dest_ptr Hleg) as Hoth.
  destruct (hill_real_frame E k mintrades dest_ptr value0 Hoth) as (_ & _ & Hback).
  revert Hback. unfold hill_real.
  destruct (search_interval E k (dest_ptr !!! k)) as [lower upper].
  destruct (run_search_frame E (search E lower upper) k mintrades dest_ptr Hoth) as [Hl _].
  destruct (run_search E _ k mintrades dest_ptr) as [x2 d1]. simpl in Hl.
  pose proof (legalize_legal E Hwf (<[k := x2]> d1)) as Hd2.
  destruct (ensure_legal _ _ _ _ (<[k := x2]> d1)) as [pen d2]. simpl in Hd2.
  cmp value0 (evaluate E d2 mintrades); simpl; intros Hback.
  - right. exists d2. split; [|split; [exact Hcmp | reflexivity]].
    apply Hd2. unfold row_ok. rewrite length_insert, Hl. apply Hleg.
  - left. apply Hback. lra.
Qed.

Lemma hill_climb_legal (generation ind : nat) (mintrades : Z) (c : child) :
  legal_row E (dest c) ->
  legal_row E (dest (hill_climb E generation ind mintrades c)).
Proof.
  intros Hleg. unfold hill_climb. cbv zeta.
  destruct (Qltb 0 (pclimb E)); [|exact Hleg].
  destruct (if (ind =? h_ibest c)%nat && (h_n_tweaked c <? nvars E)%nat
            then _ else _) as [go d].
  destruct go; [|exact Hleg].
  destruct (if (ind =? h_ibest c)%nat then _ else _) as [[k tweaked] d'].
  destruct (k <? nints E)%nat eqn:Hk.
  - apply Nat.ltb_lt in Hk. simpl. apply hill_int_legal; assumption.
  - destruct (hill_real_cases k mintrades (dest c) (value c) Hleg) as [->|(x & Hx & _ & ->)];
      match goal with |- context [update_best ?i ?c'] =>
        destruct (update_best_dest E i c') as [-> _] end; simpl;
      [exact Hleg | apply legal_row_score, Hx].
Qed.

Lemma selection_legal (ind : nat) (mintrades : Z) (parent1 x : row)
      (s : gen_state) (d : nat) :
  legal_row E parent1 -> row_ok E x ->
  legal_row E
    (dest (selection E ind mintrades parent1
             (snd (ensure_legal (nvars E) (nints E) (low_bounds E) (high_bounds E) x))
             s d)).
Proof.
  intros Hp Hx.
  destruct (selection_dest E ind mintrades parent1
              (snd (ensure_legal (nvars E) (nints E) (low_bounds E) (high_bounds E) x))
              s d) as [-> _].
  unfold select_child. destruct (Qltb _ _); simpl; [|exact Hp].
  apply legal_row_score, legalize_legal; assumption.
Qed.

Lemma crossover_length (parent1 parent2 diff1 diff2 : row) (j : nat)
      (dest_ptr : row) (d : nat) :
  length (fst (fst (crossover E parent1 parent2 diff1 diff2 j dest_ptr d)))
  = length dest_ptr.
Proof. apply cross_loop_length. Qed.





End GenInvariant.

Lemma Emix_well_formed : well_formed Demo.Emix.
Proof.
  constructor; simpl.
  - lia.
  - intros i Hi. destruct i as [|[|i]]; [discriminate | discriminate | lia].
  - intros i Hi. destruct i as [|i]; [reflexivity | lia].
  - intros i Hi. destruct i as [|i]; [reflexivity | lia].
  - apply cycle_range.
Qed.

Lemma enter_main_inv (E : setup) (s : init_state) :
  init_inv E s -> Forall (legal_row E) (pop1 s) -> gen_inv E (pop1 s) (enter_main E s).
Proof.
  intros (L1 & L2 & _ & F2 & _) Hall. unfold gen_inv, enter_main; simpl. tauto.
Qed.

(* ================================================================== *)
(** ** Members of the populations stay within bounds: claim C6 *)
(* ================================================================== *)




Lemma Emix_init_run :
  init_loop Demo.Emix 8 (init_start Demo.Emix) = Some (Next Demo.Emix_init).
Proof. vm_compute. reflexivity. Qed.

Lemma Emix_last_run :
  evolve Demo.Emix 10 50 1 0 (local_mintrades Demo.Emix_init) (pop1 Demo.Emix_init)
         (enter_main Demo.Emix Demo.Emix_init) = Some Demo.Emix_last.
Proof. vm_compute. reflexivity. Qed.



(* ================================================================== *)
(** ** The best so far: claim C5 *)
(* ================================================================== *)

Section GrandBest.

Variable E : setup.

Lemma update_best_mono (ind : nat) (c : child) :
  h_grand_best c <= h_grand_best (update_best ind c).
Proof.
  unfold update_best. cmp (h_grand_best c) (value c); simpl; lra.
Qed.

Lemma selection_mono (ind : nat) (mintrades : Z) (parent1 dest_ptr : row)
      (s : gen_state) (d : nat) :
  g_grand_best s <= h_grand_best (selection E ind mintrades parent1 dest_ptr s d).
Proof.
  unfold selection. destruct (select_child E parent1 dest_ptr _) as [dp v'].
  destruct (Qltb _ _).
  - eapply Qle_trans; [|apply update_best_mono]. simpl. lra.
  - simpl. lra.
Qed.

Lemma hill_climb_mono (generation ind : nat) (mintrades : Z) (c : child) :
  h_grand_best c <= h_grand_best (hill_climb E generation ind mintrades c).
Proof.
  unfold hill_climb. cbv zeta.
  destruct (Qltb 0 (pclimb E)); [|lra].
  destruct (if (ind =? h_ibest c)%nat && (h_n_tweaked c <? nvars E)%nat
            then _ else _) as [go d].
  destruct go; [|simpl; lra].
  destruct (if (ind =? h_ibest c)%nat then _ else _) as [[k tweaked] d'].
  destruct (k <? nints E)%nat; [simpl; lra|].
  destruct (hill_real E k mintrades (dest c) (value c)) as [dp v].
  eapply Qle_trans; [|apply update_best_mono]. simpl. lra.
Qed.

Lemma child_step_mono (pfuel generation ind : nat) (mintrades : Z)
      (old_gen : list row) (s s' : gen_state) :
  child_step E pfuel generation ind mintrades old_gen s = Some s' ->
  g_grand_best s <= g_grand_best s'.
Proof.
  unfold child_step.
  destruct (pick E pfuel _ (g_draws s)) as [[i d1]|]; simpl; [|discriminate].
  destruct (pick E pfuel _ d1) as [[j d2]|]; simpl; [|discriminate].
  destruct (pick E pfuel _ d2) as [[k d3]|]; simpl; [|discriminate].
  destruct (pick_start E pfuel d3) as [[j0 d4]|]; simpl; [|discriminate].
  destruct (crossover E _ _ _ _ j0 (new_gen s !!! ind) d4) as [[dp used] d5].
  destruct (ensure_legal _ _ _ _ dp) as [pen dl].
  intros [= <-]. simpl.
  eapply Qle_trans; [|apply hill_climb_mono]. apply selection_mono.
Qed.

Lemma children_mono (n pfuel generation ind : nat) (mintrades : Z)
      (old_gen : list row) (s s' : gen_state) :
  children E n pfuel generation ind mintrades old_gen s = Some s' ->
  g_grand_best s <= g_grand_best s'.
Proof.
  revert ind s. induction n as [|n IH]; intros ind s; simpl.
  - intros [= <-]. lra.
  - destruct (child_step E pfuel generation ind mintrades old_gen s) as [s1|] eqn:Hstep;
      simpl; [|discriminate].
    intros Hrest. apply child_step_mono in Hstep. apply IH in Hrest. lra.
Qed.

Lemma evolve_mono (fuel pfuel generation : nat) (bad : Z) (mintrades : Z)
      (old_gen : list row) (s s' : gen_state) :
  evolve E fuel pfuel generation bad mintrades old_gen s = Some s' ->
  g_grand_best s <= g_grand_best s'.
Proof.
  revert generation bad old_gen s. induction fuel as [|fuel IH];
    intros generation bad old_gen s; simpl; [discriminate|].
  destruct (children E (popsize E) pfuel generation 0 mintrades old_gen
                     (start_generation s)) as [s1|] eqn:Hch; simpl; [|discriminate].
  apply children_mono in Hch. simpl in Hch.
  destruct (negb (improved s1) && _).
  - intros [= <-]. exact Hch.
  - intros Hrest. apply IH in Hrest. simpl in Hrest. lra.
Qed.

(** Past the first individual, a trial never lowers the best so far. *)
Lemma init_trial_mono (s : init_state) :
  ind s <> 0%nat -> grand_best s <= grand_best (flow_state (init_trial E s)).
Proof.
  intros H0. apply Nat.eqb_neq in H0. unfold init_trial. cbv zeta. rewrite H0.
  destruct (Qle_bool _ 0).
  - destruct (_ <? _)%Z; [|destruct (_ <=? _)%Z]; simpl; lra.
  - assert (grand_best s
            <= snd (if Qltb (grand_best s) (trial_value E s)
                    then (<[nvars E := trial_value E s]> (fst (draw_trial E s)),
                          trial_value E s)
                    else (best s, grand_best s))) as Hgb.
    { cmp (grand_best s) (trial_value E s); simpl; lra. }
    destruct (if Qltb _ _ then _ else _) as [bst gb]. simpl in Hgb.
    destruct (_ <=? _)%nat; [|simpl; exact Hgb].
    destruct (fold_left _ _ _) as [[af minptr] wf].
    destruct (Qltb wf _); simpl; exact Hgb.
Qed.

(** The first individual seeds the best so far, each time it is tried. *)
Lemma init_trial_seed (s : init_state) :
  ind s = 0%nat -> grand_best (flow_state (init_trial E s)) = trial_value E s.
Proof.
  intros H0. unfold init_trial. cbv zeta. rewrite H0. simpl (0 =? 0)%nat. cbv iota.
  destruct (Qle_bool _ 0).
  - destruct (_ <? _)%Z; [|destruct (_ <=? _)%Z]; reflexivity.
  - assert (Qltb (trial_value E s) (trial_value E s) = false) as ->
      by (apply Qltb_ge; lra).
    destruct (_ <=? _)%nat; [|reflexivity].
    destruct (fold_left _ _ _) as [[af minptr] wf].
    destruct (Qltb wf _); reflexivity.
Qed.

Lemma init_loop_mono (fuel : nat) (s : init_state) (r : flow init_state) :
  ind s <> 0%nat -> init_loop E fuel s = Some r ->
  grand_best s <= grand_best (flow_state r).
Proof.
  revert s. induction fuel as [|fuel IH]; intros s H0; simpl.
  - destruct (_ <? _)%nat; [discriminate|]. intros [= <-]. simpl. lra.
  - destruct (_ <? _)%nat; [|intros [= <-]; simpl; lra].
    pose proof (init_trial_mono s H0) as Hm.
    pose proof (init_trial_ind E s) as Hi.
    destruct (init_trial E s) as [s1|s1]; simpl in Hm, Hi.
    + intros Hrest. apply IH in Hrest; [lra | lia].
    + intros [= <-]. exact Hm.
Qed.

End GrandBest.

(** C5, as stated, fails during initialization: while the first
    individual is worthless it is drawn again, and each new draw overwrites
    the best so far with its own criterion.  On [Demo.Eneg] the first two
    trials score -1 and -4.5. *)
Lemma grand_best_regresses_counterexample :
  exists s1 s2,
    init_trial Demo.Eneg (init_start Demo.Eneg) = Next s1 /\
    init_trial Demo.Eneg s1 = Next s2 /\
    grand_best s1 == -1 /\ grand_best s2 == -(9#2) /\
    grand_best s2 < grand_best s1.
Proof.
  eexists. eexists. split; [vm_compute; reflexivity|].
  split; [vm_compute; reflexivity|].
  split; [reflexivity|]. split; reflexivity.
Qed.

(** C5, amended: once the first individual of the initial population has
    been accepted ([ind] is past 0), the score of the best so far never
    decreases: not in a later trial of the initializer, not in the rest of
    the initialization loop, not in a selection step, a hill-climbing
    step, a child or the whole main loop.  While the first individual is
    being drawn, each trial stores its own criterion as the best so far. *)
Theorem grand_best_monotone_after_first_individual (E : setup) :
  (forall s, ind s = 0%nat ->
     grand_best (flow_state (init_trial E s)) = trial_value E s) /\
  (forall s, ind s <> 0%nat ->
     grand_best s <= grand_best (flow_state (init_trial E s))) /\
  (forall fuel s r, ind s <> 0%nat -> init_loop E fuel s = Some r ->
     grand_best s <= grand_best (flow_state r)) /\
  (forall ind c, h_grand_best c <= h_grand_best (update_best ind c)) /\
  (forall ind mintrades parent1 dest_ptr s d,
     g_grand_best s <= h_grand_best (selection E ind mintrades parent1 dest_ptr s d)) /\
  (forall generation ind mintrades c,
     h_grand_best c <= h_grand_best (hill_climb E generation ind mintrades c)) /\
  (forall pfuel generation ind mintrades old_gen s s',
     child_step E pfuel generation ind mintrades old_gen s = Some s' ->
     g_grand_best s <= g_grand_best s') /\
  (forall fuel pfuel generation bad mintrades old_gen s s',
     evolve E fuel pfuel generation bad mintrades old_gen s = Some s' ->
     g_grand_best s <= g_grand_best s') /\
  (forall fuel fuel' pfuel s s' g,
     ind s <> 0%nat -> init_loop E fuel s = Some (Next s') ->
     evolve E fuel' pfuel 1 0 (local_mintrades s') (pop1 s') (enter_main E s') = Some g ->
     grand_best s <= g_grand_best g).
Proof.
  split; [apply init_trial_seed|].
  split; [apply init_trial_mono|].
  split; [apply init_loop_mono|].
  split; [apply update_best_mono|].
  split; [apply selection_mono|].
  split; [apply hill_climb_mono|].
  split; [apply child_step_mono|].
  split; [apply evolve_mono|].
  intros fuel fuel' pfuel s s' g H0 Hinit Hrun.
  apply (init_loop_mono E) in Hinit; [|exact H0]. apply evolve_mono in Hrun.
  simpl in Hinit, Hrun. lra.
Qed.

Lemma Emix_first_run :
  init_loop Demo.Emix 7 Demo.Emix_first = Some (Next Demo.Emix_init).
Proof. vm_compute. reflexivity. Qed.

Lemma grand_best_monotone_after_first_individual_witness :
  grand_best Demo.Emix_first <= grand_best Demo.Emix_init /\
  grand_best Demo.Emix_first <= g_grand_best Demo.Emix_last.
Proof.
  destruct (grand_best_monotone_after_first_individual Demo.Emix)
    as (_ & _ & Hloop & _ & _ & _ & _ & _ & Hrun).
  assert (ind Demo.Emix_first <> 0%nat) as H0 by (simpl; lia).
  split.
  - exact (Hloop 7%nat Demo.Emix_first (Next Demo.Emix_init) H0 Emix_first_run).
  - exact (Hrun 7%nat 10%nat 50%nat Demo.Emix_first Demo.Emix_init Demo.Emix_last
                H0 Emix_first_run Emix_last_run).
Defined.

(* ================================================================== *)
(** ** The partners of a child (lines 246-257) *)
(* ================================================================== *)

Lemma to_int_nonneg_val (x : Q) : 0 <= x -> (0 <= to_int x)%Z.
Proof. intros H. apply to_int_ge. exact H. Qed.

Lemma pick_spec (E : setup) (fuel : nat) (taken : list Z) (d d' : nat) (i : Z) :
  pick E fuel taken d = Some (i, d') ->
  (i < Z.of_nat (popsize E))%Z /\ ~ In i taken /\ (d < d')%nat /\
  i = to_int (unif E (d' - 1) * of_int (Z.of_nat (popsize E))).
Proof.
  revert d. induction fuel as [|fuel IH]; intros d; simpl; [discriminate|].
  destruct (_ || _) eqn:Hrej.
  - intros H. apply IH in H as (H1 & H2 & H3 & H4). repeat split; try assumption. lia.
  - intros [= <- <-]. apply orb_false_iff in Hrej as [Hlt Hex].
    apply Z.leb_gt in Hlt. split; [exact Hlt|]. split; [|split; [lia|]].
    + intros Hin. apply not_true_iff_false in Hex. apply Hex.
      apply existsb_exists. eexists. split; [exact Hin | apply Z.eqb_refl].
    + replace (S d - 1)%nat with d by lia. reflexivity.
Qed.

Lemma pick_nonneg (E : setup) (fuel : nat) (taken : list Z) (d d' : nat) (i : Z) :
  (forall n, 0 <= unif E n) ->
  pick E fuel taken d = Some (i, d') -> (0 <= i)%Z.
Proof.
  intros Hu H. apply pick_spec in H as (_ & _ & _ & ->).
  apply to_int_nonneg_val, Qmult_le_0_compat; [apply Hu|].
  change 0 with (of_int 0). apply (proj1 (of_int_le _ _)). lia.
Qed.

(** The three subscripts drawn for a child are subscripts of the
    population, differ from the child's own subscript and from one
    another. *)
Theorem partners_distinct (E : setup) (fuel ind d0 d1 d2 d3 : nat) (i j k : Z) :
  (forall n, 0 <= unif E n) ->
  pick E fuel [Z.of_nat ind] d0 = Some (i, d1) ->
  pick E fuel [Z.of_nat ind; i] d1 = Some (j, d2) ->
  pick E fuel [Z.of_nat ind; i; j] d2 = Some (k, d3) ->
  (Z.to_nat i < popsize E)%nat /\ (Z.to_nat j < popsize E)%nat /\
  (Z.to_nat k < popsize E)%nat /\
  Z.to_nat i <> ind /\ Z.to_nat j <> ind /\ Z.to_nat k <> ind /\
  Z.to_nat i <> Z.to_nat j /\ Z.to_nat i <> Z.to_nat k /\ Z.to_nat j <> Z.to_nat k /\
  (d0 < d1 < d2)%nat /\ (d2 < d3)%nat.
Proof.
  intros Hu Hi Hj Hk.
  pose proof (pick_nonneg E _ _ _ _ _ Hu Hi) as Hi0.
  pose proof (pick_nonneg E _ _ _ _ _ Hu Hj) as Hj0.
  pose proof (pick_nonneg E _ _ _ _ _ Hu Hk) as Hk0.
  apply pick_spec in Hi as (Hi1 & Hi2 & Hi3 & _).
  apply pick_spec in Hj as (Hj1 & Hj2 & Hj3 & _).
  apply pick_spec in Hk as (Hk1 & Hk2 & Hk3 & _).
  simpl in Hi2, Hj2, Hk2.
  repeat split; try lia.
Qed.

Lemma partners_distinct_witness :
  pick Demo.E 50 [0%Z] 8 = Some (2%Z, 9%nat) /\
  pick Demo.E 50 [0%Z; 2%Z] 9 = Some (3%Z, 14%nat) /\
  pick Demo.E 50 [0%Z; 2%Z; 3%Z] 14 = Some (1%Z, 15%nat) /\
  Z.to_nat 2 <> Z.to_nat 3 /\ Z.to_nat 2 <> Z.to_nat 1 /\ Z.to_nat 3 <> Z.to_nat 1.
Proof.
  assert (pick Demo.E 50 [Z.of_nat 0] 8 = Some (2%Z, 9%nat)) as H1
    by (vm_compute; reflexivity).
  assert (pick Demo.E 50 [Z.of_nat 0; 2%Z] 9 = Some (3%Z, 14%nat)) as H2
    by (vm_compute; reflexivity).
  assert (pick Demo.E 50 [Z.of_nat 0; 2%Z; 3%Z] 14 = Some (1%Z, 15%nat)) as H3
    by (vm_compute; reflexivity).
  destruct (partners_distinct Demo.E 50 0 8 9 14 15 2 3 1
              (fun n => proj1 (cycle_range n)) H1 H2 H3)
    as (_ & _ & _ & _ & _ & _ & Hij & Hik & Hjk & _).
  split; [exact H1|]. split; [exact H2|]. split; [exact H3|].
  split; [exact Hij|]. split; [exact Hik | exact Hjk].
Defined.

(** With fewer than four individuals there are no three such partners:
    the loops of lines 246-253 never end, and no child is produced. *)
Theorem no_child_below_four (E : setup) (pfuel generation ind : nat) (mintrades : Z)
        (old_gen : list row) (s : gen_state) :
  (forall n, 0 <= unif E n) ->
  (popsize E <= 3)%nat -> (ind < popsize E)%nat ->
  child_step E pfuel generation ind mintrades old_gen s = None.
Proof.
  intros Hu Hp Hind. unfold child_step.
  destruct (pick E pfuel _ (g_draws s)) as [[i d1]|] eqn:Hi; simpl; [|reflexivity].
  destruct (pick E pfuel _ d1) as [[j d2]|] eqn:Hj; simpl; [|reflexivity].
  destruct (pick E pfuel _ d2) as [[k d3]|] eqn:Hk; simpl; [|reflexivity].
  exfalso.
  pose proof (pick_nonneg E _ _ _ _ _ Hu Hi) as Hi0.
  pose proof (pick_nonneg E _ _ _ _ _ Hu Hj) as Hj0.
  pose proof (pick_nonneg E _ _ _ _ _ Hu Hk) as Hk0.
  apply pick_spec in Hi as (Hi1 & Hi2 & _).
  apply pick_spec in Hj as (Hj1 & Hj2 & _).
  apply pick_spec in Hk as (Hk1 & Hk2 & _).
  simpl in Hi2, Hj2, Hk2. lia.
Qed.

Lemma no_child_below_four_witness :
  child_step Small.E3 100 1 0 1 Small.gen3
             (mkGen Small.gen3 [0; 1; 99] 99 0 0 6 2 0 false) = None.
Proof.
  apply no_child_below_four.
  - intros n. apply cycle_range.
  - simpl. lia.
  - simpl. lia.
Defined.

(* ================================================================== *)
(** ** The scans of the population (lines 179-188 and 206-214) *)
(* ================================================================== *)

Section Scans.

Variable f : nat -> Q.

Lemma best_scan (n a : nat) (v : Q) (ib : nat) :
  (ib < a)%nat -> v = f ib ->
  (forall i, (i < a)%nat -> f i <= f ib) ->
  (forall i, (i < ib)%nat -> f i < f ib) ->
  let r := fold_left
             (fun (st : Q * nat) i =>
                let '(value, ib) := st in
                if Qltb value (f i) then (f i, i) else (value, ib))
             (seq a n) (v, ib) in
  fst r = f (snd r) /\ (snd r < a + n)%nat /\
  (forall i, (i < a + n)%nat -> f i <= f (snd r)) /\
  (forall i, (i < snd r)%nat -> f i < f (snd r)).
Proof.
  revert a v ib. induction n as [|n IH]; intros a v ib Hib Hv Hall Hfirst; simpl.
  - split; [exact Hv|]. split; [lia|]. split; [|exact Hfirst].
    intros i Hi. apply Hall. lia.
  - subst v. cmp (f ib) (f a).
    + destruct (IH (S a) (f a) a) as (H1 & H2 & H3 & H4); [lia | reflexivity | | |].
      * intros i Hi. destruct (decide (i = a)) as [->|Hne]; [lra|].
        specialize (Hall i ltac:(lia)). lra.
      * intros i Hi. specialize (Hall i Hi). lra.
      * split; [exact H1|]. split; [lia|]. split; [|exact H4].
        intros i Hi. apply H3. lia.
    + destruct (IH (S a) (f ib) ib) as (H1 & H2 & H3 & H4); [lia | reflexivity | | |].
      * intros i Hi. destruct (decide (i = a)) as [->|Hne]; [exact Hcmp|].
        apply Hall. lia.
      * exact Hfirst.
      * split; [exact H1|]. split; [lia|]. split; [|exact H4].
        intros i Hi. apply H3. lia.
Qed.

Lemma worst_scan (n a : nat) (af : Q) (m : nat) (w : Q) :
  (1 <= a)%nat -> (m < a)%nat -> w = f m ->
  (forall i, (i < a)%nat -> f m <= f i) ->
  (forall i, (i < m)%nat -> f m < f i) ->
  let r := fold_left
             (fun (st : Q * nat * Q) i =>
                let '(avgf, minptr, worstf) := st in
                if (i =? 0)%nat || Qltb (f i) worstf
                then (avgf + f i, i, f i) else (avgf + f i, minptr, worstf))
             (seq a n) (af, m, w) in
  snd r = f (snd (fst r)) /\ (snd (fst r) < a + n)%nat /\
  (forall i, (i < a + n)%nat -> f (snd (fst r)) <= f i) /\
  (forall i, (i < snd (fst r))%nat -> f (snd (fst r)) < f i) /\
  fst (fst r) == af + Qsum (map f (seq a n)).
Proof.
  revert a af m w. induction n as [|n IH]; intros a af m w Ha Hm Hw Hall Hfirst; simpl.
  - split; [exact Hw|]. split; [lia|]. split; [|split; [exact Hfirst|]].
    + intros i Hi. apply Hall. lia.
    + unfold Qsum; simpl. ring.
  - subst w. replace (a =? 0)%nat with false by (symmetry; apply Nat.eqb_neq; lia).
    simpl orb. cmp (f a) (f m).
    + destruct (IH (S a) (af + f a) a (f a)) as (H1 & H2 & H3 & H4 & H5);
        [lia | lia | reflexivity | | |].
      * intros i Hi. destruct (decide (i = a)) as [->|Hne]; [lra|].
        specialize (Hall i ltac:(lia)). lra.
      * intros i Hi. specialize (Hall i Hi). lra.
      * split; [exact H1|]. split; [lia|]. split; [|split; [exact H4|]].
        -- intros i Hi. apply H3. lia.
        -- rewrite H5. ring.
    + destruct (IH (S a) (af + f a) m (f m)) as (H1 & H2 & H3 & H4 & H5);
        [lia | lia | reflexivity | | |].
      * intros i Hi. destruct (decide (i = a)) as [->|Hne]; [exact Hcmp|].
        apply Hall. lia.
      * exact Hfirst.
      * split; [exact H1|]. split; [lia|]. split; [|split; [exact H4|]].
        -- intros i Hi. apply H3. lia.
        -- rewrite H5. ring.
Qed.

End Scans.

Lemma draw_params_from_length (E : setup) (n a : nat) (popptr : row) (d : nat) :
  let r := fold_left (fun st i => draw_param E i st) (seq a n) (popptr, d) in
  length (fst r) = length popptr /\ snd r = (d + n)%nat.
Proof.
  revert a popptr d. induction n as [|n IH]; intros a popptr d; simpl.
  - split; [reflexivity | lia].
  - assert (exists x, draw_param E a (popptr, d) = (<[a := x]> popptr, S d)) as [x ->].
    { unfold draw_param. cbv zeta. destruct (a <? nints E)%nat; eexists; reflexivity. }
    destruct (IH (S a) (<[a := x]> popptr) (S d)) as [Hl Hd].
    rewrite length_insert in Hl. split; [exact Hl | lia].
Qed.

(** After the loop of lines 206-214 [ibest] is the subscript of the first
    member of pop1 whose criterion is the largest. *)
Theorem find_ibest_first_largest (E : setup) (pop : list row) :
  (1 <= popsize E)%nat ->
  let b := find_ibest E pop in
  (b < popsize E)%nat /\
  (forall i, (i < popsize E)%nat -> score_of E (pop !!! i) <= score_of E (pop !!! b)) /\
  (forall i, (i < b)%nat -> score_of E (pop !!! i) < score_of E (pop !!! b)).
Proof.
  intros Hp b.
  destruct (best_scan (fun i => (pop !!! i) !!! nvars E) (popsize E - 1) 1
                      ((pop !!! 0%nat) !!! nvars E) 0)
    as (_ & H2 & H3 & H4); [lia | reflexivity | | |].
  - intros i Hi. replace i with 0%nat by lia. lra.
  - intros i Hi. lia.
  - fold (find_ibest E pop) in H2, H3, H4. fold b in H2, H3, H4.
    unfold score_of. split; [lia|]. split; [|exact H4].
    intros i Hi. apply H3. lia.
Qed.

Lemma find_ibest_first_largest_witness :
  (find_ibest Demo.Emix (pop1 Demo.Emix_init) < 4)%nat /\
  forall i, (i < 4)%nat ->
    score_of Demo.Emix (pop1 Demo.Emix_init !!! i)
    <= score_of Demo.Emix
         (pop1 Demo.Emix_init !!! find_ibest Demo.Emix (pop1 Demo.Emix_init)).
Proof.
  destruct (find_ibest_first_largest Demo.Emix (pop1 Demo.Emix_init))
    as (H1 & H2 & _); [simpl; lia|].
  split; [exact H1 | exact H2].
Defined.

Lemma scan_pop (E : setup) (pop : list row) (wf0 : Q) :
  (1 <= popsize E)%nat ->
  let r := fold_left (fun st i => scan_worst E pop i st) (seq 0 (popsize E))
                     (0, 0%nat, wf0) in
  snd r = score_of E (pop !!! snd (fst r)) /\ (snd (fst r) < popsize E)%nat /\
  (forall i, (i < popsize E)%nat ->
     score_of E (pop !!! snd (fst r)) <= score_of E (pop !!! i)) /\
  (forall i, (i < snd (fst r))%nat ->
     score_of E (pop !!! snd (fst r)) < score_of E (pop !!! i)) /\
  fst (fst r) == Qsum (map (fun i => score_of E (pop !!! i)) (seq 0 (popsize E))).
Proof.
  intros Hp. destruct (popsize E) as [|n] eqn:Hn; [lia|].
  simpl seq. simpl fold_left.
  destruct (worst_scan (fun i => score_of E (pop !!! i)) n 1
                       (0 + score_of E (pop !!! 0%nat)) 0 (score_of E (pop !!! 0%nat)))
    as (H1 & H2 & H3 & H4 & H5); [lia | lia | reflexivity | | |].
  - intros i Hi. replace i with 0%nat by lia. lra.
  - intros i Hi. lia.
  - split; [exact H1|]. split; [exact H2|]. split; [exact H3|]. split; [exact H4|].
    rewrite H5. simpl map. rewrite Qsum_cons. ring.
Qed.

(** Over-initialization (lines 178-193): a valid trial beyond [popsize]
    replaces the first worst member of pop1 when it is strictly better, and
    nothing otherwise; pop1 keeps its size, and [worstf] is left holding
    the criterion of that worst member. *)
Theorem overinit_replaces_first_worst (E : setup) (s : init_state) :
  init_inv E s ->
  (1 <= popsize E)%nat -> (popsize E <= ind s)%nat ->
  0 < trial_value E s ->
  let trial := <[nvars E := trial_value E s]> (fst (draw_trial E s)) in
  exists s' m,
    init_trial E s = Next s' /\ ind s' = S (ind s) /\ (m < popsize E)%nat /\
    (forall i, (i < popsize E)%nat ->
       score_of E (pop1 s !!! m) <= score_of E (pop1 s !!! i)) /\
    (forall i, (i < m)%nat -> score_of E (pop1 s !!! m) < score_of E (pop1 s !!! i)) /\
    (score_of E (pop1 s !!! m) < trial_value E s -> pop1 s' = <[m := trial]> (pop1 s)) /\
    (trial_value E s <= score_of E (pop1 s !!! m) -> pop1 s' = pop1 s) /\
    length (pop1 s') = popsize E /\
    worstf s' = score_of E (pop1 s !!! m).
Proof.
  intros (L1 & L2 & F1 & F2 & _) Hp Hover Hv trial.
  assert (score_of E trial = trial_value E s) as Htrial.
  { unfold score_of, trial, draw_trial. apply list_lookup_total_insert_eq.
    destruct (draw_params_from_length E (nvars E) 0
                (if (ind s <? popsize E)%nat then pop1 s !!! ind s else pop2 s !!! 0%nat)
                (draws s)) as [Hl _].
    fold (draw_params E (if (ind s <? popsize E)%nat then pop1 s !!! ind s
                         else pop2 s !!! 0%nat) (draws s)) in Hl.
    rewrite Hl. apply Nat.ltb_ge in Hover. rewrite Hover.
    pose proof (Forall_lookup_total_row _ _ 0 F2 ltac:(lia)) as Hok.
    unfold row_ok in Hok. lia. }
  unfold init_trial. cbv zeta. fold trial.
  apply Qle_bool_gt in Hv. rewrite Hv.
  assert ((ind s <? popsize E)%nat = false) as Hin by (apply Nat.ltb_ge; exact Hover).
  rewrite Hin.
  destruct (if Qltb _ _ then _ else _) as [bst gb].
  assert ((popsize E <=? ind s)%nat = true) as Hov by (apply Nat.leb_le; exact Hover).
  rewrite Hov.
  match goal with |- context [fold_left _ _ (0, 0%nat, ?w)] =>
    destruct (scan_pop E (pop1 s) w Hp) as (H1 & H2 & H3 & H4 & H5) end.
  destruct (fold_left _ _ _) as [[af m] wf]. simpl in H1, H2, H3, H4, H5. subst wf.
  cmp (score_of E (pop1 s !!! m)) (trial_value E s).
  - eexists. exists m. split; [reflexivity|]. simpl.
    split; [reflexivity|]. split; [exact H2|]. split; [exact H3|]. split; [exact H4|].
    split; [reflexivity|]. split; [intros; lra|].
    split; [rewrite length_insert; exact L1 | reflexivity].
  - eexists. exists m. split; [reflexivity|]. simpl.
    split; [reflexivity|]. split; [exact H2|]. split; [exact H3|]. split; [exact H4|].
    split; [intros; lra|]. split; [reflexivity|]. split; [exact L1 | reflexivity].
Qed.

Lemma init_steps_inv (E : setup) (P : init_state -> Prop) :
  P (init_start E) ->
  (forall s, P s -> P (flow_state (init_trial E s))) ->
  forall n, P (flow_state (init_steps E n (init_start E))).
Proof.
  intros H0 Hstep n.
  assert (forall s, P s -> P (flow_state (init_steps E n s))) as H.
  { induction n as [|n IH]; intros s Hs; simpl; [exact Hs|].
    specialize (Hstep s Hs). destruct (init_trial E s) as [s1|s1]; simpl in Hstep.
    - apply IH, Hstep.
    - exact Hstep. }
  apply H, H0.
Qed.

Lemma Emix_full_run :
  flow_state (init_steps Demo.Emix 4 (init_start Demo.Emix)) = Small.Emix_full.
Proof. vm_compute. reflexivity. Qed.

Lemma overinit_replaces_first_worst_witness :
  exists s' m,
    init_trial Demo.Emix Small.Emix_full = Next s' /\
    (m < 4)%nat /\
    (forall i, (i < 4)%nat ->
       score_of Demo.Emix (pop1 Small.Emix_full !!! m)
       <= score_of Demo.Emix (pop1 Small.Emix_full !!! i)) /\
    length (pop1 s') = 4%nat.
Proof.
  assert (init_inv Demo.Emix Small.Emix_full) as Hinv.
  { rewrite <- Emix_full_run.
    apply (init_steps_inv Demo.Emix (init_inv Demo.Emix)).
    - apply init_start_inv.
    - apply init_trial_inv, Emix_well_formed. }
  destruct (overinit_replaces_first_worst Demo.Emix Small.Emix_full Hinv)
    as (s' & m & Ht & _ & Hm & Hworst & _ & _ & _ & Hlen & _);
    [simpl; lia | simpl; lia | vm_compute; reflexivity |].
  exists s', m. split; [exact Ht|]. split; [exact Hm|]. split; [exact Hworst | exact Hlen].
Defined.

(* ================================================================== *)
(** ** The search interval of the real branch (lines 413-422) *)
(* ================================================================== *)



(* ================================================================== *)
(** ** The counters of the initialization loop (lines 96-142) *)
(* ================================================================== *)

Lemma reduce_mintrades_range (m : Z) :
  (1 <= m)%Z -> (m * 9 <= INT_MAX)%Z ->
  (1 <= reduce_mintrades m <= m)%Z /\ ((2 <= m)%Z -> (reduce_mintrades m < m)%Z).
Proof.
  intros H1 H9. rewrite reduce_mintrades_floor by (unfold INT_MIN; lia).
  assert (m * 9 / 10 < m)%Z by (apply Z.div_lt_upper_bound; lia).
  lia.
Qed.

Lemma draw_trial_draws (E : setup) (s : init_state) :
  snd (draw_trial E s) = (draws s + nvars E)%nat.
Proof.
  unfold draw_trial, draw_params. apply (draw_params_from_length E (nvars E) 0).
Qed.

Lemma init_trial_counters (E : setup) (s : init_state) :
  (1 <= mintrd E)%Z -> (mintrd E * 9 <= INT_MAX)%Z ->
  counters_ok E s -> counters_ok E (flow_state (init_trial E s)).
Proof.
  intros Hm1 Hm9 (Hf & Hmt & Hind & Hfn & Hd).
  destruct (reduce_mintrades_range (local_mintrades s) ltac:(lia) ltac:(lia)) as [Hr _].
  assert (Z.of_nat (snd (draw_trial E s)) = (Z.of_nat (nvars E) * (n_evals s + 1))%Z) as Hd'.
  { rewrite draw_trial_draws. nia. }
  unfold init_trial. cbv zeta.
  destruct (Qle_bool _ 0).
  - destruct (Z.ltb_spec (max_evals E) (n_evals s + 1));
      [|destruct (Z.leb_spec 500 (failures s + 1))]; unfold counters_ok; simpl;
        repeat split; try lia; exact Hd'.
  - destruct (if Qltb _ _ then _ else _) as [bst gb].
    destruct (_ <=? _)%nat.
    + destruct (fold_left _ _ _) as [[af minptr] wf].
      destruct (Qltb wf _); unfold counters_ok; simpl; repeat split; try lia; exact Hd'.
    + unfold counters_ok; simpl; repeat split; try lia; exact Hd'.
Qed.

Lemma init_steps_evals (E : setup) (n : nat) (s : init_state) :
  (n_evals (flow_state (init_steps E n s)) <= n_evals s + Z.of_nat n)%Z.
Proof.
  revert s. induction n as [|n IH]; intros s; simpl; [lia|].
  pose proof (init_trial_count E s) as He.
  destruct (init_trial E s) as [s1|s1]; simpl in He |- *.
  - specialize (IH s1). lia.
  - lia.
Qed.

(** After [n] iterations of the initialization loop, with [n] within the
    range of [int], the count of evaluations is at most [n], so it has not
    overflowed; the failure counter is below 500, the minimum-trade
    threshold lies between 1 and the one the caller gave, every accepted
    individual and every failure has cost an evaluation, and every
    evaluation has drawn [nvars] random numbers. *)
Theorem counters_along_initialization (E : setup) (n : nat) :
  (1 <= mintrd E)%Z -> (mintrd E * 9 <= INT_MAX)%Z ->
  (Z.of_nat n <= INT_MAX)%Z ->
  let s := flow_state (init_steps E n (init_start E)) in
  counters_ok E s /\ (n_evals s <= Z.of_nat n)%Z /\ (n_evals s <= INT_MAX)%Z.
Proof.
  intros Hm1 Hm9 Hn s.
  pose proof (init_steps_evals E n (init_start E)) as He. fold s in He. simpl in He.
  split; [|lia].
  apply (init_steps_inv E (counters_ok E)).
  - unfold counters_ok, init_start; simpl. lia.
  - intros s0. apply init_trial_counters; assumption.
Qed.

Lemma counters_along_initialization_witness :
  counters_ok Demo.Ezero (flow_state (init_steps Demo.Ezero 500 (init_start Demo.Ezero))).
Proof.
  apply counters_along_initialization; vm_compute; discriminate.
Defined.

(* ================================================================== *)
(** ** More on ensure_legal and c_func (lines 521-563) *)
(* ================================================================== *)

Lemma overshoot_nonneg (lo hi y : Q) :
  0 <= overshoot lo hi y /\ (overshoot lo hi y == 0 <-> lo <= y /\ y <= hi).
Proof.
  unfold overshoot. cmp hi y; [|cmp y lo]; split; try lra; split; intros; try lra.
Qed.

Lemma big_penalty_pos : 0 < big_penalty.
Proof. reflexivity. Qed.

Lemma Qsum_nonneg (l : list Q) : Forall (fun x => 0 <= x) l -> 0 <= Qsum l.
Proof.
  induction 1 as [|x l Hx _ IH]; [unfold Qsum; simpl; lra|].
  rewrite Qsum_cons. lra.
Qed.

Lemma Qsum_zero (l : list Q) :
  Forall (fun x => 0 <= x) l -> (Qsum l == 0 <-> Forall (fun x => x == 0) l).
Proof.
  induction 1 as [|x l Hx Hl IH].
  - split; [constructor | reflexivity].
  - rewrite Qsum_cons. pose proof (Qsum_nonneg l Hl). split.
    + intros Hs. constructor; [lra|]. apply IH. lra.
    + intros Hall. inversion Hall as [|? ? H1 H2]; subst. apply IH in H2. lra.
Qed.

(** On values that can be rounded as the code does it (integer
    dimensions of magnitude at most [INT_MAX], and not the double next
    below 0.5), the penalty of [ensure_legal] is never negative, and it is
    zero exactly when no dimension had to be clamped: every value, rounded
    if it is an integer dimension, already lay within its bounds. *)
Theorem ensure_legal_penalty_zero_iff
        (nvars nints : nat) (low_bounds high_bounds params : list Q) :
  (nvars <= length params)%nat ->
  (forall i, (i < nvars)%nat -> low_bounds !!! i <= high_bounds !!! i) ->
  roundable nvars nints params ->
  let r := ensure_legal nvars nints low_bounds high_bounds params in
  0 <= fst r /\
  (fst r == 0 <->
   forall i, (i < nvars)%nat ->
     low_bounds !!! i <= rounded nints i (params !!! i) /\
     rounded nints i (params !!! i) <= high_bounds !!! i) /\
  (fst r == 0 ->
   forall i, (i < nvars)%nat -> snd r !!! i = rounded nints i (params !!! i)) /\
  (forall i, (i < nvars)%nat -> (i < nints)%nat ->
     (INT_MIN <= round_half_away (params !!! i) <= INT_MAX)%Z).
Proof.
  intros Hlen Hb Hr r.
  destruct (legalize_from nints low_bounds high_bounds nvars 0 0 params)
    as (_ & Hin & _ & Hsum); [lia | intros; apply Hb; lia |].
  fold (ensure_legal nvars nints low_bounds high_bounds params) in Hin, Hsum.
  fold r in Hin, Hsum.
  set (term := fun i => big_penalty *
                 overshoot (low_bounds !!! i) (high_bounds !!! i)
                           (rounded nints i (params !!! i))) in *.
  assert (Forall (fun x => 0 <= x) (map term (seq 0 nvars))) as Hnn.
  { apply Forall_forall. intros x Hx. apply list_elem_of_In in Hx.
    apply in_map_iff in Hx as (i & <- & _). unfold term.
    apply Qmult_le_0_compat; [apply Qlt_le_weak, big_penalty_pos|].
    apply overshoot_nonneg. }
  assert (fst r == 0 <->
          forall i, (i < nvars)%nat ->
            low_bounds !!! i <= rounded nints i (params !!! i) /\
            rounded nints i (params !!! i) <= high_bounds !!! i) as Hiff.
  { rewrite Hsum, Qplus_0_l, (Qsum_zero _ Hnn). split.
    - intros Hall i Hi. rewrite Forall_forall in Hall.
      assert (term i == 0) as Hz.
      { apply Hall. apply list_elem_of_In, in_map, in_seq. lia. }
      unfold term in Hz. apply overshoot_nonneg.
      pose proof big_penalty_pos.
      destruct (overshoot_nonneg (low_bounds !!! i) (high_bounds !!! i)
                                 (rounded nints i (params !!! i))) as [H0 _].
      destruct (Qlt_le_dec 0 (overshoot (low_bounds !!! i) (high_bounds !!! i)
                                        (rounded nints i (params !!! i)))) as [Hpos|Hle];
        [|lra].
      pose proof (Qmult_lt_0_compat _ _ H Hpos). lra.
    - intros Hall. apply Forall_forall. intros x Hx. apply list_elem_of_In in Hx.
      apply in_map_iff in Hx as (i & <- & Hi). apply in_seq in Hi. unfold term.
      assert (overshoot (low_bounds !!! i) (high_bounds !!! i)
                        (rounded nints i (params !!! i)) == 0) as ->
          by (apply overshoot_nonneg, Hall; lia).
      ring. }
  split; [rewrite Hsum, Qplus_0_l; apply Qsum_nonneg, Hnn|].
  split; [exact Hiff|].
  split; [|intros i Hi Hn; apply round_half_away_range, (Hr i Hi Hn)].
  intros Hz i Hi. rewrite Hin by lia. destruct (proj1 Hiff Hz i Hi) as [H1 H2].
  unfold clamp.
  cmp (high_bounds !!! i) (rounded nints i (params !!! i)); [lra|].
  cmp (rounded nints i (params !!! i)) (low_bounds !!! i); [lra|]. reflexivity.
Qed.

Lemma ensure_legal_penalty_zero_iff_witness :
  0 <= fst (ensure_legal 2 1 [0; 0] [5; 5] [21#4; 6]).
Proof.
  apply (ensure_legal_penalty_zero_iff 2 1 [0; 0] [5; 5] [21#4; 6]).
  - simpl. lia.
  - intros i Hi. destruct i as [|[|i]]; [discriminate | discriminate | simpl in Hi; lia].
  - intros i Hi Hn. destruct i as [|i]; [|lia].
    split; [split; discriminate | right; discriminate].
Defined.

(** In a well-formed setup whose integer bounds have magnitude at most
    [INT_MAX], a second pass of [ensure_legal] over its own output finds
    nothing to change and charges no penalty; the values it converts are
    in the range of [int]. *)
Theorem ensure_legal_idempotent (E : setup) (x : row) :
  well_formed E -> row_ok E x ->
  (forall i, (i < nints E)%nat ->
     int_sized (low_bounds E !!! i) /\ int_sized (high_bounds E !!! i)) ->
  let y := snd (ensure_legal (nvars E) (nints E) (low_bounds E) (high_bounds E) x) in
  ensure_legal (nvars E) (nints E) (low_bounds E) (high_bounds E) y = (0, y) /\
  forall i, (i < nints E)%nat -> (INT_MIN <= round_half_away (y !!! i) <= INT_MAX)%Z.
Proof.
  intros Hwf Hx Hs y. destruct (legalize_legal E Hwf x Hx) as (_ & Hb & Hw).
  fold y in Hb, Hw. split.
  - unfold ensure_legal. apply legalize_noop_from.
    intros i Hi. destruct (Hb i ltac:(lia)) as [H1 H2].
    split; [exact H1|]. split; [exact H2|]. intros Hn. apply Hw; [lia | exact Hn].
  - intros i Hi. pose proof (wf_nints E Hwf) as Hn.
    destruct (Hb i ltac:(lia)) as [H1 H2].
    destruct (Hs i Hi) as [[H3 _] [_ H4]].
    apply round_half_away_range. split; lra.
Qed.

Lemma ensure_legal_idempotent_witness :
  ensure_legal 2 1 [-5; -5] [5; 5]
               (snd (ensure_legal 2 1 [-5; -5] [5; 5] [27#4; -(1#4); 0]))
  = (0, snd (ensure_legal 2 1 [-5; -5] [5; 5] [27#4; -(1#4); 0])).
Proof.
  apply (ensure_legal_idempotent Demo.Emix [27#4; -(1#4); 0] Emix_well_formed).
  - reflexivity.
  - intros i Hi. simpl in Hi. destruct i as [|i]; [|lia].
    split; split; discriminate.
Defined.

(* ================================================================== *)
(** ** c_func on a legal candidate (lines 556-563) *)
(* ================================================================== *)




(* ================================================================== *)
(** ** More on the crossover (lines 269-282) *)
(* ================================================================== *)

Section CrossoverMore.

Variable E : setup.
Variables parent1 parent2 diff1 diff2 : row.

Lemma cross_loop_visited (i1 j : nat) (used : bool) (dest_ptr : row) (d t : nat) :
  (i1 <= nvars E)%nat -> (j < nvars E)%nat -> (nvars E <= length dest_ptr)%nat ->
  (t < i1)%nat ->
  let r := fst (fst (cross_loop E i1 parent1 parent2 diff1 diff2 j used dest_ptr d)) in
  r !!! ((j + t) mod nvars E)%nat = parent1 !!! ((j + t) mod nvars E)%nat \/
  r !!! ((j + t) mod nvars E)%nat
  = mutated E parent2 diff1 diff2 ((j + t) mod nvars E)%nat.
Proof.
  revert j used dest_ptr d t.
  induction i1 as [|i IH]; intros j used dest_ptr d t Hi Hj Hlen Ht; [lia|].
  assert ((j + 1) mod nvars E < nvars E)%nat as Hj' by (apply Nat.mod_upper_bound; lia).
  cbv zeta. rewrite cross_loop_step. cbv zeta.
  destruct t as [|t].
  - rewrite Nat.add_0_r, Nat.mod_small by lia.
    rewrite cross_loop_frame.
    + destruct (if (i =? 0)%nat && negb used then true else Qltb (unif E d) (pcross E));
        [right | left]; apply list_lookup_total_insert_eq; lia.
    + exact Hj'.
    + intros t Ht'. rewrite rot_next. intros Heq. symmetry in Heq.
      revert Heq. apply rot_small; lia.
  - rewrite <- rot_next. apply IH; try lia.
    destruct (if (i =? 0)%nat && negb used then true else Qltb (unif E d) (pcross E));
      rewrite length_insert; lia.
Qed.

Lemma rot_onto (n j x : nat) :
  (j < n)%nat -> (x < n)%nat -> exists t, (t < n)%nat /\ x = ((j + t) mod n)%nat.
Proof.
  intros Hj Hx. exists ((x + n - j) mod n)%nat. split; [apply Nat.mod_upper_bound; lia|].
  rewrite Nat.Div0.add_mod_idemp_r.
  replace (j + (x + n - j))%nat with (x + 1 * n)%nat by lia.
  rewrite Nat.Div0.mod_add, Nat.mod_small; lia.
Qed.

(** With [pcross >= 1] every subscript visited is mutated. *)
Lemma cross_loop_pcross1 (i1 j : nat) (used : bool) (dest_ptr : row) (d t : nat) :
  (forall n, unif E n < 1) -> 1 <= pcross E ->
  (i1 <= nvars E)%nat -> (j < nvars E)%nat -> (nvars E <= length dest_ptr)%nat ->
  (t < i1)%nat ->
  fst (fst (cross_loop E i1 parent1 parent2 diff1 diff2 j used dest_ptr d))
  !!! ((j + t) mod nvars E)%nat
  = mutated E parent2 diff1 diff2 ((j + t) mod nvars E)%nat.
Proof.
  intros Hu Hp. revert j used dest_ptr d t.
  induction i1 as [|i IH]; intros j used dest_ptr d t Hi Hj Hlen Ht; [lia|].
  assert ((j + 1) mod nvars E < nvars E)%nat as Hj' by (apply Nat.mod_upper_bound; lia).
  rewrite cross_loop_step. cbv zeta.
  assert ((if (i =? 0)%nat && negb used then true else Qltb (unif E d) (pcross E)) = true)
    as ->.
  { destruct (_ && _); [reflexivity|]. apply Qltb_lt. specialize (Hu d). lra. }
  destruct t as [|t].
  - rewrite Nat.add_0_r, Nat.mod_small by lia.
    rewrite cross_loop_frame.
    + apply list_lookup_total_insert_eq. lia.
    + exact Hj'.
    + intros t Ht'. rewrite rot_next. intros Heq. symmetry in Heq.
      revert Heq. apply rot_small; lia.
  - rewrite <- rot_next. apply IH; try lia. rewrite length_insert. lia.
Qed.

End CrossoverMore.

(** Every parameter of a child comes from [parent1] or is the mutated
    value; the criterion slot of the destination is not written; and with
    [pcross >= 1] every parameter is the mutated value. *)
Theorem crossover_takes_parent_or_mutated
        (E : setup) (parent1 parent2 diff1 diff2 dest_ptr : row) (j d : nat) :
  (j < nvars E)%nat -> (nvars E <= length dest_ptr)%nat ->
  let child := fst (fst (crossover E parent1 parent2 diff1 diff2 j dest_ptr d)) in
  length child = length dest_ptr /\
  (forall i, (i < nvars E)%nat ->
     child !!! i = parent1 !!! i \/
     child !!! i = parent2 !!! i + mutate_dev E * (diff1 !!! i - diff2 !!! i)) /\
  (forall i, (nvars E <= i)%nat -> child !!! i = dest_ptr !!! i) /\
  ((forall n, unif E n < 1) -> 1 <= pcross E ->
   forall i, (i < nvars E)%nat ->
     child !!! i = parent2 !!! i + mutate_dev E * (diff1 !!! i - diff2 !!! i)).
Proof.
  intros Hj Hlen child. split; [apply cross_loop_length|]. split; [|split].
  - intros i Hi. destruct (rot_onto (nvars E) j i Hj Hi) as (t & Ht & ->).
    apply cross_loop_visited; (lia || assumption).
  - intros i Hi. apply cross_loop_frame; [exact Hj|].
    intros t Ht Heq.
    pose proof (Nat.mod_upper_bound (j + t) (nvars E) ltac:(lia)). lia.
  - intros Hu Hp i Hi. destruct (rot_onto (nvars E) j i Hj Hi) as (t & Ht & ->).
    apply cross_loop_pcross1; (lia || assumption).
Qed.

Lemma crossover_takes_parent_or_mutated_witness :
  let child := fst (fst (crossover Small.Efull [1; 2; 90] [3; 1; 80] [2; 2; 70] [1; 0; 60]
                                   1 [9; 9; 9] 4)) in
  child !!! 2%nat = 9 /\
  forall i, (i < 2)%nat ->
    child !!! i = [3; 1; 80] !!! i
                  + mutate_dev Small.Efull * ([2; 2; 70] !!! i - [1; 0; 60] !!! i).
Proof.
  intros child.
  destruct (crossover_takes_parent_or_mutated Small.Efull
              [1; 2; 90] [3; 1; 80] [2; 2; 70] [1; 0; 60] [9; 9; 9] 1 4)
    as (_ & _ & Hslot & Hall); [simpl; lia | simpl; lia |].
  split.
  - apply (Hslot 2%nat). simpl. lia.
  - apply Hall; [intros n; apply cycle_range | discriminate].
Defined.

(* ================================================================== *)
(** ** The stored criteria *)
(* ================================================================== *)

Section StoredScores.

Variable E : setup.
Hypothesis Hwf : well_formed E.
Hypothesis Hpop : (1 <= popsize E)%nat.

Lemma evaluate_score_slot (r : row) (v : Q) (mintrades : Z) :
  evaluate E (<[nvars E := v]> r) mintrades = evaluate E r mintrades.
Proof. unfold evaluate. rewrite take_insert_ge by lia. reflexivity. Qed.

Lemma init_scores_mk (i : nat) (p1 p2 : list row) (b : row) (gb wf af : Q)
      (mt f n : Z) (d : nat) :
  (forall j, (j < i)%nat -> (j < popsize E)%nat ->
     0 < score_of E (p1 !!! j) /\ score_of E (p1 !!! j) <= gb /\
     exists mintrades, score_of E (p1 !!! j) = evaluate E (p1 !!! j) mintrades) ->
  ((1 <= i)%nat -> best_ok E b gb) ->
  init_scores E (mkInit i p1 p2 b gb wf af mt f n d).
Proof. intros. unfold init_scores; simpl. tauto. Qed.

Lemma init_trial_scores (s : init_state) :
  init_inv E s -> init_scores E s -> init_scores E (flow_state (init_trial E s)).
Proof.
  intros Hinv [Hmem Hbest].
  pose proof (trial_legal E Hwf s Hinv (or_intror Hpop)) as Hlegal.
  destruct Hinv as (L1 & L2 & F1 & F2 & _).
  unfold init_trial. cbv zeta.
  set (v := trial_value E s) in *.
  set (trial := <[nvars E := v]> (fst (draw_trial E s))) in *.
  assert (score_of E trial = v) as Hsc.
  { unfold score_of, trial. apply list_lookup_total_insert_eq.
    destruct Hlegal as (Hl & _). unfold trial in Hl. rewrite length_insert in Hl. lia. }
  assert (score_of E trial = evaluate E trial (local_mintrades s)) as Hfresh.
  { rewrite Hsc. unfold trial. rewrite evaluate_score_slot. reflexivity. }
  set (p1 := if (ind s <? popsize E)%nat then <[ind s := trial]> (pop1 s) else pop1 s).
  assert (forall i, (i < ind s)%nat -> p1 !!! i = pop1 s !!! i) as Hold.
  { intros i Hi. unfold p1. destruct (_ <? _)%nat; [|reflexivity].
    apply list_lookup_total_insert_ne. lia. }
  set (gb0 := if (ind s =? 0)%nat then v else grand_best s).
  set (bst0 := if (ind s =? 0)%nat then p1 !!! 0%nat else best s).
  assert (forall i, (i < ind s)%nat -> (i < popsize E)%nat ->
            0 < score_of E (p1 !!! i) /\ score_of E (p1 !!! i) <= gb0 /\
            exists mintrades, score_of E (p1 !!! i) = evaluate E (p1 !!! i) mintrades)
    as Hmem0.
  { intros i Hi Hp. rewrite Hold by exact Hi. unfold gb0.
    replace (ind s =? 0)%nat with false by (symmetry; apply Nat.eqb_neq; lia).
    apply Hmem; assumption. }
  assert (best_ok E bst0 gb0) as Hb0.
  { unfold bst0, gb0. destruct (ind s =? 0)%nat eqn:H0.
    - apply Nat.eqb_eq in H0. unfold p1. rewrite H0.
      replace (0 <? popsize E)%nat with true by (symmetry; apply Nat.ltb_lt; lia).
      rewrite list_lookup_total_insert_eq by lia. split; [exact Hsc | exact Hlegal].
    - apply Nat.eqb_neq in H0. apply Hbest. lia. }
  destruct (Qle_bool v 0) eqn:Hval.
  - destruct (max_evals E <? n_evals s + 1)%Z; [|destruct (500 <=? failures s + 1)%Z];
      simpl; apply init_scores_mk; try exact Hmem0; intros _; exact Hb0.
  - apply Qle_bool_gt in Hval.
    assert (gb0 <= snd (if Qltb gb0 v then (trial, v) else (bst0, gb0)) /\
            v <= snd (if Qltb gb0 v then (trial, v) else (bst0, gb0)) /\
            best_ok E (fst (if Qltb gb0 v then (trial, v) else (bst0, gb0)))
                      (snd (if Qltb gb0 v then (trial, v) else (bst0, gb0)))) as Hup.
    { cmp gb0 v; simpl; (split; [lra|]); (split; [lra|]);
        [split; [exact Hsc | exact Hlegal] | exact Hb0]. }
    destruct (if Qltb gb0 v then (trial, v) else (bst0, gb0)) as [bst gb].
    simpl in Hup. destruct Hup as (Hg0 & Hgv & Hbs).
    assert (forall i, (i < ind s)%nat -> (i < popsize E)%nat ->
              0 < score_of E (p1 !!! i) /\ score_of E (p1 !!! i) <= gb /\
              exists mintrades, score_of E (p1 !!! i) = evaluate E (p1 !!! i) mintrades)
      as Hmem1.
    { intros i Hi Hp. destruct (Hmem0 i Hi Hp) as (H1 & H2 & H3).
      split; [exact H1|]. split; [lra | exact H3]. }
    destruct (popsize E <=? ind s)%nat eqn:Hover.
    + apply Nat.leb_le in Hover.
      destruct (fold_left _ _ _) as [[af m] wf].
      destruct (Qltb wf v); simpl; apply init_scores_mk; try (intros _; exact Hbs).
      * intros i Hi Hp. destruct (decide (m = i)) as [->|Hne].
        -- rewrite list_lookup_total_insert_eq
             by (unfold p1; destruct (_ <? _)%nat; rewrite ?length_insert; lia).
           split; [rewrite Hsc; lra|]. split; [rewrite Hsc; lra|].
           exists (local_mintrades s). exact Hfresh.
        -- rewrite list_lookup_total_insert_ne by exact Hne. apply Hmem1; lia.
      * intros i Hi Hp. apply Hmem1; lia.
    + apply Nat.leb_gt in Hover. simpl. apply init_scores_mk; [|intros _; exact Hbs].
      intros i Hi Hp. destruct (decide (i = ind s)) as [->|Hne].
      * unfold p1. replace (ind s <? popsize E)%nat with true
          by (symmetry; apply Nat.ltb_lt; lia).
        rewrite list_lookup_total_insert_eq by lia.
        split; [rewrite Hsc; lra|]. split; [rewrite Hsc; lra|].
           exists (local_mintrades s). exact Hfresh.
      * apply Hmem1; lia.
Qed.

Lemma init_loop_scores (fuel : nat) (s s' : init_state) :
  init_inv E s -> init_scores E s ->
  init_loop E fuel s = Some (Next s') ->
  init_inv E s' /\ init_scores E s' /\ (popsize E + overinit E <= ind s')%nat.
Proof.
  revert s. induction fuel as [|fuel IH]; intros s Hinv Hsc; simpl.
  - destruct (_ <? _)%nat eqn:Hlt; [discriminate|].
    intros [= <-]. apply Nat.ltb_ge in Hlt.
    split; [exact Hinv | split; [exact Hsc | exact Hlt]].
  - destruct (_ <? _)%nat eqn:Hlt.
    + pose proof (init_trial_inv E Hwf s Hinv) as Hinv'.
      pose proof (init_trial_scores s Hinv Hsc) as Hsc'.
      destruct (init_trial E s) as [s1|s1]; simpl in Hinv', Hsc'; [|discriminate].
      apply IH; assumption.
    + intros [= <-]. apply Nat.ltb_ge in Hlt.
    split; [exact Hinv | split; [exact Hsc | exact Hlt]].
Qed.

Lemma init_start_scores : init_scores E (init_start E).
Proof.
  unfold init_scores, init_start; simpl. split; intros; lia.
Qed.

Lemma enter_main_scores (s : init_state) :
  init_scores E s -> (popsize E + overinit E <= ind s)%nat ->
  gen_scores E (pop1 s) (enter_main E s).
Proof.
  intros [Hmem Hbest] Hind. unfold gen_scores, enter_main; simpl. split.
  - intros i Hi. destruct (Hmem i ltac:(lia) Hi) as (H1 & H2 & _). split; assumption.
  - apply Hbest. lia.
Qed.

(* ---------------------------------------------------------------- *)

Lemma update_best_scores (ind : nat) (c : child) :
  score_of E (dest c) = value c -> legal_row E (dest c) ->
  best_ok E (h_best c) (h_grand_best c) ->
  best_ok E (h_best (update_best ind c)) (h_grand_best (update_best ind c)) /\
  value c <= h_grand_best (update_best ind c) /\
  h_grand_best c <= h_grand_best (update_best ind c).
Proof.
  intros Hd Hl Hb. unfold update_best. cmp (h_grand_best c) (value c); simpl.
  - split; [split; [exact Hd | exact Hl]|]. split; lra.
  - split; [exact Hb|]. split; lra.
Qed.

Lemma selection_scores (ind : nat) (mintrades : Z) (parent1 x : row)
      (s : gen_state) (d : nat) :
  legal_row E parent1 -> row_ok E x ->
  score_of E parent1 <= g_grand_best s ->
  best_ok E (g_best s) (g_grand_best s) ->
  let c := selection E ind mintrades parent1
             (snd (ensure_legal (nvars E) (nints E) (low_bounds E) (high_bounds E) x))
             s d in
  slot_ok E c /\ score_of E parent1 <= score_of E (dest c) /\
  g_grand_best s <= h_grand_best c.
Proof.
  intros Hp Hx Hps Hbs c.
  pose proof (selection_legal E Hwf ind mintrades parent1 x s d Hp Hx) as Hleg.
  fold c in Hleg.
  pose proof (legalize_legal E Hwf x Hx) as Hdl.
  revert Hleg. unfold c, selection, select_child. clear c.
  destruct (ensure_legal _ _ _ _ x) as [pen dl]. simpl in Hdl. simpl snd.
  fold (score_of E parent1).
  cmp (score_of E parent1) (evaluate E dl mintrades); intros Hleg.
  - match goal with |- context [update_best ind ?c0] => set (c0' := c0) in * end.
    assert (score_of E (dest c0') = value c0') as Hd0.
    { unfold c0', score_of; simpl. apply list_lookup_total_insert_eq.
      destruct Hdl as (Hl & _). lia. }
    assert (legal_row E (dest c0')) as Hl0 by (apply legal_row_score, Hdl).
    destruct (update_best_scores ind c0' Hd0 Hl0 Hbs) as (H1 & H2 & H3).
    destruct (update_best_dest E ind c0') as [Hud Huv].
    split; [|split].
    + split; [exact Hleg|]. rewrite Hud, Huv. split; [exact Hd0|]. split; assumption.
    + rewrite Hud, Hd0. simpl. lra.
    + exact H3.
  - simpl. split; [|split; lra].
    split; [exact Hp|]. simpl. split; [reflexivity|]. split; assumption.
Qed.

Lemma walk_frame (up : bool) (n : nat) (ivar limit : Z) (k : nat) (mintrades : Z)
      (c : climb) (j : nat) :
  j <> k -> c_dest (walk E up n ivar limit k mintrades c) !!! j = c_dest c !!! j.
Proof.
  intros Hj. revert ivar c. induction n as [|n IH]; intros ivar c; simpl; [reflexivity|].
  destruct (if up then _ else _); [|reflexivity].
  destruct (Qltb _ _).
  - rewrite IH. simpl. apply list_lookup_total_insert_ne. congruence.
  - simpl. rewrite !list_lookup_total_insert_ne by congruence. reflexivity.
Qed.

Lemma hill_int_frame (k : nat) (mintrades : Z) (dest_ptr : row) (value0 : Q) (j : nat) :
  j <> k -> c_dest (hill_int E k mintrades dest_ptr value0) !!! j = dest_ptr !!! j.
Proof.
  intros Hj. unfold hill_int. cbv zeta.
  destruct (c_success _); rewrite ?walk_frame by exact Hj; reflexivity.
Qed.

Lemma hill_climb_scores (generation ind : nat) (mintrades : Z) (c : child) :
  slot_ok E c ->
  let c' := hill_climb E generation ind mintrades c in
  legal_row E (dest c') /\
  score_of E (dest c) <= score_of E (dest c') /\
  score_of E (dest c') <= h_grand_best c' /\
  best_ok E (h_best c') (h_grand_best c') /\
  h_grand_best c <= h_grand_best c'.
Proof.
  intros (Hleg & Hsc & Hle & Hb) c'.
  pose proof (hill_climb_legal E Hwf generation ind mintrades c Hleg) as Hleg'.
  fold c' in Hleg'. split; [exact Hleg'|]. clear Hleg'.
  unfold c', hill_climb. cbv zeta. clear c'.
  destruct (Qltb 0 (pclimb E)); [|rewrite Hsc; (split; [lra|]); (split; [lra|]); (split; [exact Hb | lra])].
  destruct (if (ind =? h_ibest c)%nat && (h_n_tweaked c <? nvars E)%nat
            then _ else _) as [go d].
  destruct go; [|simpl; rewrite Hsc; (split; [lra|]); (split; [lra|]); (split; [exact Hb | lra])].
  destruct (if (ind =? h_ibest c)%nat then _ else _) as [[k tweaked] d'].
  destruct (k <? nints E)%nat eqn:Hk.
  - apply Nat.ltb_lt in Hk. pose proof (wf_nints E Hwf) as Hn. simpl.
    unfold score_of at 2 3. rewrite hill_int_frame by lia. fold (score_of E (dest c)).
    rewrite Hsc. split; [lra|]. split; [lra|]. split; [exact Hb | lra].
  - destruct (hill_real_cases E Hwf k mintrades (dest c) (value c) Hleg)
      as [->|(x & Hx & Hlt & ->)].
    + match goal with |- context [update_best ind ?c0] => set (c0' := c0) end.
      destruct (update_best_scores ind c0' Hsc Hleg Hb) as (H1 & H2 & H3).
      destruct (update_best_dest E ind c0') as [-> _]. simpl.
      rewrite Hsc. split; [lra|]. split; [exact H2|]. split; [exact H1 | exact H3].
    + match goal with |- context [update_best ind ?c0] => set (c0' := c0) end.
      assert (score_of E (dest c0') = value c0') as Hd0.
      { unfold c0', score_of; simpl. apply list_lookup_total_insert_eq.
        destruct Hx as (Hl & _). lia. }
      assert (legal_row E (dest c0')) as Hl0 by (apply legal_row_score, Hx).
      destruct (update_best_scores ind c0' Hd0 Hl0 Hb) as (H1 & H2 & H3).
      destruct (update_best_dest E ind c0') as [-> _]. rewrite Hd0. simpl.
      rewrite Hsc. split; [lra|]. split; [exact H2|]. split; [exact H1 | exact H3].
Qed.

Lemma child_step_scores (pfuel generation ind : nat) (mintrades : Z)
      (old_gen : list row) (s s' : gen_state) :
  gen_inv E old_gen s -> (ind < popsize E)%nat ->
  score_of E (old_gen !!! ind) <= g_grand_best s ->
  best_ok E (g_best s) (g_grand_best s) ->
  child_step E pfuel generation ind mintrades old_gen s = Some s' ->
  score_of E (old_gen !!! ind) <= score_of E (new_gen s' !!! ind) /\
  score_of E (new_gen s' !!! ind) <= g_grand_best s' /\
  best_ok E (g_best s') (g_grand_best s') /\
  g_grand_best s <= g_grand_best s'.
Proof.
  intros (Lo & Fo & Ln & Fn) Hind Hps Hbs. unfold child_step.
  destruct (pick E pfuel _ (g_draws s)) as [[i d1]|]; simpl; [|discriminate].
  destruct (pick E pfuel _ d1) as [[j d2]|]; simpl; [|discriminate].
  destruct (pick E pfuel _ d2) as [[k d3]|]; simpl; [|discriminate].
  destruct (pick_start E pfuel d3) as [[j0 d4]|]; simpl; [|discriminate].
  pose proof (crossover_length E (old_gen !!! ind) (old_gen !!! Z.to_nat i)
                (old_gen !!! Z.to_nat j) (old_gen !!! Z.to_nat k) j0
                (new_gen s !!! ind) d4) as Hlen.
  destruct (crossover E _ _ _ _ j0 (new_gen s !!! ind) d4) as [[dp used] d5].
  simpl in Hlen.
  assert (row_ok E dp) as Hdp.
  { unfold row_ok. rewrite Hlen. apply (Forall_lookup_total_row _ _ _ Fn). lia. }
  assert (legal_row E (old_gen !!! ind)) as Hp1.
  { apply (Forall_lookup_total_row _ _ _ Fo). lia. }
  destruct (selection_scores ind mintrades (old_gen !!! ind) dp s d5 Hp1 Hdp Hps Hbs)
    as (Hslot & Hge & Hgb).
  destruct (ensure_legal _ _ _ _ dp) as [pen dl]. simpl in Hslot, Hge, Hgb.
  destruct (hill_climb_scores generation ind mintrades _ Hslot)
    as (_ & H1 & H2 & H3 & H4).
  intros [= <-]. simpl. rewrite list_lookup_total_insert_eq by lia.
  split; [lra|]. split; [exact H2|]. split; [exact H3 | lra].
Qed.



End StoredScores.

(* ================================================================== *)
(** ** The thresholds the stored criteria were computed for *)
(* ================================================================== *)

Section FreshScores.

Variable E : setup.
Hypothesis Hwf : well_formed E.
Hypothesis Hpop : (1 <= popsize E)%nat.
Hypothesis Hm1 : (1 <= mintrd E)%Z.
Hypothesis Hm9 : (mintrd E * 9 <= INT_MAX)%Z.



End FreshScores.


Lemma Emix_init_facts :
  init_inv Demo.Emix Demo.Emix_init /\ init_scores Demo.Emix Demo.Emix_init /\
  gen_inv Demo.Emix (pop1 Demo.Emix_init) (enter_main Demo.Emix Demo.Emix_init) /\
  gen_scores Demo.Emix (pop1 Demo.Emix_init) (enter_main Demo.Emix Demo.Emix_init).
Proof.
  assert (1 <= popsize Demo.Emix)%nat as Hp by (simpl; lia).
  destruct (init_loop_scores Demo.Emix Emix_well_formed Hp 8 (init_start Demo.Emix)
              Demo.Emix_init (init_start_inv Demo.Emix) (init_start_scores Demo.Emix Hp)
              Emix_init_run) as (Hinv & Hsc & Hind).
  destruct (init_loop_inv Demo.Emix Emix_well_formed 8 (init_start Demo.Emix)
              (Next Demo.Emix_init) (init_start_inv Demo.Emix) Emix_init_run) as [_ Hall].
  split; [exact Hinv|]. split; [exact Hsc|]. split.
  - apply enter_main_inv; [exact Hinv | apply Hall; reflexivity].
  - apply enter_main_scores; assumption.
Qed.

Lemma Emix_child_run :
  child_step Demo.Emix 50 1 0 (local_mintrades Demo.Emix_init) (pop1 Demo.Emix_init)
             (start_generation (enter_main Demo.Emix Demo.Emix_init))
  = Some Small.Emix_child.
Proof. vm_compute. reflexivity. Qed.


(* ================================================================== *)
(** ** What the stored criteria are worth *)
(* ================================================================== *)



(** One pass of the loop over the children, hill climbing included, never
    leaves in its slot of the new generation a stored criterion below the
    parent's, nor above [grand_best]; [grand_best] does not decrease and
    [best] stays a legal candidate whose stored criterion is
    [grand_best]. *)
Theorem child_never_lowers_stored_score
        (E : setup) (pfuel generation ind : nat) (mintrades : Z)
        (old_gen : list row) (s s' : gen_state) :
  well_formed E -> (1 <= popsize E)%nat ->
  gen_inv E old_gen s -> gen_scores E old_gen s -> (ind < popsize E)%nat ->
  child_step E pfuel generation ind mintrades old_gen s = Some s' ->
  score_of E (old_gen !!! ind) <= score_of E (new_gen s' !!! ind) /\
  score_of E (new_gen s' !!! ind) <= g_grand_best s' /\
  g_grand_best s <= g_grand_best s' /\
  score_of E (g_best s') = g_grand_best s' /\ legal_row E (g_best s').
Proof.
  intros Hwf Hp Hinv [Hmem Hbs] Hind Hstep.
  destruct (child_step_scores E Hwf Hp pfuel generation ind mintrades old_gen s s' Hinv Hind
              (proj2 (Hmem ind Hind)) Hbs Hstep) as (H1 & H2 & [H3 H4] & H5).
  split; [exact H1|]. split; [exact H2|]. split; [exact H5|].
  split; [exact H3 | exact H4].
Qed.

Lemma child_never_lowers_stored_score_witness :
  score_of Demo.Emix (pop1 Demo.Emix_init !!! 0%nat)
  <= score_of Demo.Emix (new_gen Small.Emix_child !!! 0%nat) /\
  score_of Demo.Emix (new_gen Small.Emix_child !!! 0%nat) <= g_grand_best Small.Emix_child.
Proof.
  destruct Emix_init_facts as (_ & _ & Hgi & Hgs).
  destruct (child_never_lowers_stored_score Demo.Emix 50 1 0
              (local_mintrades Demo.Emix_init) (pop1 Demo.Emix_init)
              (start_generation (enter_main Demo.Emix Demo.Emix_init)) Small.Emix_child
              Emix_well_formed ltac:(simpl; lia) Hgi Hgs ltac:(simpl; lia) Emix_child_run)
    as (H1 & H2 & _).
  split; [exact H1 | exact H2].
Defined.



(* ================================================================== *)
(** ** What a hill-climbing step stores *)
(* ================================================================== *)

Section IntegerClimb.
Variable E : setup.

Lemma restore_id (k : nat) (d : row) (x : Q) :
  (k < length d)%nat -> d !!! k = x -> <[k := x]> d = d.
Proof.
  intros Hk Hx. apply list_insert_id. rewrite <- Hx.
  apply list_lookup_lookup_total_lt, Hk.
Qed.

(** Along a walk the carried value is the criterion of the slot as soon
    as a step has succeeded, the slot differs from the one at the start
    in the walked parameter only, and [ibase] moves in the direction of
    the walk. *)
Lemma walk_fresh (up : bool) (n : nat) (ivar limit : Z) (k : nat) (mintrades : Z)
      (c : climb) :
  (k < length (c_dest c))%nat ->
  c_dest c !!! k = of_int (c_ibase c) ->
  ivar = c_ibase c ->
  (c_success c = true -> c_value c = evaluate E (c_dest c) mintrades) ->
  let w := walk E up n ivar limit k mintrades c in
  (c_success w = true -> c_value w = evaluate E (c_dest w) mintrades) /\
  c_dest w = <[k := of_int (c_ibase w)]> (c_dest c) /\
  (if up then (c_ibase c <= c_ibase w)%Z else (c_ibase w <= c_ibase c)%Z) /\
  (c_success c = false -> c_success w = true -> c_ibase w <> c_ibase c).
Proof.
  cbv zeta. revert ivar c.
  assert (forall c : climb,
            (k < length (c_dest c))%nat -> c_dest c !!! k = of_int (c_ibase c) ->
            (c_success c = true -> c_value c = evaluate E (c_dest c) mintrades) ->
            (c_success c = true -> c_value c = evaluate E (c_dest c) mintrades) /\
            c_dest c = <[k := of_int (c_ibase c)]> (c_dest c) /\
            (if up then (c_ibase c <= c_ibase c)%Z else (c_ibase c <= c_ibase c)%Z) /\
            (c_success c = false -> c_success c = true -> c_ibase c <> c_ibase c)) as Hstay.
  { intros c Hk Hd Hf. split; [exact Hf|]. split; [symmetry; apply restore_id; assumption|].
    split; [destruct up; lia|]. intros H1 H2. congruence. }
  induction n as [|n IH]; intros ivar c Hk Hd Hi Hf; simpl; [apply Hstay; assumption|].
  destruct (if up then _ else _); [|apply Hstay; assumption].
  set (ivar' := if up then (ivar + 1)%Z else (ivar - 1)%Z).
  set (dp := <[k := of_int ivar']> (c_dest c)).
  destruct (Qltb (c_value c) (evaluate E dp mintrades)).
  - destruct (IH ivar' (mkClimb dp (evaluate E dp mintrades) ivar' true))
      as (H1 & H2 & H3 & _); simpl.
    + unfold dp. rewrite length_insert. exact Hk.
    + unfold dp. apply list_lookup_total_insert_eq, Hk.
    + reflexivity.
    + reflexivity.
    + simpl in H1, H2, H3. split; [exact H1|]. split.
      * rewrite H2. unfold dp. apply list_insert_insert_eq.
      * subst ivar'. split; [destruct up; lia|]. intros _ _. destruct up; lia.
  - simpl. unfold dp. rewrite list_insert_insert_eq.
    pose proof (restore_id k (c_dest c) (of_int (c_ibase c)) Hk Hd) as Hid.
    split; [rewrite Hid; exact Hf|]. split; [reflexivity|].
    split; [destruct up; lia|]. intros H1 H2. congruence.
Qed.

End IntegerClimb.

(** A successful climb on an integer parameter (lines 350-397) carries on
    a value that is the criterion of the slot and is greater than the one
    it started from, and changes the slot in that parameter only: the
    criterion stored in the slot stays the one of the parameters before the
    climb, below the criterion of the parameters it now holds. *)
Theorem integer_climb_leaves_stale_score
        (E : setup) (k : nat) (mintrades : Z) (dest_ptr : row) (value0 : Q) :
  whole (dest_ptr !!! k) -> (k < nvars E)%nat -> (nvars E < length dest_ptr)%nat ->
  score_of E dest_ptr = value0 ->
  let w := hill_int E k mintrades dest_ptr value0 in
  c_success w = true ->
  value0 < c_value w /\
  c_value w = evaluate E (c_dest w) mintrades /\
  c_dest w = <[k := of_int (c_ibase w)]> dest_ptr /\
  c_dest w !!! k <> dest_ptr !!! k /\
  score_of E (c_dest w) = value0 /\
  score_of E (c_dest w) < evaluate E (c_dest w) mintrades.
Proof.
  intros Hw Hk Hn Hsc.
  assert (forall c0 w : climb,
            c_dest c0 = dest_ptr -> c_value c0 = value0 ->
            c_ibase c0 = to_int (dest_ptr !!! k) ->
            (c_success w = true -> c_value w = evaluate E (c_dest w) mintrades) /\
            c_dest w = <[k := of_int (c_ibase w)]> (c_dest c0) /\
            (c_success c0 = false -> c_success w = true -> c_ibase w <> c_ibase c0) ->
            c_value c0 < c_value w -> c_success c0 = false -> c_success w = true ->
            value0 < c_value w /\
            c_value w = evaluate E (c_dest w) mintrades /\
            c_dest w = <[k := of_int (c_ibase w)]> dest_ptr /\
            c_dest w !!! k <> dest_ptr !!! k /\
            score_of E (c_dest w) = value0 /\
            score_of E (c_dest w) < evaluate E (c_dest w) mintrades) as Hfin.
  { intros c0 w Hd Hv Hb (H1 & H2 & H3) Hlt Hs0 Hs.
    rewrite Hd in H2. rewrite Hv in Hlt. specialize (H1 Hs). specialize (H3 Hs0 Hs).
    assert (score_of E (c_dest w) = value0) as Hst.
    { unfold score_of. rewrite H2, list_lookup_total_insert_ne by lia. exact Hsc. }
    split; [exact Hlt|]. split; [exact H1|]. split; [exact H2|]. split.
    - rewrite H2, list_lookup_total_insert_eq by lia. intros Heq. apply H3.
      rewrite Hb. unfold whole in Hw. rewrite <- Hw in Heq.
      apply inject_Z_injective. unfold of_int in Heq. rewrite Heq. reflexivity.
    - split; [exact Hst|]. rewrite Hst, <- H1. exact Hlt. }
  unfold hill_int. cbv zeta.
  set (ibase := to_int (dest_ptr !!! k)).
  set (c0 := mkClimb dest_ptr value0 ibase false).
  assert (c_dest c0 !!! k = of_int (c_ibase c0)) as Hk0 by (symmetry; exact Hw).
  assert (k < length (c_dest c0))%nat as Hlen by (simpl; lia).
  set (c1 := walk E true _ ibase _ k mintrades c0).
  destruct (c_success c1) eqn:Hs1.
  - intros _.
    destruct (walk_fresh E true (Z.to_nat (to_int (high_bounds E !!! k) - ibase)) ibase
                (to_int (high_bounds E !!! k)) k mintrades c0 Hlen Hk0 eq_refl
                ltac:(discriminate)) as (H1 & H2 & _ & H3).
    destruct (walk_value E true (Z.to_nat (to_int (high_bounds E !!! k) - ibase)) ibase
                (to_int (high_bounds E !!! k)) k mintrades c0) as [_ Hlt].
    fold c1 in H1, H2, H3, Hlt.
    apply (Hfin c0 c1); try reflexivity; [repeat split; assumption | apply Hlt; [assumption | reflexivity] | assumption].
  - assert (c1 = c0) as -> by (apply walk_undone; assumption).
    set (c2 := walk E false _ (c_ibase c0) _ k mintrades c0).
    intros Hs2.
    destruct (walk_fresh E false (Z.to_nat (c_ibase c0 - to_int (low_bounds E !!! k)))
                (c_ibase c0) (to_int (low_bounds E !!! k)) k mintrades c0 Hlen Hk0 eq_refl
                ltac:(discriminate)) as (H1 & H2 & _ & H3).
    destruct (walk_value E false (Z.to_nat (c_ibase c0 - to_int (low_bounds E !!! k)))
                (c_ibase c0) (to_int (low_bounds E !!! k)) k mintrades c0) as [_ Hlt].
    fold c2 in H1, H2, H3, Hlt.
    apply (Hfin c0 c2); try reflexivity; [repeat split; assumption | apply Hlt; [assumption | reflexivity] | assumption].
Qed.

Lemma integer_climb_leaves_stale_score_witness :
  let w := hill_int Demo.Eint 0 1 [0; 1] 1 in
  1 < c_value w /\ score_of Demo.Eint (c_dest w) = 1 /\
  score_of Demo.Eint (c_dest w) < evaluate Demo.Eint (c_dest w) 1.
Proof.
  intros w.
  destruct (integer_climb_leaves_stale_score Demo.Eint 0 1 [0; 1] 1)
    as (H1 & _ & _ & _ & H2 & H3);
    [reflexivity | simpl; lia | simpl; lia | reflexivity | vm_compute; reflexivity |].
  split; [exact H1|]. split; [exact H2 | exact H3].
Defined.

(** A climb on a real parameter (lines 401-439) leaves a legal candidate
    whose stored criterion is the value carried on, never below the one
    before the climb; when the value rose, it is the criterion of the
    parameters the slot now holds. *)
Theorem real_climb_stores_its_criterion
        (E : setup) (k : nat) (mintrades : Z) (dest_ptr : row) (value0 : Q) :
  well_formed E -> legal_row E dest_ptr -> score_of E dest_ptr = value0 ->
  let r := hill_real E k mintrades dest_ptr value0 in
  legal_row E (fst r) /\ score_of E (fst r) = snd r /\ value0 <= snd r /\
  (value0 < snd r -> snd r = evaluate E (fst r) mintrades).
Proof.
  intros Hwf Hlegal Hsc. cbv zeta.
  destruct (hill_real_cases E Hwf k mintrades dest_ptr value0 Hlegal)
    as [-> | (x & Hx & Hlt & ->)]; simpl.
  - split; [exact Hlegal|]. split; [exact Hsc|]. split; [lra|]. intros H. lra.
  - split; [apply legal_row_score, Hx|]. split.
    + unfold score_of. apply list_lookup_total_insert_eq.
      destruct Hx as [Hl _]. lia.
    + split; [lra|]. intros _. unfold evaluate.
      rewrite take_insert_ge by lia. reflexivity.
Qed.

Lemma real_climb_stores_its_criterion_witness :
  let r := hill_real Demo.Emix 1 1 [1; 2; 95] 95 in
  score_of Demo.Emix (fst r) = snd r /\ 95 <= snd r.
Proof.
  intros r.
  assert (legal_row Demo.Emix [1; 2; 95]) as Hlegal.
  { split; [reflexivity|]. split.
    - intros i Hi. destruct i as [|[|i]]; [| |simpl in Hi; lia]; split; discriminate.
    - intros i Hi Hn. destruct i as [|i]; [reflexivity | simpl in Hn; lia]. }
  destruct (real_climb_stores_its_criterion Demo.Emix 1 1 [1; 2; 95] 95
              Emix_well_formed Hlegal eq_refl) as (_ & H1 & H2 & _).
  split; [exact H1 | exact H2].
Defined.

(* ================================================================== *)
(** ** The end of the main loop *)
(* ================================================================== *)

(** The main loop (lines 231-485) ends only after a generation that did
    not improve the best, and not before the count of such generations in
    a row has passed [max_bad_gen]: starting from the count [bad], at
    least [max_bad_gen - bad + 1] generations are run. *)
Theorem main_loop_ends_after_bad_generations
        (E : setup) (fuel pfuel generation : nat) (bad mintrades : Z)
        (old_gen : list row) (s s' : gen_state) :
  (-1 <= bad)%Z ->
  evolve E fuel pfuel generation bad mintrades old_gen s = Some s' ->
  improved s' = false /\ (max_bad_gen E - bad < Z.of_nat fuel)%Z.
Proof.
  revert generation bad old_gen s.
  induction fuel as [|fuel IH]; intros generation bad old_gen s Hbad; [discriminate|].
  cbn [evolve].
  destruct (children E (popsize E) pfuel generation 0 mintrades old_gen (start_generation s))
    as [g|]; simpl; [|discriminate].
  destruct (improved g) eqn:Himp; simpl.
  - intros Hrun. apply IH in Hrun; [|lia]. split; [apply Hrun|]. lia.
  - destruct (Z.ltb_spec (max_bad_gen E) (bad + 1)) as [Hlt|Hge].
    + intros [= <-]. split; [exact Himp | lia].
    + intros Hrun. apply IH in Hrun; [|lia]. split; [apply Hrun|]. lia.
Qed.

Lemma main_loop_ends_after_bad_generations_witness :
  improved Demo.Emix_last = false /\ (max_bad_gen Demo.Emix - 0 < Z.of_nat 10)%Z.
Proof.
  apply (main_loop_ends_after_bad_generations Demo.Emix 10 50 1 0
           (local_mintrades Demo.Emix_init) (pop1 Demo.Emix_init)
           (enter_main Demo.Emix Demo.Emix_init) Demo.Emix_last);
    [lia | exact Emix_last_run].
Defined.
